(** * imgcat: iTerm2 inline-image encoder

    A shallow embedding of [imgcat/imgcat.go] and of the parts of the Go
    standard library it drives ([encoding/base64], [io.Pipe], [io.Copy],
    [io.MultiReader], [bytes.Buffer]), followed by the properties of the
    encoder that the specification states.

    Bytes are [Byte.byte]; Go strings are [string]; a Go [error] that may be
    [nil] is an [option error].  Goroutines are threads of an executable
    small-step machine: [step t s] runs one atomic action of thread [t] and
    is [None] when [t] is blocked or has finished, so a property of "every
    execution" is a property of [exec sched s] for every schedule [sched]. *)

From Stdlib.Strings Require Import Byte Ascii String.
From Stdlib Require Import DecimalString.
From Stdlib Require DecimalZ DecimalPos.
From Stdlib Require Import Arith NArith ZArith Lia Bool List.
Import ListNotations.

Local Open Scope list_scope.

(** ** Bytes and strings *)

Abbreviation bytes := (list byte).

Definition bytes_of (s : string) : bytes := list_byte_of_string s.
Definition string_of (b : bytes) : string := string_of_list_byte b.

(** [fmt.Sprint(x)] and the verb [%d] on an [int]. *)
Definition itoa (x : Z) : string := NilZero.string_of_int (Z.to_int x).

(** ** encoding/base64, [StdEncoding] *)

Module Base64.

Definition encodeStd : bytes :=
  bytes_of "ABCDEFGHIJKLMNOPQRSTUVWXYZabcdefghijklmnopqrstuvwxyz0123456789+/".

Definition StdPadding : byte := "="%byte.

(** [enc.encode[v]] *)
Definition encode_char (v : N) : byte := nth (N.to_nat v) encodeStd "A"%byte.

(** [val>>sh & 0x3F], looked up in the alphabet. *)
Definition sextet (val sh : N) : byte := encode_char (N.land (N.shiftr val sh) 63).

Definition quantum (a b c : N) : N :=
  N.lor (N.lor (N.shiftl a 16) (N.shiftl b 8)) c.

(** [Encoding.Encode]: whole groups of three bytes, then the padded
    remainder of one or two bytes. *)
Fixpoint Encode (src : bytes) : bytes :=
  match src with
  | a :: b :: c :: rest =>
      let val := quantum (Byte.to_N a) (Byte.to_N b) (Byte.to_N c) in
      sextet val 18 :: sextet val 12 :: sextet val 6 :: sextet val 0 :: Encode rest
  | [a; b] =>
      let val := quantum (Byte.to_N a) (Byte.to_N b) 0 in
      [sextet val 18; sextet val 12; sextet val 6; StdPadding]
  | [a] =>
      let val := quantum (Byte.to_N a) 0 0 in
      [sextet val 18; sextet val 12; StdPadding; StdPadding]
  | [] => []
  end.

(** Standard decoding, the inverse the specification's round-trip law
    speaks of: position of a character in the alphabet. *)
Fixpoint index_of (c : byte) (l : bytes) (i : N) : option N :=
  match l with
  | [] => None
  | x :: l' => if Byte.eqb x c then Some i else index_of c l' (N.succ i)
  end.

Definition decode_char (c : byte) : option N := index_of c encodeStd 0.

Definition byte_at (val sh : N) : option byte :=
  Byte.of_N (N.land (N.shiftr val sh) 255).

Definition cons_opt {A} (x : option A) (l : option (list A)) : option (list A) :=
  match x, l with
  | Some a, Some r => Some (a :: r)
  | _, _ => None
  end.

Definition quad (v0 v1 v2 v3 : N) : N :=
  N.lor (N.lor (N.lor (N.shiftl v0 18) (N.shiftl v1 12)) (N.shiftl v2 6)) v3.

Fixpoint Decode (s : bytes) : option bytes :=
  match s with
  | [] => Some []
  | c0 :: c1 :: c2 :: c3 :: rest =>
      match decode_char c0, decode_char c1 with
      | Some v0, Some v1 =>
          if Byte.eqb c3 StdPadding then
            match rest with
            | [] =>
                if Byte.eqb c2 StdPadding then
                  cons_opt (byte_at (quad v0 v1 0 0) 16) (Some [])
                else
                  match decode_char c2 with
                  | Some v2 =>
                      let val := quad v0 v1 v2 0 in
                      cons_opt (byte_at val 16) (cons_opt (byte_at val 8) (Some []))
                  | None => None
                  end
            | _ :: _ => None
            end
          else
            match decode_char c2, decode_char c3 with
            | Some v2, Some v3 =>
                let val := quad v0 v1 v2 v3 in
                cons_opt (byte_at val 16)
                  (cons_opt (byte_at val 8) (cons_opt (byte_at val 0) (Decode rest)))
            | _, _ => None
            end
      | _, _ => None
      end
  | _ => None
  end.

End Base64.

(** ** Errors *)

Inductive error : Type :=
| EOF                       (* io.EOF *)
| ErrClosedPipe             (* io.ErrClosedPipe *)
| ErrShortWrite             (* io.ErrShortWrite *)
| Err (msg : string).       (* any other error value *)

Definition error_eqb (a b : error) : bool :=
  match a, b with
  | EOF, EOF | ErrClosedPipe, ErrClosedPipe | ErrShortWrite, ErrShortWrite => true
  | Err x, Err y => String.eqb x y
  | _, _ => false
  end.

(** ** The base64 stream encoder ([base64.NewEncoder]) *)

Record encoder : Type := mkEncoder {
  e_err : option error;   (* sticky error of the underlying writer *)
  e_buf : bytes           (* buf[:nbuf], fewer than three bytes awaiting encoding *)
}.

Definition NewEncoder : encoder := mkEncoder None [].

(** The "large interior chunks" loop of [encoder.Write]: while at least
    three bytes remain, encode up to 768 of them (a multiple of three) and
    hand the result to the underlying writer; what is left is the trailing
    fringe.  [fuel] bounds the iterations; [length p] always suffices. *)
Fixpoint interior (fuel : nat) (p : bytes) : list bytes * bytes :=
  match fuel with
  | O => ([], p)
  | S fuel' =>
      if 3 <=? length p then
        let nn := if length p <? 768 then length p - length p mod 3 else 768 in
        let (cs, fringe) := interior fuel' (skipn nn p) in
        (Base64.Encode (firstn nn p) :: cs, fringe)
      else ([], p)
  end.

(** The writes [encoder.Write(p)] issues to its underlying writer, in
    order, when none of them fails, and the bytes it leaves buffered. *)
Definition enc_chunks (buf p : bytes) : list bytes * bytes :=
  match buf with
  | [] => interior (length p) p
  | _ :: _ =>
      let i := Nat.min (3 - length buf) (length p) in
      let buf' := buf ++ firstn i p in
      if length buf' <? 3 then ([], buf')
      else
        let (cs, fringe) := interior (length p) (skipn i p) in
        (Base64.Encode buf' :: cs, fringe)
  end.

(** The write [encoder.Close] issues for a non-empty buffer. *)
Definition close_chunks (buf : bytes) : list bytes :=
  match buf with
  | [] => []
  | _ :: _ => [Base64.Encode buf]
  end.

(** *** The encoder over a [bytes.Buffer]

    A [bytes.Buffer] accepts every write, so an encoder on top of it runs
    to completion inside the caller. *)

Definition Buffer_Write (b p : bytes) : bytes * option error := (b ++ p, None).

Fixpoint write_all (b : bytes) (cs : list bytes) : bytes * option error :=
  match cs with
  | [] => (b, None)
  | c :: cs' =>
      match Buffer_Write b c with
      | (b', None) => write_all b' cs'
      | (b', Some err) => (b', Some err)
      end
  end.

Definition encoder_Write (e : encoder) (w : bytes) (p : bytes) : encoder * bytes :=
  match e_err e with
  | Some _ => (e, w)
  | None =>
      let (cs, fringe) := enc_chunks (e_buf e) p in
      match write_all w cs with
      | (w', None) => (mkEncoder None fringe, w')
      | (w', Some err) => (mkEncoder (Some err) (e_buf e), w')
      end
  end.

Definition encoder_Close (e : encoder) (w : bytes) : option error * encoder * bytes :=
  match e_err e, e_buf e with
  | None, _ :: _ =>
      match write_all w (close_chunks (e_buf e)) with
      | (w', err) => (err, mkEncoder err [], w')
      end
  | err, _ => (err, e, w)
  end.

(** ** Options (imgcat.go, lines 27-92) *)

Definition Option := string.
Definition Length := string.

Definition Cells (x : Z) : Length := itoa x.
Definition Pixels (x : Z) : Length := (itoa x ++ "px")%string.
Definition Percent (x : Z) : Length := (itoa x ++ "%")%string.
Definition Auto : Length := "auto"%string.

(** [Name]: [None] stands for the [log.Fatalf] branch. *)
Definition Name (name : string) : option Option :=
  let buf : bytes := [] in
  let enc := NewEncoder in
  let (enc, buf) := encoder_Write enc buf (bytes_of name) in
  match encoder_Close enc buf with
  | (Some _, _, _) => None
  | (None, _, buf) => Some ("name=" ++ string_of buf)%string
  end.

Definition Size (size : Z) : Option := ("size=" ++ itoa size)%string.
Definition Width (l : Length) : Option := ("width=" ++ l)%string.
Definition Height (l : Length) : Option := ("height=" ++ l)%string.

Definition boolToInt (b : bool) : Z := if b then 1%Z else 0%Z.

Definition PreserveAspectRatio (b : bool) : Option :=
  ("preserveAspectRatio=" ++ itoa (boolToInt b))%string.
Definition Inline (b : bool) : Option := ("inline=" ++ itoa (boolToInt b))%string.

(** ** Framing (imgcat.go, lines 122-136, 157-165) *)

Definition ESC : byte := x1b.
Definition BEL : byte := x07.
Definition LF : byte := x0a.

(** [headerEscape]; [tmux] is the value of [IsTmux()]. *)
Definition headerEscape (tmux : bool) : bytes :=
  if tmux then ESC :: bytes_of "Ptmux;" ++ ESC :: ESC :: bytes_of "]1337;File="
  else ESC :: bytes_of "]1337;File=".

(** [footerEscape] *)
Definition footerEscape (tmux : bool) : bytes :=
  if tmux then [BEL; ESC; "\"%byte; LF] else [BEL; LF].

(** The loop of [Encode] over [enc.options]: each option, and a [;] after
    every option but the last. *)
Fixpoint join_options (options : list Option) : bytes :=
  match options with
  | [] => []
  | [o] => bytes_of o
  | o :: rest => bytes_of o ++ bytes_of ";" ++ join_options rest
  end.

Definition header (tmux : bool) (options : list Option) : bytes :=
  headerEscape tmux ++ join_options options ++ bytes_of ":".

(** ** io.Pipe

    A pipe is a rendezvous: a [Write] offers its slice and returns once
    reads have taken all of it; [done] is closed by the first
    [CloseWithError] on either end, and each end keeps the first error it
    was closed with ([onceError]). *)

Inductive wrch : Type :=
| Free                    (* no write in progress *)
| Offered (b : bytes)     (* the writer is blocked in [p.wrCh <- b] *)
| Taken.                  (* reads took the whole slice; the writer may return *)

Record pipe : Type := mkPipe {
  p_wr : wrch;
  p_werr : option error;  (* p.werr *)
  p_rerr : option error   (* p.rerr *)
}.

Definition io_Pipe : pipe := mkPipe Free None None.

(** [p.done] is closed exactly when one of the ends has stored its error. *)
Definition p_done (p : pipe) : bool :=
  match p_werr p, p_rerr p with
  | None, None => false
  | _, _ => true
  end.

(** [onceError.Store]: only the first error is kept. *)
Definition store (slot : option error) (err : error) : option error :=
  match slot with
  | None => Some err
  | Some _ => slot
  end.

Definition closeWrite (err : option error) (p : pipe) : pipe :=
  mkPipe (p_wr p) (store (p_werr p) (match err with None => EOF | Some e => e end))
         (p_rerr p).

Definition closeRead (err : option error) (p : pipe) : pipe :=
  mkPipe (p_wr p) (p_werr p)
         (store (p_rerr p) (match err with None => ErrClosedPipe | Some e => e end)).

Definition readCloseError (p : pipe) : error :=
  match p_rerr p, p_werr p with
  | None, Some werr => werr
  | _, _ => ErrClosedPipe
  end.

Definition writeCloseError (p : pipe) : error :=
  match p_werr p, p_rerr p with
  | None, Some rerr => rerr
  | _, _ => ErrClosedPipe
  end.

(** [pipe.read] into a buffer of [n] bytes: [None] while it blocks. *)
Definition pipe_read (n : nat) (p : pipe) : option (pipe * (bytes * option error)) :=
  if p_done p then Some (p, ([], Some (readCloseError p)))
  else
    match p_wr p with
    | Offered b =>
        let rest := skipn n b in
        Some (mkPipe (match rest with [] => Taken | _ :: _ => Offered rest end)
                     (p_werr p) (p_rerr p),
              (firstn n b, None))
    | _ => None
    end.

(** [pipe.write], first half: fail at once on a closed pipe, otherwise
    offer the slice.  The result is [inl] of the immediate return values or
    [inr] of the pipe with the offer placed. *)
Definition pipe_write_begin (b : bytes) (p : pipe)
  : (nat * option error) + pipe :=
  if p_done p then inl (0, Some (writeCloseError p))
  else inr (mkPipe (Offered b) (p_werr p) (p_rerr p)).

(** [pipe.write], second half, for a slice of [total] bytes: return when
    the slice was taken, or with the close error when [done] is closed
    first; [None] while blocked. *)
Definition pipe_write_wait (total : nat) (p : pipe)
  : option (pipe * (nat * option error)) :=
  match p_wr p with
  | Taken => Some (mkPipe Free (p_werr p) (p_rerr p), (total, None))
  | Offered rest =>
      if p_done p then
        Some (mkPipe Free (p_werr p) (p_rerr p),
              (total - length rest, Some (writeCloseError p)))
      else None
  | Free => None
  end.

(** ** Readers and writers around the encoder *)

(** The outcome of one [Read]: the bytes delivered and the error. *)
Definition read_result : Type := bytes * option error.

(** The [io.Reader] handed to [Encode]: a caller's reader, given by what
    its successive [Read]s return (and [0, EOF] ever after), or the read
    end of the pipe that [Writer] creates. *)
Inductive reader : Type :=
| ScriptReader (rs : list read_result)
| PipeReader.

(** The destination [enc.out]: what a [Write] returns, given the slices
    written before it and the slice written now. *)
Definition sink : Type := list bytes -> bytes -> nat * option error.

Record Encoder : Type := mkEnc {
  enc_out : sink;
  enc_options : list Option
}.

(** The size of the buffer [io.Copy] allocates. *)
Definition copy_buf : nat := N.to_nat 32768.

(** ** The three goroutines *)

(** The goroutine started inside [Encode] (lines 167-185). *)
Inductive tpc : Type :=
| TRead                                   (* io.Copy: r.Read(buf) *)
| TWrite (c : bytes) (cs : list bytes) (fringe : bytes) (er : option error)
                                          (* enc.Write: about to pw.Write(c) *)
| TWriteWait (c : bytes) (cs : list bytes) (fringe : bytes) (er : option error)
                                          (* enc.Write: blocked in pw.Write(c) *)
| TCopyRet (err : option error)           (* io.Copy returned err *)
| TEncClose (deferred : bool)             (* entering enc.Close() *)
| TEncCloseWait (c : bytes) (deferred : bool)
                                          (* enc.Close(): blocked in pw.Write(c) *)
| TEncClosed (err : option error) (deferred : bool)
                                          (* enc.Close() returned err *)
| TDone.

(** The readers of the [io.MultiReader]. *)
Inductive mreader : Type :=
| RBuf (b : bytes)     (* a bytes.Buffer: header or footer *)
| RPipe.               (* pr *)

(** The goroutine that runs [Encode]: the caller of [Encode], or the
    goroutine started by [Writer] (lines 197-203), which goes on to close
    the read end on an error and then closes [w.done]. *)
Inductive cpc : Type :=
| CRead (rs : list mreader)               (* io.Copy: mr.Read(buf) *)
| CWrite (d : bytes) (er : option error) (rs : list mreader)
                                          (* io.Copy: enc.out.Write(d) *)
| CRet (err : option error)               (* Encode returned err *)
| BDefer (err : option error)             (* about to run close(w.done) *)
| BDone (err : option error).             (* finished; Encode had returned err *)

(** The goroutine that holds the [io.WriteCloser] returned by [Writer]. *)
Inductive uop : Type :=
| UWrite (p : bytes)
| UClose.

Inductive ures : Type :=
| RWrite (n : nat) (err : option error)
| RClose (err : option error).

Inductive upc : Type :=
| UIdle                     (* between calls *)
| UWriteWait (total : nat)  (* blocked in w.pw.Write *)
| UCloseWait.               (* Close: pw.Close() returned nil, at <-w.done *)

Record state : Type := mkState {
  st_rd : reader;           (* r *)
  st_t : tpc;
  st_e : encoder;           (* enc of the transcode goroutine *)
  st_ip : pipe;             (* pr, pw := io.Pipe() of Encode *)
  st_c : cpc;
  st_out : list bytes;      (* the slices written to enc.out so far *)
  st_op : pipe;             (* pr, pw := io.Pipe() of Writer *)
  st_dn : bool;             (* w.done is closed *)
  st_ops : list uop;        (* calls the holder of the handle still makes *)
  st_u : upc;
  st_res : list ures        (* what its calls returned, in order *)
}.

Inductive tid : Type := Caller | Main | Transcode.

(** ** One step of each goroutine *)

Section Machine.

Variable enc : Encoder.

(** *** The transcode goroutine *)

(** [io.Copy] after a successful [enc.Write], or when [nr = 0]: look at the
    error of the read. *)
Definition t_after_read (er : option error) : tpc :=
  match er with
  | None => TRead
  | Some EOF => TCopyRet None
  | Some e => TCopyRet (Some e)
  end.

(** [enc.Write] with [cs] still to write: the next write, or its return
    with the trailing fringe buffered. *)
Definition t_write (e : encoder) (cs : list bytes) (fringe : bytes)
    (er : option error) : tpc * encoder :=
  match cs with
  | c :: cs' => (TWrite c cs' fringe er, e)
  | [] => (t_after_read er, mkEncoder (e_err e) fringe)
  end.

(** [enc.Write(buf[0:nr])] as called by [io.Copy]. *)
Definition t_enc_write (e : encoder) (d : bytes) (er : option error)
  : tpc * encoder :=
  match d with
  | [] => (t_after_read er, e)
  | _ :: _ =>
      match e_err e with
      | Some err => (TCopyRet (Some err), e)
      | None => let (cs, fringe) := enc_chunks (e_buf e) d in t_write e cs fringe er
      end
  end.

Definition set_t (s : state) (rd : reader) (pc : tpc) (e : encoder)
    (ip op : pipe) : state :=
  mkState rd pc e ip (st_c s) (st_out s) op (st_dn s) (st_ops s) (st_u s) (st_res s).

Definition step_transcode (s : state) : option state :=
  let e := st_e s in
  match st_t s with
  | TRead =>
      (* nr, er := r.Read(buf) *)
      match st_rd s with
      | ScriptReader [] =>
          let (pc, e') := t_enc_write e [] (Some EOF) in
          Some (set_t s (ScriptReader []) pc e' (st_ip s) (st_op s))
      | ScriptReader ((d, er) :: rs) =>
          let (pc, e') := t_enc_write e d er in
          Some (set_t s (ScriptReader rs) pc e' (st_ip s) (st_op s))
      | PipeReader =>
          match pipe_read copy_buf (st_op s) with
          | None => None
          | Some (op', (d, er)) =>
              let (pc, e') := t_enc_write e d er in
              Some (set_t s PipeReader pc e' (st_ip s) op')
          end
      end
  | TWrite c cs fringe er =>
      (* _, e.err = e.w.Write(c) *)
      match pipe_write_begin c (st_ip s) with
      | inl (_, None) =>
          let (pc, e') := t_write e cs fringe er in
          Some (set_t s (st_rd s) pc e' (st_ip s) (st_op s))
      | inl (_, Some err) =>
          Some (set_t s (st_rd s) (TCopyRet (Some err)) (mkEncoder (Some err) (e_buf e))
                      (st_ip s) (st_op s))
      | inr ip' =>
          Some (set_t s (st_rd s) (TWriteWait c cs fringe er) e ip' (st_op s))
      end
  | TWriteWait c cs fringe er =>
      match pipe_write_wait (length c) (st_ip s) with
      | None => None
      | Some (ip', (_, None)) =>
          let (pc, e') := t_write e cs fringe er in
          Some (set_t s (st_rd s) pc e' ip' (st_op s))
      | Some (ip', (_, Some err)) =>
          Some (set_t s (st_rd s) (TCopyRet (Some err)) (mkEncoder (Some err) (e_buf e))
                      ip' (st_op s))
      end
  | TCopyRet (Some err) =>
      (* _ = pw.CloseWithError(err); then the deferred function *)
      Some (set_t s (st_rd s) (TEncClose true) e (closeWrite (Some err) (st_ip s))
                  (st_op s))
  | TCopyRet None =>
      (* pw.CloseWithError(enc.Close()): evaluate enc.Close() *)
      Some (set_t s (st_rd s) (TEncClose false) e (st_ip s) (st_op s))
  | TEncClose deferred =>
      (* if e.err == nil && e.nbuf > 0 { _, e.err = e.w.Write(...); e.nbuf = 0 } *)
      match e_err e, close_chunks (e_buf e) with
      | None, c :: _ =>
          match pipe_write_begin c (st_ip s) with
          | inl (_, err) =>
              Some (set_t s (st_rd s) (TEncClosed err deferred) (mkEncoder err [])
                          (st_ip s) (st_op s))
          | inr ip' =>
              Some (set_t s (st_rd s) (TEncCloseWait c deferred) e ip' (st_op s))
          end
      | err, _ =>
          Some (set_t s (st_rd s) (TEncClosed err deferred) e (st_ip s) (st_op s))
      end
  | TEncCloseWait c deferred =>
      match pipe_write_wait (length c) (st_ip s) with
      | None => None
      | Some (ip', (_, err)) =>
          Some (set_t s (st_rd s) (TEncClosed err deferred) (mkEncoder err [])
                      ip' (st_op s))
      end
  | TEncClosed err false =>
      (* _ = pw.CloseWithError(err); then the deferred function *)
      Some (set_t s (st_rd s) (TEncClose true) e (closeWrite err (st_ip s)) (st_op s))
  | TEncClosed (Some err) true =>
      (* deferred: if err := enc.Close(); err != nil { _ = pw.CloseWithError(err) } *)
      Some (set_t s (st_rd s) TDone e (closeWrite (Some err) (st_ip s)) (st_op s))
  | TEncClosed None true =>
      Some (set_t s (st_rd s) TDone e (st_ip s) (st_op s))
  | TDone => None
  end.

(** *** The goroutine running [Encode] *)

(** The readers [Encode] hands to [io.MultiReader]. *)
Definition multi (tmux : bool) : list mreader :=
  [RBuf (header tmux (enc_options enc)); RPipe; RBuf (footerEscape tmux)].

(** [io.Copy] after a successful [Write], or when [nr = 0]. *)
Definition c_after_read (er : option error) (rs : list mreader) : cpc :=
  match er with
  | None => CRead rs
  | Some EOF => CRet None
  | Some e => CRet (Some e)
  end.

Definition set_c (s : state) (pc : cpc) (ip : pipe) (out : list bytes)
    (op : pipe) (dn : bool) : state :=
  mkState (st_rd s) (st_t s) (st_e s) ip pc out op dn (st_ops s) (st_u s) (st_res s).

Definition step_main (s : state) : option state :=
  match st_c s with
  | CRead [] =>
      (* MultiReader: no reader left, return 0, EOF *)
      Some (set_c s (c_after_read (Some EOF) []) (st_ip s) (st_out s) (st_op s) (st_dn s))
  | CRead (RBuf [] :: rs) =>
      (* bytes.Buffer.Read returns 0, EOF: drop the reader and go on *)
      Some (set_c s (CRead rs) (st_ip s) (st_out s) (st_op s) (st_dn s))
  | CRead (RBuf b :: rs) =>
      Some (set_c s (CWrite (firstn copy_buf b) None (RBuf (skipn copy_buf b) :: rs))
                  (st_ip s) (st_out s) (st_op s) (st_dn s))
  | CRead (RPipe :: rs) =>
      match pipe_read copy_buf (st_ip s) with
      | None => None
      | Some (ip', (d, Some EOF)) =>
          (* err == EOF: drop the reader; with n = 0 go on to the next one *)
          Some (set_c s (match d with
                         | [] => CRead rs
                         | _ :: _ => CWrite d (match rs with [] => Some EOF | _ :: _ => None end) rs
                         end)
                      ip' (st_out s) (st_op s) (st_dn s))
      | Some (ip', (d, er)) =>
          Some (set_c s (match d with
                         | [] => c_after_read er (RPipe :: rs)
                         | _ :: _ => CWrite d er (RPipe :: rs)
                         end)
                      ip' (st_out s) (st_op s) (st_dn s))
      end
  | CWrite d er rs =>
      (* nw, ew := dst.Write(buf[0:nr]) *)
      let (nw, ew) := enc_out enc (st_out s) d in
      let pc :=
        match ew with
        | Some e => CRet (Some e)
        | None => if nw =? length d then c_after_read er rs else CRet (Some ErrShortWrite)
        end in
      Some (set_c s pc (st_ip s) (st_out s ++ [d]) (st_op s) (st_dn s))
  | CRet err =>
      match st_rd s with
      | ScriptReader _ => None      (* Encode returned to its caller *)
      | PipeReader =>
          (* if err := enc.Encode(pr); err != nil { _ = pr.CloseWithError(err) } *)
          Some (set_c s (BDefer err) (st_ip s) (st_out s)
                      (match err with
                       | Some e => closeRead (Some e) (st_op s)
                       | None => st_op s
                       end)
                      (st_dn s))
      end
  | BDefer err =>
      (* defer close(w.done) *)
      Some (set_c s (BDone err) (st_ip s) (st_out s) (st_op s) true)
  | BDone _ => None
  end.

(** *** The holder of the [io.WriteCloser] *)

(** [PipeWriter.Close]: [CloseWithError(nil)], which always returns nil. *)
Definition PipeWriter_Close (p : pipe) : pipe * option error := (closeWrite None p, None).

Definition set_u (s : state) (op : pipe) (ops : list uop) (pc : upc)
    (res : list ures) : state :=
  mkState (st_rd s) (st_t s) (st_e s) (st_ip s) (st_c s) (st_out s) op (st_dn s)
          ops pc res.

Definition step_caller (s : state) : option state :=
  match st_ops s, st_u s with
  | [], _ => None
  | UWrite p :: ops, UIdle =>
      (* writer.Write: return w.pw.Write(p) *)
      match pipe_write_begin p (st_op s) with
      | inl (n, err) => Some (set_u s (st_op s) ops UIdle (st_res s ++ [RWrite n err]))
      | inr op' => Some (set_u s op' (UWrite p :: ops) (UWriteWait (length p)) (st_res s))
      end
  | _ :: ops, UWriteWait total =>
      match pipe_write_wait total (st_op s) with
      | None => None
      | Some (op', (n, err)) => Some (set_u s op' ops UIdle (st_res s ++ [RWrite n err]))
      end
  | UClose :: ops, UIdle =>
      (* writer.Close: if err := w.pw.Close(); err != nil { return err } *)
      match PipeWriter_Close (st_op s) with
      | (op', Some err) => Some (set_u s op' ops UIdle (st_res s ++ [RClose (Some err)]))
      | (op', None) => Some (set_u s op' (UClose :: ops) UCloseWait (st_res s))
      end
  | _ :: ops, UCloseWait =>
      (* <-w.done; return nil *)
      if st_dn s then Some (set_u s (st_op s) ops UIdle (st_res s ++ [RClose None]))
      else None
  end.

Definition step (t : tid) (s : state) : option state :=
  match t with
  | Caller => step_caller s
  | Main => step_main s
  | Transcode => step_transcode s
  end.

(** Running a schedule; a goroutine scheduled while it is blocked or
    finished leaves the state as it is. *)
Definition step' (t : tid) (s : state) : state :=
  match step t s with
  | Some s' => s'
  | None => s
  end.

Fixpoint exec (sched : list tid) (s : state) : state :=
  match sched with
  | [] => s
  | t :: sched' => exec sched' (step' t s)
  end.

(** A round-robin scheduler with [fuel] rounds. *)
Fixpoint run (fuel : nat) (s : state) : state :=
  match fuel with
  | O => s
  | S fuel' => run fuel' (step' Caller (step' Transcode (step' Main s)))
  end.

(** [enc.Encode(r)] called on a reader that behaves as [rs], with
    [IsTmux() = tmux]: the machine at the moment the goroutine has been
    started and [io.Copy] is entered. *)
Definition Encode (tmux : bool) (rs : list read_result) : state :=
  mkState (ScriptReader rs) TRead NewEncoder io_Pipe (CRead (multi tmux)) []
          io_Pipe false [] UIdle [].

(** [w := enc.Writer()] followed by the calls [ops] on [w]. *)
Definition Writer (tmux : bool) (ops : list uop) : state :=
  mkState PipeReader TRead NewEncoder io_Pipe (CRead (multi tmux)) []
          io_Pipe false ops UIdle [].

(** What [Encode] returned, once it has. *)
Definition returned (s : state) : option (option error) :=
  match st_c s with
  | CRet err => Some err
  | _ => None
  end.

(** The bytes handed to the destination so far. *)
Definition written (s : state) : bytes := concat (st_out s).

End Machine.

(** ** What is still to come

    Each goroutine is deterministic and the pipes deliver bytes in order, so
    from any state of the machine the bytes that will still reach the
    destination are determined, whatever the schedule.  The functions below
    read them off a state; the proofs show that no step changes them. *)

(** How a stream ends: never ([None]), cleanly ([Some None]) or with an
    error ([Some (Some e)]). *)
Definition term : Type := option (option error).

(** [io.EOF] passed to [CloseWithError] is a clean end for the reader. *)
Definition norm (t : term) : term :=
  match t with
  | Some (Some EOF) => Some None
  | _ => t
  end.

(** The whole groups of three bytes of [l], encoded. *)
Definition groups (l : bytes) : bytes :=
  Base64.Encode (firstn (length l - length l mod 3) l).

(** The output of the stream encoder holding [buf] when [data] is still
    written to it: the final partial group is flushed only on a clean end. *)
Definition enc_fut (buf data : bytes) (t : term) : bytes :=
  match t with
  | Some None => Base64.Encode (buf ++ data)
  | _ => groups (buf ++ data)
  end.

(** The bytes a reader will still deliver, and how it ends. *)
Fixpoint script_fut (rs : list read_result) : bytes * term :=
  match rs with
  | [] => ([], Some None)
  | (d, None) :: rs' => let (x, t) := script_fut rs' in (d ++ x, t)
  | (d, Some EOF) :: _ => (d, Some None)
  | (d, Some e) :: _ => (d, Some (Some e))
  end.

Fixpoint ops_fut (ops : list uop) : bytes * term :=
  match ops with
  | [] => ([], None)
  | UWrite p :: ops' => let (x, t) := ops_fut ops' in (p ++ x, t)
  | UClose :: _ => ([], Some None)
  end.

Definition inflight (p : pipe) : bytes :=
  match p_wr p with
  | Offered b => b
  | _ => []
  end.

Definition src_fut (s : state) : bytes * term :=
  match st_rd s with
  | ScriptReader rs => script_fut rs
  | PipeReader =>
      match p_werr (st_op s) with
      | Some _ => ([], Some None)
      | None =>
          let (x, t) := ops_fut (match st_u s with
                                 | UIdle => st_ops s
                                 | _ => tl (st_ops s)
                                 end) in
          (inflight (st_op s) ++ x, t)
      end
  end.

(** What the transcode goroutine will still offer to its pipe, and the
    error it will close it with. *)
Definition after_fut (fringe : bytes) (er : option error) (src : bytes * term)
  : bytes * term :=
  match er with
  | None => (enc_fut fringe (fst src) (snd src), snd src)
  | Some EOF => (Base64.Encode fringe, Some None)
  | Some e => ([], Some (Some e))
  end.

Definition t_fut (pc : tpc) (e : encoder) (src : bytes * term) : bytes * term :=
  match pc with
  | TRead => (enc_fut (e_buf e) (fst src) (snd src), snd src)
  | TWrite c cs fringe er =>
      let (x, t) := after_fut fringe er src in (c ++ concat cs ++ x, t)
  | TWriteWait _ cs fringe er =>
      let (x, t) := after_fut fringe er src in (concat cs ++ x, t)
  | TCopyRet None | TEncClose false => (Base64.Encode (e_buf e), Some None)
  | TCopyRet (Some err) => ([], Some (Some err))
  | TEncCloseWait _ false => ([], Some None)
  | TEncClosed err false => ([], Some err)
  | _ => ([], None)
  end.

(** What the read end of [Encode]'s pipe will still deliver. *)
Definition body_fut (s : state) : bytes * term :=
  match p_werr (st_ip s) with
  | Some w => ([], norm (Some (Some w)))
  | None =>
      let (x, t) := t_fut (st_t s) (st_e s) (src_fut s) in
      (inflight (st_ip s) ++ x, norm t)
  end.

(** What the [io.MultiReader] will still deliver. *)
Fixpoint mr_fut (rs : list mreader) (body : bytes * term) : bytes * term :=
  match rs with
  | [] => ([], Some None)
  | RBuf b :: rs' => let (x, t) := mr_fut rs' body in (b ++ x, t)
  | RPipe :: rs' =>
      match snd body with
      | Some None => let (x, t) := mr_fut rs' ([], Some None) in (fst body ++ x, t)
      | t => (fst body, t)
      end
  end.

Definition c_after_fut (er : option error) (rs : list mreader)
    (body : bytes * term) : bytes * term :=
  match er with
  | None => mr_fut rs body
  | Some EOF => ([], Some None)
  | Some e => ([], Some (Some e))
  end.

(** What [Encode] will still write, and what it will return, if the
    destination accepts every write. *)
Definition c_fut (pc : cpc) (body : bytes * term) : bytes * term :=
  match pc with
  | CRead rs => mr_fut rs body
  | CWrite d er rs => let (x, t) := c_after_fut er rs body in (d ++ x, t)
  | _ => ([], None)
  end.

Definition running (s : state) : bool :=
  match st_c s with
  | CRead _ | CWrite _ _ _ => true
  | _ => false
  end.

(** The complete output and the result a state is heading for. *)
Definition plan (s : state) : bytes * term :=
  let (x, t) := c_fut (st_c s) (body_fut s) in (written s ++ x, t).

(** *** The destination's answers *)

(** The write of [d] after the writes [h] is accepted in full. *)
Definition write_ok (snk : sink) (h : list bytes) (d : bytes) : bool :=
  match snk h d with
  | (n, None) => n =? length d
  | (_, Some _) => false
  end.

(** The error [io.Copy] returns for a write that is not. *)
Definition write_err (snk : sink) (h : list bytes) (d : bytes) : error :=
  match snk h d with
  | (_, Some e) => e
  | (_, None) => ErrShortWrite
  end.

Fixpoint accepts_from (snk : sink) (h l : list bytes) : bool :=
  match l with
  | [] => true
  | d :: l' => write_ok snk h d && accepts_from snk (h ++ [d]) l'
  end.

(** Every write of the log [l] was accepted in full. *)
Definition accepts (snk : sink) (l : list bytes) : bool := accepts_from snk [] l.

(** A destination that accepts whatever it is given. *)
Definition reliable (snk : sink) : Prop := forall h d, snk h d = (length d, None).

(** *** Coherence of a state in which [Encode] is still copying *)

Definition coh_t (pc : tpc) (ip : pipe) : Prop :=
  match pc with
  | TRead | TCopyRet _ | TEncClose false | TEncClosed _ false =>
      p_wr ip = Free /\ p_werr ip = None
  | TWrite _ _ fringe _ => p_wr ip = Free /\ p_werr ip = None /\ length fringe < 3
  | TWriteWait _ _ fringe _ => p_wr ip <> Free /\ p_werr ip = None /\ length fringe < 3
  | TEncCloseWait _ false => p_wr ip <> Free /\ p_werr ip = None
  | TEncClose true | TEncCloseWait _ true | TEncClosed _ true | TDone =>
      p_wr ip = Free /\ p_werr ip <> None
  end.

Definition coh_u (u : upc) (op : pipe) : Prop :=
  match u with
  | UIdle => p_wr op = Free
  | UWriteWait _ => p_werr op = None
  | UCloseWait => p_wr op = Free /\ p_werr op <> None
  end.

Definition coh (s : state) : Prop :=
  p_rerr (st_ip s) = None /\
  p_rerr (st_op s) = None /\
  (p_werr (st_op s) = None \/ p_werr (st_op s) = Some EOF) /\
  length (e_buf (st_e s)) < 3 /\
  (p_werr (st_ip s) = None -> e_err (st_e s) = None) /\
  coh_t (st_t s) (st_ip s) /\
  coh_u (st_u s) (st_op s).

(** What [Encode] returned, also after the goroutine of [Writer] has
    moved on. *)
Definition result_of (pc : cpc) : option (option error) :=
  match pc with
  | CRet r | BDefer r | BDone r => Some r
  | _ => None
  end.

(** [Encode] has come to its end with the log [out] and the result [r],
    heading for [P]: either every write was accepted and [P] is what
    happened, or the last write was refused, its error is the result, and
    what was handed to the destination is the beginning of [P]. *)
Definition finished (snk : sink) (P : bytes * term) (out : list bytes)
    (r : option error) : Prop :=
  (accepts snk out = true /\ P = (concat out, Some r)) \/
  (exists pre d, out = pre ++ [d] /\ accepts snk pre = true /\
     write_ok snk pre d = false /\ r = Some (write_err snk pre d) /\
     exists rest, concat out ++ rest = fst P).

Definition Inv (enc : Encoder) (P : bytes * term) (s : state) : Prop :=
  if running s then
    coh s /\ accepts (enc_out enc) (st_out s) = true /\ plan s = P
  else
    exists r, result_of (st_c s) = Some r /\ finished (enc_out enc) P (st_out s) r.

(** The bytes of the source and how it ends, as a reader of it sees them
    in one read. *)
Definition read_fut (d : bytes) (er : option error) (src : bytes * term)
  : bytes * term :=
  match er with
  | None => (d ++ fst src, snd src)
  | Some EOF => (d, Some None)
  | Some e => (d, Some (Some e))
  end.

(** *** The handle returned by [Writer] *)

(** What holds of the handle in every state of [Writer]: a [Close] that
    returned did so with nil and after [w.done] was closed; [w.done] is
    closed only by the goroutine of [Writer] as its last action; the read
    end carries the error [Encode] returned; and once [Close] has closed
    the write end it stays closed. *)
Definition handle_inv (s : state) : Prop :=
  (forall r, In (RClose r) (st_res s) -> r = None /\ st_dn s = true) /\
  (st_dn s = true -> exists r, st_c s = BDone r) /\
  p_rerr (st_op s) = match st_c s with
                     | BDefer r | BDone r => r
                     | _ => None
                     end /\
  (st_u s = UCloseWait \/ (exists r, In (RClose r) (st_res s)) ->
   p_werr (st_op s) <> None) /\
  (st_u s = UIdle \/ st_ops s <> []).

(** *** The reads of the source *)

Definition no_err (r : read_result) : bool :=
  match snd r with
  | None => true
  | Some _ => false
  end.

(** The transcode goroutine may still come back to [r.Read]. *)
Definition can_read (pc : tpc) : bool :=
  match pc with
  | TRead | TWrite _ _ _ None | TWriteWait _ _ _ None => true
  | _ => false
  end.

(** Of the script [rs0], [k] reads have been made; none but the last
    returned an error, and the last neither if the goroutine may read
    again. *)
Definition reads_inv (rs0 : list read_result) (s : state) : Prop :=
  exists k,
    st_rd s = ScriptReader (skipn k rs0) /\
    forallb no_err (removelast (firstn k rs0)) = true /\
    (can_read (st_t s) = true -> forallb no_err (firstn k rs0) = true).

(** *** How far a call of [Encode] is from its end

    A bound on the steps the goroutines of [Encode] can still take when
    the source is a caller's reader. *)

Definition chunk_cost (cs : list bytes) : nat :=
  fold_right (fun c n => 2 * length c + 4 + n) 0 cs.

Definition flush_cost (buf : bytes) : nat := 2 * length (Base64.Encode buf) + 8.

Definition after_cost (cost : bytes -> nat) (fringe : bytes) (er : option error) : nat :=
  match er with
  | None => cost fringe
  | Some EOF => flush_cost fringe
  | Some _ => 3
  end.

Fixpoint script_cost (rs : list read_result) (buf : bytes) : nat :=
  match rs with
  | [] => S (flush_cost buf)
  | (d, er) :: rs' =>
      let (cs, fringe) := match d with
                          | [] => ([], buf)
                          | _ :: _ => enc_chunks buf d
                          end in
      S (chunk_cost cs + after_cost (script_cost rs') fringe er)
  end.

Definition t_cost (pc : tpc) (e : encoder) (rs : list read_result) : nat :=
  match pc with
  | TRead => script_cost rs (e_buf e)
  | TWrite c cs fringe er =>
      2 * length c + 4 + chunk_cost cs + after_cost (script_cost rs) fringe er
  | TWriteWait _ cs fringe er => 1 + chunk_cost cs + after_cost (script_cost rs) fringe er
  | TCopyRet None => flush_cost (e_buf e)
  | TCopyRet (Some _) => 3
  | TEncClose false => flush_cost (e_buf e) - 1
  | TEncCloseWait _ false => 4
  | TEncClosed _ false => 3
  | TEncClose true | TEncCloseWait _ true => 2
  | TEncClosed _ true => 1
  | TDone => 0
  end.

Definition pipe_cost (p : pipe) : nat :=
  match p_wr p with
  | Offered b => 2 * length b + 2
  | _ => 0
  end.

Fixpoint mr_cost (rs : list mreader) : nat :=
  match rs with
  | [] => 3
  | RBuf b :: rs' => 2 * length b + 1 + mr_cost rs'
  | RPipe :: rs' => 1 + mr_cost rs'
  end.

Definition c_cost (pc : cpc) : nat :=
  match pc with
  | CRead rs => mr_cost rs
  | CWrite _ None rs => 1 + mr_cost rs
  | CWrite _ (Some _) _ => 3
  | CRet _ => 2
  | BDefer _ => 1
  | BDone _ => 0
  end.

(** The calls still to be made on the handle, when none of them is a
    [Write]. *)
Definition u_cost (ops : list uop) (u : upc) : nat :=
  2 * length ops - match u with UIdle => 0 | _ => 1 end.

Definition cost (s : state) : nat :=
  c_cost (st_c s) + pipe_cost (st_ip s)
  + t_cost (st_t s) (st_e s) (match st_rd s with ScriptReader rs => rs | PipeReader => [] end)
  + u_cost (st_ops s) (st_u s).

Definition is_close (o : uop) : bool :=
  match o with
  | UClose => true
  | UWrite _ => false
  end.

(** * Notions used by the statements *)

Definition six (val sh : N) : N := N.land (N.shiftr val sh) 63.

(** The alphabet has 64 distinct characters, none of them the padding. *)
Definition sextets : list N := map N.of_nat (seq 0 64).

Definition frame (enc : Encoder) (tmux : bool) (data : bytes) (t : term) : bytes * term :=
  match t with
  | Some None =>
      (header tmux (enc_options enc) ++ Base64.Encode data ++ footerEscape tmux, Some None)
  | _ => (header tmux (enc_options enc) ++ groups data, t)
  end.

Definition is_script (s : state) : Prop := exists rs, st_rd s = ScriptReader rs.

Definition direct_inv (T0 : term) (s : state) : Prop :=
  coh s /\ is_script s /\ snd (body_fut s) = T0.

Definition script_of (rd : reader) : list read_result :=
  match rd with
  | ScriptReader rs => rs
  | PipeReader => []
  end.

(** No [Write] is in progress on the handle. *)
Definition quiet (s : state) : Prop :=
  match st_rd s with
  | ScriptReader _ => True
  | PipeReader => p_wr (st_op s) = Free
  end.

(** The state of the goroutine of [Writer] agrees with [w.done], and with
    a destination that accepts everything [Encode] returns nil to it. *)
Definition bg (s : state) : Prop :=
  match st_c s with
  | CRead _ | CWrite _ _ _ => st_dn s = false
  | CRet r => st_dn s = false /\ (st_rd s = PipeReader -> r = None)
  | BDefer r => st_dn s = false /\ r = None /\ st_rd s = PipeReader
  | BDone r => st_dn s = true /\ r = None /\ st_rd s = PipeReader
  end.

(** The states of a call of [Encode] on a caller's reader, or of a handle
    on which only [Close] is called. *)
Definition live (enc : Encoder) (P : bytes * term) (s : state) : Prop :=
  coh s /\ quiet s /\ forallb is_close (st_ops s) = true /\
  (forall n, st_u s <> UWriteWait n) /\
  (st_rd s = PipeReader -> p_werr (st_op s) = None -> st_u s = UIdle /\ st_ops s <> []) /\
  bg s /\
  (st_rd s = PipeReader -> reliable (enc_out enc) /\ snd P = Some None).

(** Nothing is left to do: [Encode] has returned to its caller, or every
    call on the handle has returned. *)
Definition settled (s : state) : bool :=
  match st_rd s with
  | ScriptReader _ => negb (running s)
  | PipeReader => match st_ops s with [] => true | _ :: _ => false end
  end.

Definition round (enc : Encoder) (s : state) : state :=
  step' enc Caller (step' enc Transcode (step' enc Main s)).

(** [Encode] was called by the holder of a reader: it is not the goroutine
    of [Writer]. *)
Definition direct (s : state) : Prop :=
  is_script s /\ match st_c s with BDefer _ | BDone _ => False | _ => True end.

(** On a handle on which only [Close] is called, out of [n] calls: the
    results so far are those of the calls made. *)
Definition closes_inv (n : nat) (s : state) : Prop :=
  forallb is_close (st_ops s) = true /\
  (forall k, st_u s <> UWriteWait k) /\
  length (st_ops s) <= n /\
  st_res s = repeat (RClose None) (n - length (st_ops s)).

(** The bytes a reader delivers before its end, and how it ends. *)
Definition input (rs : list read_result) : bytes := fst (script_fut rs).

Definition ending (rs : list read_result) : term := snd (script_fut rs).

(** The body [Encode] sends for a reader: the encoding of its bytes,
    without the final partial group when the reader fails. *)
Definition body (rs : list read_result) : bytes := enc_fut [] (input rs) (ending rs).

(** A destination that takes everything, and one that is closed after
    [k] writes. *)
Definition discard : sink := fun _ d => (length d, None).

Definition closed_after (k : nat) : sink :=
  fun h d => if length h <? k then (length d, None) else (0, Some (Err "closed")).

(** A fair schedule of [n] rounds. *)
Definition rounds (n : nat) : list tid := concat (repeat [Main; Transcode; Caller] n).

(** The example of the wire format. *)
Definition example_options : list Option :=
  [Width (Cells 80); Height (Cells 24); Inline true].

(** The reading of [Close] under which it hands the result of [Encode] to
    its caller. *)
Definition Close_returns_result_of_Encode : Prop :=
  forall (enc : Encoder) (tmux : bool) (ops : list uop) (sched : list tid)
         (r e : option error),
    In (RClose r) (st_res (exec enc sched (Writer enc tmux ops))) ->
    result_of (st_c (exec enc sched (Writer enc tmux ops))) = Some e ->
    r = e.

(** A handle on a destination that is closed after the header: six bytes
    are written to it twice and it is closed. *)
Definition broken_pipe_run : state :=
  exec (mkEnc (closed_after 1) []) (rounds 30)
    (Writer (mkEnc (closed_after 1) []) false
       [UWrite (bytes_of "ABCDEF"); UWrite (bytes_of "ABCDEF"); UClose]).

(** ** The environment (imgcat.go, lines 94-120 and 138-147) *)

(** [os.Getenv]: the value of a variable, empty when it is not set. *)
Definition environ : Type := string -> string.

(** The default value of the variable [isSupported]. *)
Definition isSupported (getenv : environ) : bool :=
  String.eqb (getenv "TERM_PROGRAM"%string) "iTerm.app".

Definition IsSupported (getenv : environ) : bool := isSupported getenv.

(** The default value of the variable [isTmux]. *)
Definition isTmux (getenv : environ) : bool :=
  if String.eqb (getenv "TMUX_TEST"%string) "false" then false
  else if String.eqb (getenv "TMUX_TEST"%string) "true" then true
  else String.eqb (getenv "TERM"%string) "screen"
       || (0 <? String.length (getenv "TMUX"%string)).

Definition IsTmux (getenv : environ) : bool := isTmux getenv.

Module imgcat.

(** [NewEncoder]: the pair of results, of which one is nil. *)
Definition NewEncoder (getenv : environ) (w : sink) (options : list Option)
  : option Encoder * option error :=
  if negb (IsSupported getenv) then
    (None, Some (Err "imgcat is only supported with iTerm2"))
  else (Some (mkEnc w options), None).

End imgcat.

(** An environment given by the variables that are set. *)
Fixpoint env_of (vars : list (string * string)) : environ :=
  fun key =>
    match vars with
    | [] => EmptyString
    | (k, v) :: vars' => if String.eqb k key then v else env_of vars' key
    end.

(** ** Characters of an option *)

(** The characters that structure the header: [;] between options and [:]
    after the last. *)
Definition is_delim (c : ascii) : bool := Ascii.eqb c ";" || Ascii.eqb c ":".

Fixpoint has_delim (s : string) : bool :=
  match s with
  | EmptyString => false
  | String c s' => is_delim c || has_delim s'
  end.

(** A character of a base64 text: one of the alphabet, or the padding. *)
Definition b64_char (c : byte) : bool :=
  existsb (Byte.eqb c) (Base64.StdPadding :: Base64.encodeStd).

(** A character of a decimal number. *)
Definition is_numeric (c : ascii) : bool :=
  Ascii.eqb c "-" || ((48 <=? nat_of_ascii c) && (nat_of_ascii c <=? 57)).

Fixpoint all_numeric (s : string) : bool :=
  match s with
  | EmptyString => true
  | String c s' => is_numeric c && all_numeric s'
  end.

(** A destination that takes at most [k] bytes of a write and reports no
    error. *)
Definition truncating (k : nat) : sink := fun _ d => (Nat.min k (length d), None).

(** A schedule that favours the transcode goroutine. *)
Definition eager (n : nat) : list tid :=
  concat (repeat [Transcode; Transcode; Main; Caller] n).

(** The loop of [Encode] over [enc.options] as it is written: at index
    [i] the option is appended to the header, and a [;] when
    [i < len(enc.options)-1]. *)
Fixpoint options_loop (len i : nat) (options : list Option) (header : bytes) : bytes :=
  match options with
  | [] => header
  | option :: rest =>
      let header := header ++ bytes_of option in
      let header := if i <? len - 1 then header ++ bytes_of ";" else header in
      options_loop len (S i) rest header
  end.

(** What a call on the handle may return: a [Write] never reports more
    bytes than it was given, and all of them when it reports no error; a
    [Close] returns nil. *)
Definition answers (o : uop) (r : ures) : Prop :=
  match o, r with
  | UWrite p, RWrite n err => n <= length p /\ (err = None -> n = length p)
  | UClose, RClose err => err = None
  | _, _ => False
  end.

(** Of the calls [ops0], those in [made] have returned, in this order,
    what [st_res] holds; the others are still to be made or in progress, and
    a call in progress is the first of them. *)
Definition calls_inv (ops0 : list uop) (s : state) : Prop :=
  (exists made, ops0 = made ++ st_ops s /\ Forall2 answers made (st_res s)) /\
  match st_u s with
  | UIdle => True
  | UWriteWait total => exists p rest, st_ops s = UWrite p :: rest /\ total = length p
  | UCloseWait => exists rest, st_ops s = UClose :: rest
  end.

(** The write end of the pipe of [Writer] is closed by [Close] only. *)
Definition closed_by_Close (s : state) : Prop :=
  p_werr (st_op s) <> None ->
  st_u s = UCloseWait \/ exists r, In (RClose r) (st_res s).

(** ** A handle on which slices are written

    The notions for the termination of a handle from [Writer] on which
    [Write] is called: a bound on the steps still to come, and what holds
    of every state on a destination that accepts everything. *)

(** The calls the holder of the handle has not begun. *)
Definition pend (s : state) : list uop :=
  match st_u s with
  | UIdle => st_ops s
  | _ => tl (st_ops s)
  end.

(** A bound on the steps the transcode goroutine takes for the slices
    still to be written. *)
Fixpoint ops_cost (ops : list uop) : nat :=
  match ops with
  | [] => 0
  | UWrite p :: ops' => 64 * length p + 1 + ops_cost ops'
  | UClose :: ops' => ops_cost ops'
  end.

Definition src_cost (s : state) : nat :=
  match p_wr (st_op s) with
  | Offered b => 64 * length b + 1
  | _ => 0
  end + ops_cost (pend s).

Definition wt_cost (k : nat) (pc : tpc) (e : encoder) : nat :=
  t_cost pc e [] + if can_read pc then k else 0.

Definition wcost (s : state) : nat :=
  c_cost (st_c s) + pipe_cost (st_ip s) + wt_cost (src_cost s) (st_t s) (st_e s)
  + u_cost (st_ops s) (st_u s).

Definition is_pipe (r : mreader) : bool :=
  match r with
  | RPipe => true
  | RBuf _ => false
  end.

(** [Encode] has not yet seen the end of its pipe. *)
Definition c_reads_pipe (pc : cpc) : bool :=
  match pc with
  | CRead rs | CWrite _ None rs => existsb is_pipe rs
  | _ => false
  end.

(** No [Write] follows a [Close]. *)
Fixpoint closes_follow (ops : list uop) : Prop :=
  match ops with
  | [] => True
  | UWrite _ :: ops' => closes_follow ops'
  | UClose :: ops' => forallb is_close ops' = true
  end.

Definition res_ok (r : ures) : Prop :=
  match r with
  | RWrite _ err | RClose err => err = None
  end.

(** What a call returns when nothing fails. *)
Definition expected (o : uop) : ures :=
  match o with
  | UWrite p => RWrite (length p) None
  | UClose => RClose None
  end.

(** The states of a handle on a destination that accepts everything, when
    the calls end with [Close]. *)
Definition wlive (enc : Encoder) (P : bytes * term) (s : state) : Prop :=
  coh s /\ st_rd s = PipeReader /\ bg s /\
  reliable (enc_out enc) /\ snd P = Some None /\
  (can_read (st_t s) = false -> p_werr (st_op s) <> None) /\
  (c_reads_pipe (st_c s) = false -> p_werr (st_ip s) <> None) /\
  (forall n, st_u s = UWriteWait n -> p_wr (st_op s) <> Free) /\
  closes_follow (st_ops s) /\
  (p_werr (st_op s) <> None -> forallb is_close (st_ops s) = true) /\
  Forall res_ok (st_res s).

(** Reading the options back from what follows the introducer of a
    header: the fields between [;] up to the first [:], and what comes
    after that [:]. *)
Fixpoint read_options (s : bytes) : list bytes * bytes :=
  match s with
  | [] => ([[]], [])
  | c :: s' =>
      if Byte.eqb c ":" then ([[]], s')
      else
        let (fs, rest) := read_options s' in
        if Byte.eqb c ";" then ([] :: fs, rest)
        else
          match fs with
          | f :: fs' => ((c :: f) :: fs', rest)
          | [] => ([[c]], rest)
          end
  end.

(** [Encode] goes past its pipe only once the pipe has been closed, as
    long as the destination has accepted every write. *)
Definition closed_behind (enc : Encoder) (s : state) : Prop :=
  c_reads_pipe (st_c s) = false -> accepts (enc_out enc) (st_out s) = true ->
  p_werr (st_ip s) <> None.

(** The reading of the claim under which the close of the pipe decides
    what [Encode] returns, whatever the destination does: whenever [Encode]
    has returned, its pipe has been closed with the terminal state of the
    source, and that state is what [Encode] returned. *)
Definition pipe_close_decides_Encode : Prop :=
  forall (enc : Encoder) (tmux : bool) (rs : list read_result) (sched : list tid)
         (r : option error),
    returned (exec enc sched (Encode enc tmux rs)) = Some r ->
    exists w,
      p_werr (st_ip (exec enc sched (Encode enc tmux rs))) = Some w /\
      norm (Some (Some w)) = ending rs /\
      Some r = ending rs.

(** A destination that refuses its first write, with a source of three
    bytes that has not ended, and with a source whose first read fails. *)
Definition unread_run : state :=
  exec (mkEnc (closed_after 0) []) (rounds 4)
    (Encode (mkEnc (closed_after 0) []) false [(bytes_of "ABC", None)]).

Definition misread_run : state :=
  exec (mkEnc (closed_after 0) []) (rounds 4)
    (Encode (mkEnc (closed_after 0) []) false [([], Some (Err "reset"))]).

(** * Properties *)

Module Base64Facts.
Import Base64.
Local Open Scope N_scope.
Local Ltac Zify.zify_post_hook ::= Z.to_euclidean_division_equations.

Lemma land_shiftl_low a k b : b < 2 ^ k -> N.land (N.shiftl a k) b = 0.
Proof.
  intros Hb. apply N.bits_inj_0. intros n. rewrite N.land_spec.
  destruct (N.lt_ge_cases n k) as [Hn | Hn].
  - now rewrite N.shiftl_spec_low.
  - rewrite <- (N.mod_small b (2 ^ k)) by assumption.
    rewrite N.mod_pow2_bits_high by assumption. apply andb_false_r.
Qed.

Lemma lor_shiftl_add a k b : b < 2 ^ k -> N.lor (N.shiftl a k) b = a * 2 ^ k + b.
Proof.
  intros Hb. rewrite <- N.lxor_lor, <- N.add_nocarry_lxor by now apply land_shiftl_low.
  now rewrite N.shiftl_mul_pow2.
Qed.

Lemma land_63 x : N.land x 63 = x mod 64.
Proof. change 63 with (N.ones 6). now rewrite N.land_ones. Qed.

Lemma land_255 x : N.land x 255 = x mod 256.
Proof. change 255 with (N.ones 8). now rewrite N.land_ones. Qed.

Lemma quantum_arith a b c :
  a < 256 -> b < 256 -> c < 256 -> quantum a b c = a * 65536 + b * 256 + c.
Proof.
  intros Ha Hb Hc. unfold quantum.
  rewrite (lor_shiftl_add a 16 (N.shiftl b 8)).
  - rewrite N.shiftl_mul_pow2.
    replace (a * 2 ^ 16 + b * 2 ^ 8) with ((a * 256 + b) * 2 ^ 8) by (simpl; lia).
    rewrite <- N.shiftl_mul_pow2, lor_shiftl_add by (simpl; lia). simpl. lia.
  - rewrite N.shiftl_mul_pow2. simpl. lia.
Qed.

Lemma quad_arith v0 v1 v2 v3 :
  v0 < 64 -> v1 < 64 -> v2 < 64 -> v3 < 64 ->
  quad v0 v1 v2 v3 = v0 * 262144 + v1 * 4096 + v2 * 64 + v3.
Proof.
  intros H0 H1 H2 H3. unfold quad.
  rewrite (lor_shiftl_add v0 18 (N.shiftl v1 12)) by (rewrite N.shiftl_mul_pow2; simpl; lia).
  rewrite N.shiftl_mul_pow2.
  replace (v0 * 2 ^ 18 + v1 * 2 ^ 12) with ((v0 * 64 + v1) * 2 ^ 12) by (simpl; lia).
  rewrite <- (N.shiftl_mul_pow2 _ 12).
  rewrite (lor_shiftl_add _ 12 (N.shiftl v2 6)) by (rewrite N.shiftl_mul_pow2; simpl; lia).
  rewrite N.shiftl_mul_pow2.
  replace ((v0 * 64 + v1) * 2 ^ 12 + v2 * 2 ^ 6) with (((v0 * 64 + v1) * 64 + v2) * 2 ^ 6)
    by (simpl; lia).
  rewrite <- (N.shiftl_mul_pow2 _ 6), lor_shiftl_add by (simpl; lia). simpl. lia.
Qed.

Lemma six_lt val sh : six val sh < 64.
Proof. unfold six. rewrite land_63. apply N.mod_lt. discriminate. Qed.

Lemma six_arith val sh : six val sh = (val / 2 ^ sh) mod 64.
Proof. unfold six. now rewrite land_63, N.shiftr_div_pow2. Qed.

Lemma quad_six val :
  val < 16777216 -> quad (six val 18) (six val 12) (six val 6) (six val 0) = val.
Proof.
  intros Hv. rewrite quad_arith by apply six_lt.
  rewrite !six_arith. change (2 ^ 18) with 262144. change (2 ^ 12) with 4096.
  change (2 ^ 6) with 64. change (2 ^ 0) with 1. rewrite N.div_1_r.
  lia.
Qed.

Lemma byte_at_quantum a b c :
  a < 256 -> b < 256 -> c < 256 ->
  N.land (N.shiftr (quantum a b c) 16) 255 = a /\
  N.land (N.shiftr (quantum a b c) 8) 255 = b /\
  N.land (N.shiftr (quantum a b c) 0) 255 = c.
Proof.
  intros Ha Hb Hc. rewrite quantum_arith by assumption.
  rewrite !land_255, !N.shiftr_div_pow2.
  change (2 ^ 16) with 65536. change (2 ^ 8) with 256. change (2 ^ 0) with 1.
  rewrite N.div_1_r. lia.
Qed.

Lemma quantum_lt a b c : a < 256 -> b < 256 -> c < 256 -> quantum a b c < 16777216.
Proof. intros. rewrite quantum_arith by assumption. lia. Qed.

Lemma six_low_0 a b : a < 256 -> b < 256 -> six (quantum a b 0) 0 = 0.
Proof.
  intros. rewrite six_arith, quantum_arith by lia.
  change (2 ^ 0) with 1. rewrite N.div_1_r. lia.
Qed.

Lemma six_mid_0 a : a < 256 -> six (quantum a 0 0) 6 = 0.
Proof.
  intros. rewrite six_arith, quantum_arith by lia. change (2 ^ 6) with 64. lia.
Qed.

Lemma to_N_lt (x : byte) : Byte.to_N x < 256.
Proof. pose proof (Byte.to_N_bounded x). lia. Qed.

Lemma sextets_complete v : v < 64 -> In v sextets.
Proof.
  intros Hv. apply in_map_iff. exists (N.to_nat v). split; [lia | apply in_seq; lia].
Qed.

Lemma decode_encode_char v : v < 64 -> decode_char (encode_char v) = Some v.
Proof.
  assert (H : forallb (fun v => match decode_char (encode_char v) with
                                | Some w => N.eqb w v
                                | None => false
                                end) sextets = true) by (vm_compute; reflexivity).
  rewrite forallb_forall in H. intros Hv. specialize (H v (sextets_complete v Hv)).
  destruct (decode_char (encode_char v)); [| discriminate].
  apply N.eqb_eq in H. congruence.
Qed.

Lemma encode_char_not_pad v : v < 64 -> Byte.eqb (encode_char v) StdPadding = false.
Proof.
  assert (H : forallb (fun v => negb (Byte.eqb (encode_char v) StdPadding)) sextets = true)
    by (vm_compute; reflexivity).
  rewrite forallb_forall in H. intros Hv. specialize (H v (sextets_complete v Hv)).
  now apply negb_true_iff in H.
Qed.

Lemma sextet_six val sh : sextet val sh = encode_char (six val sh).
Proof. reflexivity. Qed.

Lemma list_ind3 (P : bytes -> Prop) :
  P [] -> (forall a, P [a]) -> (forall a b, P [a; b]) ->
  (forall a b c l, P l -> P (a :: b :: c :: l)) -> forall l, P l.
Proof.
  intros H0 H1 H2 H3. fix IH 1.
  intros [| a [| b [| c l]]];
    [exact H0 | exact (H1 a) | exact (H2 a b) | exact (H3 a b c l (IH l))].
Qed.

Lemma Decode_group v0 v1 v2 v3 rest :
  v0 < 64 -> v1 < 64 -> v2 < 64 -> v3 < 64 ->
  Decode (encode_char v0 :: encode_char v1 :: encode_char v2 :: encode_char v3 :: rest) =
  let val := quad v0 v1 v2 v3 in
  cons_opt (byte_at val 16) (cons_opt (byte_at val 8) (cons_opt (byte_at val 0) (Decode rest))).
Proof.
  intros H0 H1 H2 H3. cbn [Decode].
  rewrite !decode_encode_char, encode_char_not_pad by assumption. reflexivity.
Qed.

Lemma Decode_pad1 v0 v1 v2 :
  v0 < 64 -> v1 < 64 -> v2 < 64 ->
  Decode [encode_char v0; encode_char v1; encode_char v2; StdPadding] =
  let val := quad v0 v1 v2 0 in
  cons_opt (byte_at val 16) (cons_opt (byte_at val 8) (Some [])).
Proof.
  intros H0 H1 H2. cbn [Decode].
  rewrite !decode_encode_char, encode_char_not_pad by assumption. reflexivity.
Qed.

Lemma Decode_pad2 v0 v1 :
  v0 < 64 -> v1 < 64 ->
  Decode [encode_char v0; encode_char v1; StdPadding; StdPadding] =
  cons_opt (byte_at (quad v0 v1 0 0) 16) (Some []).
Proof.
  intros H0 H1. cbn [Decode]. rewrite !decode_encode_char by assumption. reflexivity.
Qed.

Lemma byte_at_to_N (x : byte) val sh :
  N.land (N.shiftr val sh) 255 = Byte.to_N x -> byte_at val sh = Some x.
Proof. unfold byte_at. intros ->. apply Byte.of_to_N. Qed.

(** Round trip: decoding an encoding gives the bytes back. *)
Lemma Decode_Encode l : Decode (Encode l) = Some l.
Proof.
  induction l as [| a | a b | a b c l IH] using list_ind3.
  - reflexivity.
  - pose proof (to_N_lt a) as Ha. cbn [Encode]. rewrite !sextet_six.
    rewrite Decode_pad2 by apply six_lt.
    set (val := quantum (Byte.to_N a) 0 0).
    replace (quad (six val 18) (six val 12) 0 0) with val.
    2:{ rewrite <- (quad_six val) at 1 by (apply quantum_lt; lia).
        unfold val. now rewrite (six_mid_0 _ Ha), (six_low_0 _ 0 Ha) by lia. }
    unfold val.
    destruct (byte_at_quantum (Byte.to_N a) 0 0) as (E & _); try lia.
    now rewrite (byte_at_to_N _ _ _ E).
  - pose proof (to_N_lt a) as Ha. pose proof (to_N_lt b) as Hb.
    cbn [Encode]. rewrite !sextet_six.
    rewrite Decode_pad1 by apply six_lt. cbv zeta.
    set (val := quantum (Byte.to_N a) (Byte.to_N b) 0).
    replace (quad (six val 18) (six val 12) (six val 6) 0) with val.
    2:{ rewrite <- (quad_six val) at 1 by (apply quantum_lt; lia).
        unfold val. now rewrite (six_low_0 _ _ Ha Hb). }
    unfold val.
    destruct (byte_at_quantum (Byte.to_N a) (Byte.to_N b) 0) as (Ea & Eb & _); try lia.
    now rewrite (byte_at_to_N _ _ _ Ea), (byte_at_to_N _ _ _ Eb).
  - pose proof (to_N_lt a) as Ha. pose proof (to_N_lt b) as Hb.
    pose proof (to_N_lt c) as Hc.
    cbn [Encode]. rewrite !sextet_six.
    rewrite Decode_group by apply six_lt. cbv zeta.
    rewrite quad_six by (apply quantum_lt; lia).
    destruct (byte_at_quantum (Byte.to_N a) (Byte.to_N b) (Byte.to_N c))
      as (Ea & Eb & Ec); try lia.
    rewrite (byte_at_to_N _ _ _ Ea), (byte_at_to_N _ _ _ Eb), (byte_at_to_N _ _ _ Ec), IH.
    reflexivity.
Qed.

Local Close Scope N_scope.

(** Encoding distributes over a split at a multiple of three bytes. *)
Lemma Encode_app a b :
  length a mod 3 = 0 -> Encode (a ++ b) = Encode a ++ Encode b.
Proof.
  induction a as [| x | x y | x y z l IH] using list_ind3; intros Hlen.
  - reflexivity.
  - discriminate.
  - discriminate.
  - cbn [app Encode]. rewrite IH; [reflexivity |].
    cbn [length] in Hlen.
    replace (S (S (S (length l)))) with (length l + 1 * 3) in Hlen by lia.
    now rewrite Nat.Div0.mod_add in Hlen.
Qed.
End Base64Facts.

Import Base64Facts.

Lemma nn_facts (n : nat) :
  3 <= n ->
  let nn := if n <? 768 then n - n mod 3 else 768 in
  nn mod 3 = 0 /\ 3 <= nn <= n.
Proof.
  intros Hn. cbv zeta. destruct (n <? 768) eqn:E.
  - apply Nat.ltb_lt in E. pose proof (Nat.mod_upper_bound n 3 ltac:(lia)).
    pose proof (Nat.div_mod_eq n 3). split; [| lia].
    replace (n - n mod 3) with (0 + (n / 3) * 3) by lia.
    now rewrite Nat.Div0.mod_add.
  - apply Nat.ltb_ge in E. split; [reflexivity | lia].
Qed.

Lemma mod3_add a b : a mod 3 = 0 -> b mod 3 = 0 -> (a + b) mod 3 = 0.
Proof. intros Ha Hb. now rewrite Nat.Div0.add_mod, Ha, Hb. Qed.

(** What the interior loop hands on is the encoding of a prefix of whole
    groups; fewer than three bytes are left over. *)
Lemma interior_split fuel : forall p,
  length p <= fuel ->
  exists c0, p = c0 ++ snd (interior fuel p) /\ length c0 mod 3 = 0 /\
             concat (fst (interior fuel p)) = Base64.Encode c0 /\
             length (snd (interior fuel p)) < 3.
Proof.
  induction fuel as [| fuel IH]; intros p Hlen.
  - destruct p; [| simpl in Hlen; lia]. exists []. simpl. repeat split; lia.
  - cbn [interior]. destruct (3 <=? length p) eqn:E.
    + apply Nat.leb_le in E.
      destruct (nn_facts (length p) E) as (Hmod & Hlo & Hhi).
      set (nn := if length p <? 768 then length p - length p mod 3 else 768) in *.
      destruct (IH (skipn nn p)) as (c1 & Hsplit & Hc1 & Hcat & Hfr).
      { rewrite length_skipn. lia. }
      destruct (interior fuel (skipn nn p)) as [cs fr]. cbn [fst snd concat] in *.
      exists (firstn nn p ++ c1). repeat split.
      * rewrite <- app_assoc, <- Hsplit. symmetry. apply firstn_skipn.
      * rewrite length_app, length_firstn, Nat.min_l by lia. now apply mod3_add.
      * rewrite Hcat. symmetry. apply Encode_app.
        now rewrite length_firstn, Nat.min_l by lia.
      * assumption.
    + apply Nat.leb_gt in E. exists []. cbn [fst snd concat app]. repeat split; lia.
Qed.

Lemma enc_chunks_split buf p :
  length buf < 3 ->
  exists c0, buf ++ p = c0 ++ snd (enc_chunks buf p) /\ length c0 mod 3 = 0 /\
             concat (fst (enc_chunks buf p)) = Base64.Encode c0 /\
             length (snd (enc_chunks buf p)) < 3.
Proof.
  intros Hbuf. unfold enc_chunks. destruct buf as [| x buf'].
  - cbn [app]. apply interior_split. lia.
  - set (buf := x :: buf') in *.
    set (i := Nat.min (3 - length buf) (length p)).
    destruct (length (buf ++ firstn i p) <? 3) eqn:E.
    + apply Nat.ltb_lt in E. cbn [fst snd concat].
      exists []. rewrite length_app, length_firstn in E.
      assert (Hi : length p <= i) by (unfold i in *; lia).
      rewrite firstn_all2 by assumption. cbn [app length]. repeat split.
      rewrite length_app. unfold i in *. lia.
    + apply Nat.ltb_ge in E. rewrite length_app, length_firstn in E.
      assert (Hlen : length (buf ++ firstn i p) = 3).
      { rewrite length_app, length_firstn. unfold i in *. lia. }
      destruct (interior_split (length p) (skipn i p)) as (c1 & Hsplit & Hc1 & Hcat & Hfr).
      { rewrite length_skipn. lia. }
      destruct (interior (length p) (skipn i p)) as [cs fr]. cbn [fst snd concat] in *.
      exists ((buf ++ firstn i p) ++ c1). repeat split.
      * rewrite <- !app_assoc, <- Hsplit. now rewrite firstn_skipn.
      * rewrite length_app, Hlen. now apply (mod3_add 3).
      * rewrite Hcat. symmetry. apply Encode_app. now rewrite Hlen.
      * assumption.
Qed.

Lemma enc_chunks_spec buf p q :
  length buf < 3 ->
  concat (fst (enc_chunks buf p)) ++ Base64.Encode (snd (enc_chunks buf p) ++ q)
    = Base64.Encode (buf ++ p ++ q)
  /\ length (snd (enc_chunks buf p)) < 3.
Proof.
  intros Hbuf. destruct (enc_chunks_split buf p Hbuf) as (c0 & Hsplit & Hc0 & Hcat & Hfr).
  split; [| assumption].
  rewrite Hcat, <- Encode_app by assumption.
  now rewrite app_assoc, <- Hsplit, <- app_assoc.
Qed.

Lemma write_all_concat b cs : write_all b cs = (b ++ concat cs, None).
Proof.
  revert b. induction cs as [| c cs IH]; intros b; cbn [write_all concat Buffer_Write].
  - now rewrite app_nil_r.
  - now rewrite IH, app_assoc.
Qed.

Lemma Encode_nil_iff l : Base64.Encode l = [] -> l = [].
Proof. destruct l as [| a [| b [| c l]]]; cbn [Base64.Encode]; congruence. Qed.

Lemma copy_buf_pos : 0 < copy_buf.
Proof. unfold copy_buf. lia. Qed.

Local Opaque copy_buf.
Arguments Base64.Encode : simpl never.

Lemma groups_short l : length l < 3 -> groups l = [].
Proof.
  intros H. unfold groups. rewrite Nat.mod_small by assumption.
  now rewrite Nat.sub_diag.
Qed.

Lemma groups_app a b : length a mod 3 = 0 -> groups (a ++ b) = Base64.Encode a ++ groups b.
Proof.
  intros Ha. unfold groups. rewrite length_app.
  assert (E : (length a + length b) mod 3 = length b mod 3).
  { rewrite Nat.Div0.add_mod, Ha, Nat.add_0_l. now rewrite Nat.Div0.mod_mod. }
  rewrite E.
  pose proof (Nat.Div0.mod_le (length b) 3).
  replace (length a + length b - length b mod 3)
    with (length a + (length b - length b mod 3)) by lia.
  rewrite firstn_app_2. now apply Encode_app.
Qed.

Lemma enc_fut_step buf d x t :
  length buf < 3 ->
  concat (fst (enc_chunks buf d)) ++ enc_fut (snd (enc_chunks buf d)) x t
  = enc_fut buf (d ++ x) t.
Proof.
  intros Hbuf. destruct (enc_chunks_split buf d Hbuf) as (c0 & Hsplit & Hc0 & Hcat & _).
  rewrite Hcat. unfold enc_fut.
  rewrite (app_assoc buf d x), Hsplit, <- app_assoc.
  destruct t as [[e |] |];
    [rewrite (groups_app c0) | rewrite (Encode_app c0) | rewrite (groups_app c0)];
    auto.
Qed.

Lemma after_fut_eof fringe src : after_fut fringe (Some EOF) src = (Base64.Encode fringe, Some None).
Proof. reflexivity. Qed.

Lemma t_write_fut e cs fringe er src :
  t_fut (fst (t_write e cs fringe er)) (snd (t_write e cs fringe er)) src
  = (concat cs ++ fst (after_fut fringe er src), snd (after_fut fringe er src)).
Proof.
  destruct cs as [| c cs]; cbn [t_write fst snd concat app].
  - destruct er as [[] |]; reflexivity.
  - cbn [t_fut]. destruct (after_fut fringe er src). now rewrite <- app_assoc.
Qed.

Lemma t_write_enc e cs fringe er :
  length (e_buf e) < 3 -> length fringe < 3 ->
  e_err (snd (t_write e cs fringe er)) = e_err e /\
  length (e_buf (snd (t_write e cs fringe er))) < 3.
Proof. destruct cs; cbn; auto. Qed.

Lemma t_after_read_coh er ip :
  p_wr ip = Free -> p_werr ip = None -> coh_t (t_after_read er) ip.
Proof. destruct er as [[] |]; cbn; auto. Qed.

Lemma t_write_coh e cs fringe er ip :
  p_wr ip = Free -> p_werr ip = None -> length fringe < 3 ->
  coh_t (fst (t_write e cs fringe er)) ip.
Proof.
  destruct cs; cbn [t_write fst]; [intros; now apply t_after_read_coh | cbn; auto].
Qed.

Lemma t_enc_write_fut e d er src :
  length (e_buf e) < 3 -> e_err e = None ->
  t_fut (fst (t_enc_write e d er)) (snd (t_enc_write e d er)) src
  = t_fut TRead e (read_fut d er src).
Proof.
  intros Hbuf Herr. unfold t_enc_write. destruct d as [| b d].
  - cbn [fst snd]. destruct er as [[] |]; cbn [t_after_read t_fut read_fut fst snd app enc_fut];
      rewrite ?app_nil_r, ?groups_short by assumption; reflexivity.
  - rewrite Herr. set (p := b :: d).
    pose proof (enc_fut_step (e_buf e) p) as Hstep.
    destruct (enc_chunks_split (e_buf e) p Hbuf) as (_ & _ & _ & _ & Hfr).
    destruct (enc_chunks (e_buf e) p) as [cs fr]. cbn [fst snd] in Hstep, Hfr.
    rewrite t_write_fut. cbn [t_fut].
    assert (Hnil : forall t, concat cs ++ enc_fut fr [] t = enc_fut (e_buf e) p t).
    { intros t. rewrite Hstep by assumption. now rewrite app_nil_r. }
    destruct er as [er |]; [| cbn [after_fut read_fut fst snd]; now rewrite Hstep].
    destruct er; cbn [after_fut read_fut fst snd]; rewrite <- Hnil;
      cbn [enc_fut]; rewrite ?app_nil_r, ?(groups_short fr), ?app_nil_r by assumption;
      reflexivity.
Qed.

Lemma t_enc_write_coh e d er :
  length (e_buf e) < 3 -> e_err e = None ->
  e_err (snd (t_enc_write e d er)) = None /\
  length (e_buf (snd (t_enc_write e d er))) < 3 /\
  forall ip, p_wr ip = Free -> p_werr ip = None -> coh_t (fst (t_enc_write e d er)) ip.
Proof.
  intros Hbuf Herr. unfold t_enc_write. destruct d as [| b d].
  - cbn [fst snd]. repeat split; auto. intros. now apply t_after_read_coh.
  - rewrite Herr.
    destruct (enc_chunks_split (e_buf e) (b :: d) Hbuf) as (_ & _ & _ & _ & Hfr).
    destruct (enc_chunks (e_buf e) (b :: d)) as [cs fr]. cbn [snd] in Hfr.
    destruct (t_write_enc e cs fr er Hbuf Hfr) as (H1 & H2).
    repeat split; try congruence; auto. intros. now apply t_write_coh.
Qed.

Lemma p_done_false wr : p_done (mkPipe wr None None) = false.
Proof. reflexivity. Qed.

Ltac inv H := inversion H; subst; clear H.

Ltac proj :=
  cbn [st_rd st_t st_e st_ip st_c st_out st_op st_dn st_ops st_u st_res
       p_wr p_werr p_rerr set_t set_c set_u e_err e_buf fst snd inflight] in *.

Lemma step_transcode_keeps s s' :
  coh s -> step_transcode s = Some s' ->
  coh s' /\ body_fut s' = body_fut s /\ st_c s' = st_c s /\ st_out s' = st_out s.
Proof.
  intros Hc Hs. destruct s as [rd t e ip c out op dn ops u res].
  destruct ip as [iwr iwerr irerr]; destruct op as [owr owerr orerr].
  unfold coh in Hc; cbn in Hc. destruct Hc as (Hir & Hor & How & Hbuf & He & Ht & Hu).
  subst irerr orerr.
  unfold step_transcode in Hs; proj.
  destruct t; cbn in Ht.
  - (* TRead *)
    destruct Ht as (-> & ->). specialize (He eq_refl).
    destruct rd as [[| [d er] rs] |].
    + pose proof (t_enc_write_fut e [] (Some EOF) (script_fut []) Hbuf He) as Hf.
      destruct (t_enc_write_coh e [] (Some EOF) Hbuf He) as (H1 & H2 & H3).
      destruct (t_enc_write e [] (Some EOF)) as [pc e']. cbn [fst snd] in *. inv Hs.
      unfold coh, body_fut, src_fut; proj. rewrite Hf.
      repeat split; auto.
    + pose proof (t_enc_write_fut e d er (script_fut rs) Hbuf He) as Hf.
      destruct (t_enc_write_coh e d er Hbuf He) as (H1 & H2 & H3).
      destruct (t_enc_write e d er) as [pc e']. cbn [fst snd] in *. inv Hs.
      unfold coh, body_fut, src_fut; proj. rewrite Hf.
      repeat split; auto.
      cbn [script_fut]. destruct er as [[] |]; cbn; try reflexivity.
      now destruct (script_fut rs).
    + (* the read end of Writer's pipe *)
      unfold pipe_read, p_done in Hs; proj.
      destruct How as [-> | ->].
      * destruct owr as [| b |]; try discriminate.
        set (d := firstn copy_buf b) in *. set (rest := skipn copy_buf b) in *.
        assert (Hin : forall w r, inflight (mkPipe (match rest with
                                                     | [] => Taken
                                                     | _ :: _ => Offered rest
                                                     end) w r) = rest)
          by (intros; now destruct rest).
        destruct (t_enc_write_coh e d None Hbuf He) as (H1 & H2 & H3).
        assert (Hf := fun src => t_enc_write_fut e d None src Hbuf He).
        destruct (t_enc_write e d None) as [pc e']. cbn [fst snd] in *. inv Hs.
        unfold coh, body_fut, src_fut; proj.
        repeat split; auto.
        -- destruct u; cbn in Hu |- *; auto; try discriminate; now destruct Hu.
        -- destruct (ops_fut _) as [x t]. rewrite Hf, Hin.
           cbn [read_fut fst snd t_fut]. unfold d, rest.
           now rewrite app_assoc, firstn_skipn.
      * cbn in Hs.
        destruct (t_enc_write_coh e [] (Some EOF) Hbuf He) as (H1 & H2 & H3).
        assert (Hf := fun src => t_enc_write_fut e [] (Some EOF) src Hbuf He).
        destruct (t_enc_write e [] (Some EOF)) as [pc e'] eqn:E. cbn [fst snd] in *.
        cbn in E. inv E. inv Hs.
        unfold coh, body_fut, src_fut; proj.
        repeat split; auto.
        specialize (Hf ([], Some None)). now rewrite Hf.
  - (* TWrite *)
    destruct Ht as (-> & -> & Hfr). specialize (He eq_refl).
    unfold pipe_write_begin, p_done in Hs; proj. inv Hs.
    unfold coh, body_fut; proj. repeat split; auto; try discriminate.
    cbn [t_fut]. destruct (after_fut fringe er _) as [x t]. reflexivity.
  - (* TWriteWait *)
    destruct Ht as (Hwr & -> & Hfr). specialize (He eq_refl).
    unfold pipe_write_wait, p_done in Hs; proj.
    destruct iwr as [| rest |]; try discriminate.
    destruct (t_write_enc e cs fringe er Hbuf Hfr) as (H1 & H2).
    pose proof (t_write_coh e cs fringe er (mkPipe Free None None) eq_refl eq_refl Hfr) as H3.
    assert (Hf := fun src => t_write_fut e cs fringe er src).
    destruct (t_write e cs fringe er) as [pc e']. cbn [fst snd] in *. inv Hs.
    unfold coh, body_fut; proj. repeat split; auto; try congruence.
    rewrite Hf. cbn [t_fut]. now destruct (after_fut fringe er _).
  - (* TCopyRet *)
    destruct Ht as (-> & ->). specialize (He eq_refl).
    destruct err as [err |]; inv Hs; unfold coh, body_fut; cbn; repeat split; auto;
      congruence.
  - (* TEncClose *)
    destruct deferred.
    + destruct Ht as (-> & Ht). destruct iwerr as [w |]; [| congruence].
      unfold pipe_write_begin, p_done in Hs; proj.
      destruct (e_err e) as [err |] eqn:Ee; [| destruct (close_chunks (e_buf e))]; inv Hs;
        unfold coh, body_fut; cbn; repeat split; auto; try congruence; lia.
    + destruct Ht as (-> & ->). specialize (He eq_refl). rewrite He in Hs.
      unfold pipe_write_begin, p_done in Hs; proj.
      destruct (e_buf e) as [| b l] eqn:Eb; cbn [close_chunks] in Hs; inv Hs;
        unfold coh, body_fut; proj; rewrite ?Eb; cbn; rewrite ?Eb; repeat split; auto;
        try lia; try discriminate.
      now rewrite app_nil_r.
  - (* TEncCloseWait *)
    unfold pipe_write_wait, p_done in Hs; proj. destruct deferred.
    + destruct Ht as (-> & Ht). discriminate.
    + destruct Ht as (Hwr & ->). destruct iwr; inv Hs.
      unfold coh, body_fut; cbn; repeat split; auto; lia.
  - (* TEncClosed *)
    destruct deferred.
    + destruct Ht as (-> & Ht). destruct iwerr as [w |]; [| congruence].
      destruct err; inv Hs; unfold coh, body_fut; cbn; repeat split; auto; congruence.
    + destruct Ht as (-> & ->).
      destruct err as [[] |]; inv Hs; unfold coh, body_fut; cbn; repeat split; auto;
        congruence.
  - discriminate.
Qed.

Lemma step_caller_keeps s s' :
  coh s -> step_caller s = Some s' ->
  coh s' /\ body_fut s' = body_fut s /\ st_c s' = st_c s /\ st_out s' = st_out s.
Proof.
  intros Hc Hs. destruct s as [rd t e ip c out op dn ops u res].
  destruct op as [owr owerr orerr].
  unfold coh in Hc; proj. destruct Hc as (Hir & Hor & How & Hbuf & He & Ht & Hu).
  subst orerr.
  unfold step_caller in Hs; proj.
  destruct ops as [| o ops]; [discriminate |].
  unfold pipe_write_begin, pipe_write_wait, PipeWriter_Close, closeWrite, p_done in Hs; proj.
  destruct u; cbn in Hu.
  { (* UIdle *)
    subst owr. destruct o as [p |].
    { destruct How as [-> | ->]; inv Hs; unfold coh, body_fut, src_fut; proj;
        cbn [coh_u p_wr p_werr]; repeat split; auto.
      destruct rd; [reflexivity |]. cbn [ops_fut tl].
      destruct (ops_fut ops) as [x y]. reflexivity. }
    { inv Hs. unfold coh, body_fut, src_fut; proj.
      destruct How as [-> | ->]; cbn; repeat split; auto; try congruence;
        destruct rd; try reflexivity. } }
  { (* UWriteWait *)
    subst owerr. destruct o, owr as [| rest |]; try discriminate; inv Hs;
      unfold coh, body_fut, src_fut; cbn; repeat split; auto. }
  { (* UCloseWait *)
    destruct Hu as (-> & Hw). destruct o, dn; try discriminate; inv Hs;
      unfold coh, body_fut, src_fut; proj; cbn [coh_u p_wr]; repeat split; auto;
      (destruct rd; [reflexivity |]; destruct owerr; [reflexivity | congruence]). }
Qed.

Lemma accepts_from_snoc snk l : forall h d,
  accepts_from snk h (l ++ [d]) = accepts_from snk h l && write_ok snk (h ++ l) d.
Proof.
  induction l as [| x l IH]; intros h d; cbn [app accepts_from].
  - now rewrite app_nil_r, andb_true_r.
  - now rewrite IH, <- app_assoc, andb_assoc.
Qed.

Lemma accepts_snoc snk l d :
  accepts snk (l ++ [d]) = accepts snk l && write_ok snk l d.
Proof. apply accepts_from_snoc. Qed.

Lemma written_snoc s d : concat (st_out s ++ [d]) = written s ++ d.
Proof. unfold written. now rewrite concat_app; cbn; rewrite app_nil_r. Qed.

Section MainStep.

Variable enc : Encoder.
Let snk := enc_out enc.

Lemma inflight_rest rest w r :
  inflight (mkPipe (match rest with [] => Taken | _ :: _ => Offered rest end) w r) = rest.
Proof. now destruct rest. Qed.

Lemma step_main_running s s' :
  running s = true -> coh s -> accepts snk (st_out s) = true ->
  step_main enc s = Some s' ->
  (running s' = true /\ coh s' /\ accepts snk (st_out s') = true /\ plan s' = plan s)
  \/ (exists r, st_c s' = CRet r /\ finished snk (plan s) (st_out s') r).
Proof.
  intros Hrun Hc Hacc Hs. destruct s as [rd t e ip c out op dn ops u res].
  destruct ip as [iwr iwerr irerr].
  unfold coh in Hc; proj. destruct Hc as (Hir & Hor & How & Hbuf & He & Ht & Hu).
  subst irerr. unfold step_main in Hs; proj. unfold running in Hrun; proj.
  destruct c as [rs | d er rs | | |]; try discriminate.
  - (* CRead *)
    destruct rs as [| [b |] rs].
    + (* no reader left *)
      inv Hs. right. exists None. split; [reflexivity |]. left. split; [assumption |].
      unfold plan, written; proj. cbn. now rewrite app_nil_r.
    + (* a buffer *)
      destruct b as [| x b]; inv Hs; left; unfold coh, plan, body_fut, written; proj;
        (split; [reflexivity |]); (split; [now repeat split |]); (split; [assumption |]).
      * cbn [c_fut mr_fut]. now destruct (mr_fut rs _).
      * cbn [c_fut c_after_fut mr_fut]. destruct (mr_fut rs _) as [y t'].
        do 2 f_equal. now rewrite app_assoc, firstn_skipn.
    + (* the pipe *)
      unfold pipe_read, p_done in Hs; proj. destruct iwerr as [w |].
      * (* closed by the transcode goroutine *)
        cbn in Hs. destruct w; inv Hs.
        -- left. unfold coh, plan, body_fut, written; proj.
           split; [reflexivity |]. split; [now repeat split |]. split; [assumption |].
           cbn. now destruct (mr_fut rs _).
        -- right. exists (Some ErrClosedPipe). split; [reflexivity |]. left.
           split; [assumption |]. unfold plan, body_fut, written; cbn.
           now rewrite app_nil_r.
        -- right. exists (Some ErrShortWrite). split; [reflexivity |]. left.
           split; [assumption |]. unfold plan, body_fut, written; cbn.
           now rewrite app_nil_r.
        -- right. exists (Some (Err msg)). split; [reflexivity |]. left.
           split; [assumption |]. unfold plan, body_fut, written; cbn.
           now rewrite app_nil_r.
      * (* a slice is offered *)
        destruct iwr as [| b |]; try discriminate.
        assert (Ht' : forall wr, wr <> Free -> coh_t t (mkPipe wr None None)).
        { intros wr Hwr. destruct t; cbn in Ht |- *; try tauto;
            try (destruct Ht as [Ht _]; discriminate);
            destruct deferred; try tauto; destruct Ht as [Ht _]; discriminate. }
        assert (Hrest : forall rest : bytes,
                   match rest with [] => Taken | _ :: _ => Offered rest end <> Free)
          by (intros []; discriminate).
        pose proof (firstn_skipn copy_buf b) as Hb.
        destruct (firstn copy_buf b) as [| y d'] eqn:Ed; clear Ed;
          set (rest := skipn copy_buf b) in *; clearbody rest; subst b;
          inv Hs; left; unfold coh, plan, body_fut, written; proj;
          rewrite inflight_rest; (split; [reflexivity |]);
          (split; [repeat split; auto |]); (split; [assumption |]);
          unfold src_fut; proj; destruct (t_fut t e _) as [x0 t0].
        -- reflexivity.
        -- cbn [c_fut c_after_fut mr_fut fst snd].
           destruct (norm t0) as [[err |] |]; [| destruct (mr_fut rs _) |];
             now rewrite <- ?app_assoc.
  - (* CWrite *)
    unfold snk in *. destruct (enc_out enc out d) as [nw ew] eqn:E.
    assert (Hok : write_ok (enc_out enc) out d =
                  match ew with Some _ => false | None => nw =? length d end).
    { unfold write_ok. rewrite E. now destruct ew. }
    assert (Herr : write_err (enc_out enc) out d =
                   match ew with Some e0 => e0 | None => ErrShortWrite end).
    { unfold write_err. rewrite E. now destruct ew. }
    assert (Hfail : write_ok (enc_out enc) out d = false ->
              finished (enc_out enc)
                (plan (mkState rd t e (mkPipe iwr iwerr None) (CWrite d er rs) out op dn
                               ops u res))
                (out ++ [d]) (Some (write_err (enc_out enc) out d))).
    { intros Hno. right. exists out, d. repeat split; auto.
      unfold plan, written; proj. cbn [c_fut].
      destruct (c_after_fut er rs _) as [x t0]. exists x. cbn [fst].
      rewrite concat_app. cbn. now rewrite app_nil_r, <- app_assoc. }
    destruct ew as [e0 |].
    + injection Hs as <-. right. exists (Some e0). split; [reflexivity |].
      rewrite <- Herr. now apply Hfail.
    + destruct (nw =? length d) eqn:En.
      * assert (Hacc' : accepts (enc_out enc) (out ++ [d]) = true)
          by now rewrite accepts_snoc, Hacc, Hok.
        destruct er as [er |].
        -- right. exists (match er with EOF => None | _ => Some er end).
           split; [destruct er; inv Hs; reflexivity |].
           left. destruct er; inv Hs; (split; [assumption |]);
             unfold plan, written; proj; cbn; now rewrite concat_app; cbn;
             rewrite !app_nil_r.
        -- inv Hs. left. unfold coh, plan, body_fut, written; proj.
           split; [reflexivity |]. split; [now repeat split |]. split; [assumption |].
           cbn [c_fut c_after_fut c_after_read].
           destruct (mr_fut rs _) as [x t0]. rewrite concat_app. cbn.
           now rewrite app_nil_r, <- app_assoc.
      * injection Hs as <-. right. exists (Some ErrShortWrite). split; [reflexivity |].
        rewrite <- Herr. now apply Hfail.
Qed.

End MainStep.

(** Steps of the other goroutines leave [Encode]'s own state alone. *)
Lemma step_transcode_frame s s' :
  step_transcode s = Some s' ->
  st_c s' = st_c s /\ st_out s' = st_out s /\ st_dn s' = st_dn s /\
  st_res s' = st_res s /\ st_ops s' = st_ops s /\ st_u s' = st_u s.
Proof.
  unfold step_transcode. intros H.
  repeat match type of H with
         | context [match ?x with _ => _ end] => destruct x eqn:?; try discriminate
         end; inv H; cbn; repeat split; auto.
Qed.

Lemma step_caller_frame s s' :
  step_caller s = Some s' ->
  st_c s' = st_c s /\ st_out s' = st_out s /\ st_dn s' = st_dn s /\
  st_rd s' = st_rd s /\ st_t s' = st_t s /\ st_ip s' = st_ip s /\ st_e s' = st_e s.
Proof.
  unfold step_caller. intros H.
  repeat match type of H with
         | context [match ?x with _ => _ end] => destruct x eqn:?; try discriminate
         end; inv H; cbn; repeat split; auto.
Qed.

Lemma plan_eq s s' :
  body_fut s' = body_fut s -> st_c s' = st_c s -> st_out s' = st_out s ->
  plan s' = plan s.
Proof. unfold plan, written. now intros -> -> ->. Qed.

Lemma running_eq s s' : st_c s' = st_c s -> running s' = running s.
Proof. unfold running. now intros ->. Qed.

Section Invariant.

Variable enc : Encoder.
Variable P : bytes * term.

Lemma Inv_step t s s' : Inv enc P s -> step enc t s = Some s' -> Inv enc P s'.
Proof.
  unfold Inv. intros HI Hs. destruct (running s) eqn:Hrun.
  - destruct HI as (Hc & Hacc & Hplan). destruct t; cbn [step] in Hs.
    + destruct (step_caller_keeps s s' Hc Hs) as (Hc' & Hb & Hcc & Ho).
      rewrite (running_eq s s' Hcc), Hrun, Ho, (plan_eq s s' Hb Hcc Ho). auto.
    + destruct (step_main_running enc s s' Hrun Hc Hacc Hs)
        as [(Hr & Hc' & Hacc' & Hp) | (r & Hr & Hfin)].
      * rewrite Hr, Hp. auto.
      * unfold running. rewrite Hr. exists r. rewrite <- Hplan. auto.
    + destruct (step_transcode_keeps s s' Hc Hs) as (Hc' & Hb & Hcc & Ho).
      rewrite (running_eq s s' Hcc), Hrun, Ho, (plan_eq s s' Hb Hcc Ho). auto.
  - destruct HI as (r & Hr & Hfin). destruct t; cbn [step] in Hs.
    + destruct (step_caller_frame s s' Hs) as (Hcc & Ho & _).
      rewrite (running_eq s s' Hcc), Hrun, Hcc, Ho. eauto.
    + unfold step_main in Hs. unfold running in Hrun.
      destruct (st_c s) eqn:Ec; try discriminate; cbn in Hr; inv Hr.
      * destruct (st_rd s); inv Hs. unfold running. cbn. eauto.
      * inv Hs. unfold running. cbn. eauto.
    + destruct (step_transcode_frame s s' Hs) as (Hcc & Ho & _).
      rewrite (running_eq s s' Hcc), Hrun, Hcc, Ho. eauto.
Qed.

Lemma Inv_step' t s : Inv enc P s -> Inv enc P (step' enc t s).
Proof.
  intros HI. unfold step'. destruct (step enc t s) eqn:E; [| assumption].
  eapply Inv_step; eauto.
Qed.

Lemma Inv_exec sched : forall s, Inv enc P s -> Inv enc P (exec enc sched s).
Proof.
  induction sched as [| t sched IH]; intros s HI; cbn [exec]; [assumption |].
  apply IH. now apply Inv_step'.
Qed.

Lemma Inv_run n : forall s, Inv enc P s -> Inv enc P (run enc n s).
Proof.
  induction n as [| n IH]; intros s HI; cbn [run]; [assumption |].
  apply IH. now repeat apply Inv_step'.
Qed.

End Invariant.

Lemma coh_init rd multi ops :
  coh (mkState rd TRead NewEncoder io_Pipe (CRead multi) [] io_Pipe false ops UIdle []).
Proof. unfold coh; cbn. repeat split; auto. Qed.

Lemma Inv_Encode enc tmux rs :
  Inv enc (plan (Encode enc tmux rs)) (Encode enc tmux rs).
Proof. unfold Inv, Encode. cbn [running st_c]. split; [apply coh_init | auto]. Qed.

Lemma Inv_Writer enc tmux ops :
  Inv enc (plan (Writer enc tmux ops)) (Writer enc tmux ops).
Proof. unfold Inv, Writer. cbn [running st_c]. split; [apply coh_init | auto]. Qed.

(** The bytes a reader delivers and how it ends. *)
Lemma script_fut_term rs :
  snd (script_fut rs) = Some None \/
  exists e, e <> EOF /\ snd (script_fut rs) = Some (Some e).
Proof.
  induction rs as [| [d [[] |]] rs IH]; cbn [script_fut]; auto;
    try (right; eexists; split; [| reflexivity]; discriminate).
  destruct (script_fut rs). exact IH.
Qed.

Lemma plan_Encode enc tmux rs :
  plan (Encode enc tmux rs)
  = frame enc tmux (fst (script_fut rs)) (snd (script_fut rs)).
Proof.
  unfold plan, Encode, body_fut, src_fut, written, multi; proj. cbn [concat app].
  cbn [t_fut c_fut mr_fut fst snd e_buf NewEncoder app].
  destruct (script_fut_term rs) as [E | (e & Hne & E)]; rewrite E; cbn.
  - now rewrite app_nil_r.
  - destruct e; try congruence; cbn; reflexivity.
Qed.

Section Handle.

Variable enc : Encoder.

Lemma pipe_read_errs n p p' r :
  pipe_read n p = Some (p', r) -> p_werr p' = p_werr p /\ p_rerr p' = p_rerr p.
Proof.
  unfold pipe_read. destruct (p_done p); [intros H; inv H; auto |].
  destruct (p_wr p); try discriminate. intros H; inv H. auto.
Qed.

Lemma step_transcode_op s s' :
  step_transcode s = Some s' ->
  p_werr (st_op s') = p_werr (st_op s) /\ p_rerr (st_op s') = p_rerr (st_op s).
Proof.
  unfold step_transcode. intros H.
  destruct (st_t s); try discriminate.
  - destruct (st_rd s) as [[| [d er] rs] |].
    + destruct (t_enc_write _ _ _); inv H; auto.
    + destruct (t_enc_write _ _ _); inv H; auto.
    + destruct (pipe_read copy_buf (st_op s)) as [[op' [d er]] |] eqn:E; [| discriminate].
      apply pipe_read_errs in E. destruct (t_enc_write _ _ _); inv H; auto.
  - repeat match type of H with
           | context [match ?x with _ => _ end] => destruct x eqn:?; try discriminate
           end; inv H; auto.
  - repeat match type of H with
           | context [match ?x with _ => _ end] => destruct x eqn:?; try discriminate
           end; inv H; auto.
  - destruct err; inv H; auto.
  - repeat match type of H with
           | context [match ?x with _ => _ end] => destruct x eqn:?; try discriminate
           end; inv H; auto.
  - repeat match type of H with
           | context [match ?x with _ => _ end] => destruct x eqn:?; try discriminate
           end; inv H; auto.
  - destruct deferred, err; inv H; auto.
Qed.

Lemma handle_inv_step t s s' : handle_inv s -> step enc t s = Some s' -> handle_inv s'.
Proof.
  intros (Hres & Hdn & Hrerr & Hw & Hne) Hs. destruct t; cbn [step] in Hs.
  - (* Caller *)
    destruct (step_caller_frame s s' Hs) as (Hc & _ & Hd & _).
    unfold handle_inv. rewrite Hc, Hd. clear Hc Hd.
    destruct s as [rd t e ip c out [owr owerr orerr] dn ops u res].
    unfold step_caller, pipe_write_begin, pipe_write_wait, PipeWriter_Close, closeWrite,
      p_done in Hs; proj.
    assert (Hin : forall r n e0, In (RClose r) (res ++ [RWrite n e0]) -> In (RClose r) res).
    { intros r n e0 H. apply in_app_or in H. destruct H as [H | [H | []]]; [assumption |].
      discriminate. }
    destruct ops as [| o ops]; [discriminate |].
    destruct u.
    + (* between calls *)
      destruct o as [p |].
      * destruct owerr as [w |]; [| destruct orerr as [w |]]; injection Hs as <-; proj;
          (split; [| split; [assumption | split; [assumption | split]]]);
          try (intros r H; apply Hin in H; now apply Hres);
          try assumption; try (now left); try (right; discriminate);
          intros [H | (r & H)]; try discriminate; try apply Hin in H;
          apply Hw; eauto.
      * injection Hs as <-; proj. split; [assumption |]. split; [assumption |].
        split; [assumption |]. split; [| right; discriminate].
        intros _. destruct owerr; discriminate.
    + (* blocked in Write *)
      destruct o, owr as [| rest |], owerr as [w |], orerr as [w' |]; try discriminate;
        injection Hs as <-; proj;
        (split; [| split; [assumption | split; [assumption | split; [| now left]]]]);
        try (intros r H; apply Hin in H; now apply Hres);
        intros [H | (r & H)]; try discriminate; apply Hin in H; apply Hw; eauto.
    + (* blocked in Close *)
      destruct dn; [| destruct o; discriminate].
      assert (Hs' : s' = set_u (mkState rd t e ip c out (mkPipe owr owerr orerr) true
                                  (o :: ops) UCloseWait res)
                      (mkPipe owr owerr orerr) ops UIdle (res ++ [RClose None]))
        by (destruct o; now injection Hs as <-).
      subst s'. clear Hs. proj.
      split; [| split; [assumption | split; [assumption | split; [| now left]]]].
      * intros r H. apply in_app_or in H. destruct H as [H | [H | []]];
          [now apply Hres | inv H; auto].
      * intros _. apply Hw. now left.
  - (* Main *)
    unfold handle_inv.
    destruct s as [rd t e ip c out op dn ops u res]. proj.
    assert (Hrun : forall pc ip' out', running (mkState rd t e ip c out op dn ops u res) = true ->
              (match pc with BDefer _ | BDone _ => False | _ => True end) ->
              handle_inv (mkState rd t e ip' pc out' op dn ops u res)).
    { intros pc ip' out' Hr Hpc. unfold running in Hr; proj. unfold handle_inv; proj.
      split; [intros r0 H; now apply Hres |].
      split; [intros Hd; destruct (Hdn Hd) as (r & ->); discriminate |].
      split; [destruct c; try discriminate; destruct pc; try tauto; assumption |].
      split; assumption. }
    unfold step_main in Hs; proj.
    destruct c as [rs | d er rs | r | r | r].
    + destruct rs as [| [[| x b] |] rs]; try (inv Hs; apply Hrun; cbn; auto).
      destruct (pipe_read copy_buf ip) as [[ip' [d er]] |]; [| discriminate].
      destruct er as [[] |], d; inv Hs; apply Hrun; cbn; auto.
    + destruct (enc_out enc out d) as [nw [e0 |]]; [inv Hs; apply Hrun; cbn; auto |].
      destruct (nw =? length d), er as [[] |]; inv Hs; apply Hrun; cbn; auto.
    + destruct rd; [discriminate |]. injection Hs as <-. unfold handle_inv; proj.
      split; [intros r0 H; now apply Hres |].
      split; [intros Hd; destruct (Hdn Hd) as (r' & ?); discriminate |].
      split; [destruct r; cbn; [now rewrite Hrerr | assumption] |].
      split; [destruct r; cbn; assumption | assumption].
    + injection Hs as <-. unfold handle_inv; proj.
      split; [intros r0 H; split; [now apply Hres | reflexivity] |].
      split; [eauto |]. split; [assumption |]. split; assumption.
    + discriminate.
  - (* Transcode *)
    destruct (step_transcode_frame s s' Hs) as (Hc & _ & Hd & Hr & Ho & Hu).
    destruct (step_transcode_op s s' Hs) as (Hw' & Hr').
    unfold handle_inv. rewrite Hc, Hd, Hr, Hu, Hw', Hr', Ho. auto.
Qed.

Lemma handle_inv_exec sched : forall s, handle_inv s -> handle_inv (exec enc sched s).
Proof.
  induction sched as [| t sched IH]; intros s HI; cbn [exec]; [assumption |].
  apply IH. unfold step'. destruct (step enc t s) eqn:E; [| assumption].
  eapply handle_inv_step; eauto.
Qed.

Lemma handle_inv_Writer tmux ops : handle_inv (Writer enc tmux ops).
Proof.
  unfold handle_inv, Writer; cbn. repeat split; try tauto; try discriminate.
  intros [H | (r & [])]; discriminate.
Qed.

End Handle.

Ltac break_match H :=
  repeat match type of H with
         | context [match ?x with _ => _ end] => destruct x eqn:?; try discriminate
         end.

Section Direct.

Variable enc : Encoder.

(** With a caller's reader, a step of [Encode]'s own goroutine keeps the
    state coherent and does not change how the pipe will end. *)
Lemma step_main_script s s' :
  coh s -> is_script s -> step_main enc s = Some s' ->
  coh s' /\ snd (body_fut s') = snd (body_fut s) /\
  st_rd s' = st_rd s /\ st_t s' = st_t s.
Proof.
  intros Hc (rs0 & Hrd) Hs. destruct s as [rd t e ip c out op dn ops u res].
  destruct ip as [iwr iwerr irerr].
  unfold coh in Hc; proj. destruct Hc as (Hir & Hor & How & Hbuf & He & Ht & Hu).
  subst irerr rd.
  assert (Hsame : forall pc out' dn',
            coh (mkState (ScriptReader rs0) t e (mkPipe iwr iwerr None) pc out' op dn'
                         ops u res) /\
            snd (body_fut (mkState (ScriptReader rs0) t e (mkPipe iwr iwerr None) pc out'
                                   op dn' ops u res))
            = snd (body_fut (mkState (ScriptReader rs0) t e (mkPipe iwr iwerr None) c out
                                     op dn ops u res)) /\
            ScriptReader rs0 = ScriptReader rs0 /\ t = t).
  { intros. unfold coh, body_fut, src_fut; proj. repeat split; auto. }
  unfold step_main in Hs; proj.
  destruct c as [rs | d er rs | r | r | r]; try discriminate.
  - destruct rs as [| [[| x b] |] rs]; try (injection Hs as <-; apply Hsame).
    unfold pipe_read, p_done in Hs; proj. destruct iwerr as [w |].
    + cbn in Hs. destruct w; injection Hs as <-; apply Hsame.
    + destruct iwr as [| b |]; try discriminate.
      assert (Ht' : forall wr, wr <> Free -> coh_t t (mkPipe wr None None)).
      { intros wr Hwr. destruct t; cbn in Ht |- *; try tauto;
          try (destruct Ht as [Ht _]; discriminate);
          destruct deferred; try tauto; destruct Ht as [Ht _]; discriminate. }
      assert (Hrest : forall rest : bytes,
                 match rest with [] => Taken | _ :: _ => Offered rest end <> Free)
        by (intros []; discriminate).
      destruct (firstn copy_buf b); injection Hs as <-;
        unfold coh, body_fut, src_fut; proj; repeat split; auto;
        now destruct (t_fut t e _).
  - destruct (enc_out enc out d) as [nw [e0 |]]; [injection Hs as <-; apply Hsame |].
    destruct (nw =? length d); injection Hs as <-; apply Hsame.
  - injection Hs as <-; apply Hsame.
Qed.

Lemma pipe_write_wait_errs n p p' r :
  pipe_write_wait n p = Some (p', r) -> p_werr p' = p_werr p /\ p_rerr p' = p_rerr p.
Proof.
  unfold pipe_write_wait. intros H. break_match H; inv H; auto.
Qed.

Lemma pipe_write_begin_errs b p p' :
  pipe_write_begin b p = inr p' -> p_werr p' = p_werr p /\ p_rerr p' = p_rerr p.
Proof.
  unfold pipe_write_begin. intros H. break_match H; inv H; auto.
Qed.

Lemma closeWrite_werr err p w : p_werr p = Some w -> p_werr (closeWrite err p) = Some w.
Proof. unfold closeWrite. cbn. now intros ->. Qed.

Ltac pipe_errs :=
  repeat match goal with
         | H : pipe_write_wait _ _ = Some _ |- _ =>
             apply pipe_write_wait_errs in H; destruct H
         | H : pipe_write_begin _ _ = inr _ |- _ =>
             apply pipe_write_begin_errs in H; destruct H
         | H : pipe_read _ _ = Some _ |- _ => apply pipe_read_errs in H; destruct H
         end.

(** Once the pipe has been closed with an error, that error stays. *)
Lemma werr_stable_step t s s' w :
  p_werr (st_ip s) = Some w -> step enc t s = Some s' -> p_werr (st_ip s') = Some w.
Proof.
  intros Hw Hs. destruct t; cbn [step] in Hs.
  - destruct (step_caller_frame s s' Hs) as (_ & _ & _ & _ & _ & -> & _). assumption.
  - unfold step_main in Hs. destruct (st_c s); try discriminate.
    + destruct rs as [| [[| x b] |] rs]; try (injection Hs as <-; assumption).
      destruct (pipe_read copy_buf (st_ip s)) as [[ip' [d er]] |] eqn:E; [| discriminate].
      apply pipe_read_errs in E. destruct E as (E & _).
      destruct er as [[] |], d; injection Hs as <-; cbn; congruence.
    + cbv zeta in Hs. break_match Hs; injection Hs as <-; assumption.
    + break_match Hs; injection Hs as <-; assumption.
    + injection Hs as <-; assumption.
  - unfold step_transcode in Hs.
    destruct (st_t s); break_match Hs; try discriminate; injection Hs as <-; cbn;
      subst; pipe_errs; rewrite ?Hw; cbn; congruence.
Qed.

Lemma werr_stable sched : forall s w,
  p_werr (st_ip s) = Some w -> p_werr (st_ip (exec enc sched s)) = Some w.
Proof.
  induction sched as [| t sched IH]; intros s w Hw; cbn [exec]; [assumption |].
  apply IH. unfold step'. destruct (step enc t s) eqn:E; [| assumption].
  eapply werr_stable_step; eauto.
Qed.

Lemma step_transcode_script s s' :
  is_script s -> step_transcode s = Some s' -> is_script s'.
Proof.
  intros (rs & Hrd) Hs. unfold step_transcode in Hs. rewrite Hrd in Hs.
  destruct (st_t s); break_match Hs; try discriminate; injection Hs as <-; cbn;
    unfold is_script; cbn; eauto.
Qed.

Lemma direct_inv_step T0 t s s' :
  direct_inv T0 s -> step enc t s = Some s' -> direct_inv T0 s'.
Proof.
  intros (Hc & Hsc & Hb) Hs. unfold direct_inv. destruct t; cbn [step] in Hs.
  - destruct (step_caller_keeps s s' Hc Hs) as (Hc' & Hb' & _).
    destruct (step_caller_frame s s' Hs) as (_ & _ & _ & Hrd & _).
    unfold is_script. rewrite Hb', Hrd. auto.
  - destruct (step_main_script s s' Hc Hsc Hs) as (Hc' & Hb' & Hrd & _).
    unfold is_script. rewrite Hb', Hrd. auto.
  - destruct (step_transcode_keeps s s' Hc Hs) as (Hc' & Hb' & _).
    rewrite Hb'. eauto using step_transcode_script.
Qed.

Lemma direct_inv_exec T0 sched : forall s,
  direct_inv T0 s -> direct_inv T0 (exec enc sched s).
Proof.
  induction sched as [| t sched IH]; intros s HI; cbn [exec]; [assumption |].
  apply IH. unfold step'. destruct (step enc t s) eqn:E; [| assumption].
  eapply direct_inv_step; eauto.
Qed.

Lemma direct_inv_Encode tmux rs :
  direct_inv (snd (script_fut rs)) (Encode enc tmux rs).
Proof.
  unfold direct_inv, Encode. split; [apply coh_init |]. split; [now exists rs |].
  unfold body_fut, src_fut; cbn.
  destruct (script_fut_term rs) as [E | (e & Hne & E)]; rewrite E; cbn; [reflexivity |].
  now destruct e.
Qed.

(** *** No read follows a read that returned an error *)

Lemma can_read_after er : can_read (t_after_read er) = true -> er = None.
Proof. now destruct er as [[] |]. Qed.

Lemma can_read_write e cs fringe er :
  can_read (fst (t_write e cs fringe er)) = true -> er = None.
Proof.
  destruct cs; cbn [t_write fst]; [apply can_read_after |]. now destruct er.
Qed.

Lemma can_read_enc_write e d er :
  can_read (fst (t_enc_write e d er)) = true -> er = None.
Proof.
  unfold t_enc_write. destruct d; [apply can_read_after |].
  destruct (e_err e); [discriminate |].
  destruct (enc_chunks (e_buf e) (b :: d)). apply can_read_write.
Qed.

Lemma firstn_S_skipn {A} k (l : list A) x rest :
  skipn k l = x :: rest -> firstn (S k) l = firstn k l ++ [x] /\ skipn (S k) l = rest.
Proof.
  revert l. induction k as [| k IH]; intros l H.
  - cbn in H. subst l. auto.
  - destruct l as [| y l]; [discriminate |]. cbn [skipn] in H.
    destruct (IH l H) as (H1 & H2). split; [| exact H2].
    change (firstn (S (S k)) (y :: l)) with (y :: firstn (S k) l). now rewrite H1.
Qed.

Lemma removelast_snoc {A} (l : list A) x : removelast (l ++ [x]) = l.
Proof. now rewrite removelast_last. Qed.

Lemma reads_inv_step rs0 t s s' :
  reads_inv rs0 s -> step enc t s = Some s' -> reads_inv rs0 s'.
Proof.
  intros (k & Hrd & Hpre & Hcan) Hs. destruct t; cbn [step] in Hs.
  - destruct (step_caller_frame s s' Hs) as (_ & _ & _ & Hr & Ht & _).
    exists k. now rewrite Hr, Ht.
  - assert (st_rd s' = st_rd s /\ st_t s' = st_t s) as (Hr & Ht).
    { unfold step_main in Hs. cbv zeta in Hs.
      destruct (st_c s); break_match Hs; try discriminate; injection Hs as <-; auto. }
    exists k. now rewrite Hr, Ht.
  - unfold step_transcode in Hs. rewrite Hrd in Hs.
    destruct (st_t s) eqn:Et.
    + (* a read *)
      destruct (skipn k rs0) as [| [d er] rest] eqn:Esk.
      * pose proof (can_read_enc_write (st_e s) [] (Some EOF)) as Hno.
        destruct (t_enc_write (st_e s) [] (Some EOF)) as [pc e']. injection Hs as <-.
        exists k. cbn. rewrite Esk. repeat split; auto.
      * pose proof (can_read_enc_write (st_e s) d er) as Hno.
        destruct (t_enc_write (st_e s) d er) as [pc e']. injection Hs as <-.
        destruct (firstn_S_skipn k rs0 _ _ Esk) as (Hf & Hsk).
        exists (S k). cbn [st_rd st_t set_t]. rewrite Hsk, Hf, removelast_snoc.
        split; [reflexivity |]. split; [now apply Hcan |].
        intros Hc. apply Hno in Hc. subst er.
        rewrite forallb_app, (Hcan eq_refl). reflexivity.
    + (* about to write *)
      break_match Hs; injection Hs as <-; exists k; cbn; repeat split; auto;
        try discriminate; subst;
        match goal with
        | H : t_write _ _ _ _ = _ |- _ =>
            intros Hc; pose proof (can_read_write (st_e s) cs fringe er) as Hno;
            rewrite H in Hno; apply Hno in Hc; subst er; now apply Hcan
        end.
    + break_match Hs; injection Hs as <-; exists k; cbn; repeat split; auto;
        try discriminate; subst;
        match goal with
        | H : t_write _ _ _ _ = _ |- _ =>
            intros Hc; pose proof (can_read_write (st_e s) cs fringe er) as Hno;
            rewrite H in Hno; apply Hno in Hc; subst er; now apply Hcan
        end.
    + destruct err; injection Hs as <-; exists k; cbn; repeat split; auto; discriminate.
    + break_match Hs; injection Hs as <-; exists k; cbn; repeat split; auto;
        discriminate.
    + break_match Hs; injection Hs as <-; exists k; cbn; repeat split; auto;
        discriminate.
    + destruct deferred, err; injection Hs as <-; exists k; cbn; repeat split; auto;
        discriminate.
    + discriminate.
Qed.

Lemma reads_inv_exec rs0 sched : forall s,
  reads_inv rs0 s -> reads_inv rs0 (exec enc sched s).
Proof.
  induction sched as [| t sched IH]; intros s HI; cbn [exec]; [assumption |].
  apply IH. unfold step'. destruct (step enc t s) eqn:E; [| assumption].
  eapply reads_inv_step; eauto.
Qed.

Lemma reads_inv_Encode tmux rs : reads_inv rs (Encode enc tmux rs).
Proof. exists 0. cbn. auto. Qed.

End Direct.

Lemma mr_cost_ge rs : 3 <= mr_cost rs.
Proof. induction rs as [| [b |] rs IH]; cbn [mr_cost]; lia. Qed.

Lemma flush_cost_ge buf : 8 <= flush_cost buf.
Proof. unfold flush_cost. lia. Qed.

Lemma skipn_shorter (b : bytes) :
  b <> [] -> length (skipn copy_buf b) < length b.
Proof.
  intros Hb. rewrite length_skipn. pose proof copy_buf_pos.
  destruct b; [congruence |]. cbn [length]. lia.
Qed.

Lemma firstn_nil_inv (b : bytes) : firstn copy_buf b = [] -> b = [].
Proof.
  pose proof copy_buf_pos as H. destruct copy_buf; [lia |]. now destruct b.
Qed.

Lemma pipe_cost_rest rest w r (b : bytes) :
  length rest < length b ->
  pipe_cost (mkPipe (match rest with [] => Taken | _ :: _ => Offered rest end) w r)
  + 2 <= 2 * length b + 2.
Proof. unfold pipe_cost. destruct rest; cbn [p_wr length]; lia. Qed.

Section Cost.

Variable enc : Encoder.

(** A step of [Encode]'s own goroutine brings the end nearer. *)
Lemma main_step_cost s s' :
  step_main enc s = Some s' -> cost s' < cost s.
Proof.
  intros Hs. destruct s as [rd t e ip c out op dn ops u res].
  unfold step_main in Hs; proj.
  assert (Hfin : forall pc ip' out' op' dn',
            c_cost pc + pipe_cost ip' < c_cost c + pipe_cost ip ->
            cost (set_c (mkState rd t e ip c out op dn ops u res) pc ip' out' op' dn')
            < cost (mkState rd t e ip c out op dn ops u res)).
  { intros. unfold cost; proj. lia. }
  destruct c as [rs | d er rs | r | r | r]; try discriminate.
  - destruct rs as [| [[| x b] |] rs].
    + injection Hs as <-. apply Hfin. cbn. lia.
    + injection Hs as <-. apply Hfin. cbn. lia.
    + injection Hs as <-. apply Hfin. cbn [c_cost mr_cost].
      pose proof (skipn_shorter (x :: b) ltac:(discriminate)). lia.
    + unfold pipe_read in Hs. pose proof (mr_cost_ge rs).
      destruct (p_done ip).
      * cbn in Hs. destruct (readCloseError ip); injection Hs as <-; apply Hfin;
          cbn [c_cost mr_cost c_after_read]; lia.
      * destruct ip as [[| b |] w r]; try discriminate. proj.
        destruct (firstn copy_buf b) as [| y d'] eqn:Ed.
        -- apply firstn_nil_inv in Ed. subst b. injection Hs as <-. apply Hfin.
           rewrite skipn_nil. cbn. lia.
        -- assert (Hb : b <> []) by (intros ->; now rewrite firstn_nil in Ed).
           pose proof (pipe_cost_rest (skipn copy_buf b) w r b (skipn_shorter b Hb)).
           injection Hs as <-. apply Hfin. cbn [c_cost mr_cost].
           unfold pipe_cost at 2. cbn [p_wr]. lia.
  - pose proof (mr_cost_ge rs). destruct (enc_out enc out d) as [nw [e0 |]].
    + injection Hs as <-. apply Hfin. destruct er; cbn; lia.
    + destruct (nw =? length d); [| injection Hs as <-; apply Hfin; destruct er; cbn; lia].
      destruct er as [[] |]; injection Hs as <-; apply Hfin; cbn; lia.
  - destruct rd; [discriminate |]. injection Hs as <-. apply Hfin. cbn. lia.
  - injection Hs as <-. apply Hfin. cbn. lia.
Qed.

Lemma t_write_cost e cs fringe er rs :
  t_cost (fst (t_write e cs fringe er)) (snd (t_write e cs fringe er)) rs
  = chunk_cost cs + after_cost (script_cost rs) fringe er.
Proof.
  destruct cs as [| c cs]; cbn [t_write fst snd].
  - destruct er as [[] |]; reflexivity.
  - cbn [t_cost]. unfold chunk_cost. cbn [fold_right]. lia.
Qed.

Lemma t_enc_write_cost e d er rs :
  e_err e = None ->
  S (t_cost (fst (t_enc_write e d er)) (snd (t_enc_write e d er)) rs)
  = script_cost ((d, er) :: rs) (e_buf e).
Proof.
  intros He. unfold t_enc_write. cbn [script_cost]. destruct d as [| b d].
  - cbn [fst snd chunk_cost fold_right]. destruct er as [[] |]; reflexivity.
  - rewrite He. destruct (enc_chunks (e_buf e) (b :: d)) as [cs fr].
    now rewrite t_write_cost.
Qed.

Lemma transcode_step_cost s s' :
  coh s -> quiet s -> step_transcode s = Some s' -> cost s' < cost s /\ quiet s'.
Proof.
  intros Hc Hq Hs. destruct s as [rd t e ip c out op dn ops u res].
  destruct ip as [iwr iwerr irerr]; destruct op as [owr owerr orerr].
  unfold coh in Hc; proj. destruct Hc as (Hir & Hor & How & Hbuf & He & Ht & Hu).
  subst irerr orerr. unfold quiet in Hq; proj.
  assert (Hfin : forall rd' pc e' ip' op',
            pipe_cost ip' + t_cost pc e' (script_of rd')
            < pipe_cost (mkPipe iwr iwerr None) + t_cost t e (script_of rd) ->
            cost (set_t (mkState rd t e (mkPipe iwr iwerr None) c out
                                 (mkPipe owr owerr None) dn ops u res) rd' pc e' ip' op')
            < cost (mkState rd t e (mkPipe iwr iwerr None) c out
                            (mkPipe owr owerr None) dn ops u res)).
  { intros. unfold cost, script_of in *; proj. lia. }
  unfold step_transcode in Hs; proj.
  destruct t; cbn in Ht.
  - (* TRead *)
    destruct Ht as (-> & ->). specialize (He eq_refl).
    destruct rd as [[| [d er] rs] |].
    + cbn in Hs. injection Hs as <-. split; [| exact I]. apply Hfin. cbn. lia.
    + pose proof (t_enc_write_cost e d er rs He) as Hcost.
      destruct (t_enc_write e d er) as [pc e']. injection Hs as <-.
      split; [| exact I]. apply Hfin. cbn [fst snd script_of t_cost] in *.
      apply Nat.add_lt_mono_l. change (t_cost pc e' rs < script_cost ((d, er) :: rs) (e_buf e)).
      rewrite <- Hcost. lia.
    + subst owr. unfold pipe_read, p_done in Hs; proj.
      destruct How as [-> | ->]; [discriminate |]. cbn in Hs. injection Hs as <-.
      split; [| reflexivity]. apply Hfin. cbn. lia.
  - (* TWrite *)
    destruct Ht as (-> & -> & Hfr).
    unfold pipe_write_begin, p_done in Hs; proj. injection Hs as <-.
    split; [| exact Hq]. apply Hfin. cbn. lia.
  - (* TWriteWait *)
    destruct Ht as (Hwr & -> & Hfr).
    unfold pipe_write_wait, p_done in Hs; proj.
    destruct iwr as [| rest |]; try discriminate.
    pose proof (t_write_cost e cs fringe er (script_of rd)) as Hcost.
    destruct (t_write e cs fringe er) as [pc e']. injection Hs as <-.
    split; [| exact Hq]. apply Hfin. cbn [fst snd t_cost pipe_cost p_wr] in *. lia.
  - (* TCopyRet *)
    destruct Ht as (-> & ->). pose proof (flush_cost_ge (e_buf e)).
    destruct err; injection Hs as <-; (split; [| exact Hq]); apply Hfin; cbn; lia.
  - (* TEncClose *)
    destruct deferred.
    + destruct Ht as (-> & Ht). destruct iwerr as [w |]; [| congruence].
      unfold pipe_write_begin, p_done in Hs; proj.
      destruct (e_err e); [| destruct (close_chunks (e_buf e))]; injection Hs as <-;
        (split; [| exact Hq]); apply Hfin; cbn; lia.
    + destruct Ht as (-> & ->). specialize (He eq_refl). rewrite He in Hs.
      unfold pipe_write_begin, p_done in Hs; proj.
      destruct (e_buf e) as [| b l] eqn:Eb; cbn [close_chunks] in Hs; injection Hs as <-;
        (split; [| exact Hq]); apply Hfin; cbn [t_cost pipe_cost p_wr];
        unfold flush_cost; rewrite Eb; lia.
  - (* TEncCloseWait *)
    unfold pipe_write_wait, p_done in Hs; proj. destruct deferred.
    + destruct Ht as (-> & Ht). discriminate.
    + destruct Ht as (Hwr & ->). destruct iwr; try discriminate. injection Hs as <-.
      split; [| exact Hq]. apply Hfin. cbn. lia.
  - (* TEncClosed *)
    destruct deferred.
    + destruct Ht as (-> & Ht).
      destruct err; injection Hs as <-; (split; [| exact Hq]); apply Hfin; cbn; lia.
    + destruct Ht as (-> & ->).
      destruct err; injection Hs as <-; (split; [| exact Hq]); apply Hfin; cbn; lia.
  - discriminate.
Qed.

End Cost.

Section Progress.

Variable enc : Encoder.

(** While [Encode] is copying, a step of its goroutine touches only its own
    state, the log and the hand-off of its pipe. *)
Lemma step_main_coh s s' :
  coh s -> running s = true -> step_main enc s = Some s' ->
  coh s' /\ st_rd s' = st_rd s /\ st_t s' = st_t s /\ st_e s' = st_e s /\
  st_op s' = st_op s /\ st_dn s' = st_dn s /\ st_ops s' = st_ops s /\
  st_u s' = st_u s /\ st_res s' = st_res s /\
  match st_c s' with BDefer _ | BDone _ => False | _ => True end.
Proof.
  intros Hc Hrun Hs. destruct s as [rd t e ip c out op dn ops u res].
  destruct ip as [iwr iwerr irerr].
  unfold coh in Hc; proj. destruct Hc as (Hir & Hor & How & Hbuf & He & Ht & Hu).
  subst irerr. unfold running in Hrun; proj.
  assert (Hsame : forall pc out', match pc with BDefer _ | BDone _ => False | _ => True end ->
            let s' := mkState rd t e (mkPipe iwr iwerr None) pc out' op dn ops u res in
            coh s' /\ st_rd s' = rd /\ st_t s' = t /\ st_e s' = e /\
            st_op s' = op /\ st_dn s' = dn /\ st_ops s' = ops /\
            st_u s' = u /\ st_res s' = res /\
            match st_c s' with BDefer _ | BDone _ => False | _ => True end).
  { intros. unfold coh; cbn. repeat split; auto. }
  unfold step_main in Hs; proj.
  destruct c as [rs | d er rs | r | r | r]; try discriminate.
  - destruct rs as [| [[| x b] |] rs]; try (injection Hs as <-; apply Hsame; exact I).
    unfold pipe_read, p_done in Hs; proj. destruct iwerr as [w |].
    + cbn in Hs. destruct w; injection Hs as <-; apply Hsame; exact I.
    + destruct iwr as [| b |]; try discriminate.
      assert (Ht' : forall wr, wr <> Free -> coh_t t (mkPipe wr None None)).
      { intros wr Hwr. destruct t; cbn in Ht |- *; try tauto;
          try (destruct Ht as [Ht _]; discriminate);
          destruct deferred; try tauto; destruct Ht as [Ht _]; discriminate. }
      assert (Hrest : forall rest : bytes,
                 match rest with [] => Taken | _ :: _ => Offered rest end <> Free)
        by (intros []; discriminate).
      destruct (firstn copy_buf b); injection Hs as <-;
        unfold coh; proj; repeat split; auto.
  - destruct (enc_out enc out d) as [nw [e0 |]];
      [injection Hs as <-; apply Hsame; exact I |].
    destruct (nw =? length d); [| injection Hs as <-; apply Hsame; exact I].
    destruct er as [[] |]; injection Hs as <-; apply Hsame; exact I.
Qed.

(** With a caller's reader, whenever [Encode] waits for its pipe the
    transcode goroutine can move. *)
Lemma transcode_progress s :
  coh s -> quiet s -> running s = true -> step_main enc s = None ->
  (st_rd s = PipeReader -> p_werr (st_op s) <> None) ->
  step_transcode s <> None.
Proof.
  intros Hc Hq Hrun Hs Hsrc. destruct s as [rd t e ip c out op dn ops u res].
  destruct ip as [iwr iwerr irerr].
  unfold coh in Hc; proj. destruct Hc as (Hir & Hor & How & Hbuf & He & Ht & Hu).
  subst irerr. unfold running in Hrun; proj. unfold quiet in Hq; proj.
  unfold step_main in Hs; proj.
  destruct c as [rs | d er rs | r | r | r]; try discriminate.
  2:{ destruct (enc_out enc out d) as [nw ew]. discriminate. }
  destruct rs as [| [[| x b] |] rs]; try discriminate.
  unfold pipe_read, p_done in Hs; proj.
  destruct iwerr as [w |]; [cbn in Hs; destruct w; discriminate |].
  specialize (He eq_refl).
  assert (Hno : forall b, iwr <> Offered b)
    by (intros b ->; cbn in Hs; destruct (firstn copy_buf b); discriminate).
  clear Hs.
  unfold step_transcode, pipe_write_begin, pipe_write_wait, p_done; proj.
  destruct t; cbn in Ht.
  - destruct rd as [[| [d er] rs'] |].
    + destruct (t_enc_write e [] (Some EOF)); discriminate.
    + destruct (t_enc_write e d er); discriminate.
    + unfold pipe_read, p_done. destruct op as [owr owerr orerr]. proj. subst.
      destruct owerr; [| now contradiction Hsrc].
      destruct (t_enc_write e [] _); discriminate.
  - destruct Ht as (-> & _). discriminate.
  - destruct Ht as (Hwr & _). destruct iwr as [| b |]; try congruence;
      try (now contradiction (Hno b)).
    destruct (t_write e cs fringe er); discriminate.
  - destruct err; discriminate.
  - destruct deferred; [destruct Ht as (_ & Ht); congruence |].
    rewrite He. destruct (close_chunks (e_buf e)); discriminate.
  - destruct deferred; [destruct Ht as (_ & Ht); congruence |].
    destruct Ht as (Hwr & _). destruct iwr as [| b |]; try congruence;
      try (now contradiction (Hno b)); discriminate.
  - destruct deferred; [destruct Ht as (_ & Ht); congruence |].
    destruct err; discriminate.
  - destruct Ht as (_ & Ht). congruence.
Qed.

End Progress.

Lemma write_ok_reliable snk h d : reliable snk -> write_ok snk h d = true.
Proof. intros H. unfold write_ok. rewrite H. apply Nat.eqb_refl. Qed.

Lemma finished_reliable snk P out r :
  reliable snk -> finished snk P out r -> P = (concat out, Some r).
Proof.
  intros Hrel [(_ & H) | (pre & d & _ & _ & Hno & _)]; [assumption |].
  now rewrite write_ok_reliable in Hno.
Qed.

Section Liveness.

Variable enc : Encoder.
Variable P : bytes * term.

Lemma caller_step_live s s' :
  live enc P s -> step_caller s = Some s' -> live enc P s' /\ cost s' < cost s.
Proof.
  intros (Hc & Hq & Hcl & Hnw & Hop & Hbg & Hrel) Hs.
  destruct (step_caller_keeps s s' Hc Hs) as (Hc' & _).
  destruct (step_caller_frame s s' Hs) as (Hcc & Hout & Hdn & Hrd & Ht & Hip & He).
  assert (Hbg' : bg s') by (unfold bg in *; now rewrite Hcc, Hdn, Hrd).
  destruct s as [rd t e ip c out [owr owerr orerr] dn ops u res].
  unfold step_caller, PipeWriter_Close, closeWrite in Hs; proj.
  unfold quiet in *; proj.
  assert (Hfin : forall op' ops' u' res',
            u_cost ops' u' < u_cost ops u ->
            cost (set_u (mkState rd t e ip c out (mkPipe owr owerr orerr) dn ops u res)
                        op' ops' u' res')
            < cost (mkState rd t e ip c out (mkPipe owr owerr orerr) dn ops u res)).
  { intros. unfold cost; proj. lia. }
  destruct ops as [| o ops]; [discriminate |].
  cbn [forallb] in Hcl. apply andb_true_iff in Hcl. destruct Hcl as (Ho & Hcl).
  destruct o; [discriminate |].
  destruct u.
  - injection Hs as <-. split; [| apply Hfin; cbn; lia].
    unfold live, quiet; proj. split; [exact Hc' |]. split; [exact Hq |].
    split; [cbn; now rewrite Hcl |]. split; [discriminate |].
    split; [| split; [exact Hbg' | exact Hrel]].
    intros _ Hw. cbn in Hw. destruct owerr; discriminate.
  - now contradiction (Hnw total).
  - destruct dn; [| discriminate]. injection Hs as <-.
    split; [| apply Hfin; cbn; lia].
    unfold live, quiet; proj. split; [exact Hc' |]. split; [exact Hq |].
    split; [exact Hcl |]. split; [discriminate |].
    split; [| split; [exact Hbg' | exact Hrel]].
    intros _ Hw. unfold coh in Hc; proj. destruct Hc as (_ & _ & _ & _ & _ & _ & Hu).
    cbn in Hu. destruct Hu as (_ & Hu). congruence.
Qed.

Lemma transcode_step_live s s' :
  live enc P s -> step_transcode s = Some s' -> live enc P s' /\ cost s' < cost s.
Proof.
  intros (Hc & Hq & Hcl & Hnw & Hop & Hbg & Hrel) Hs.
  destruct (step_transcode_keeps s s' Hc Hs) as (Hc' & _).
  destruct (transcode_step_cost s s' Hc Hq Hs) as (Hcost & Hq').
  destruct (step_transcode_frame s s' Hs) as (Hcc & _ & Hdn & _ & Hops & Hu).
  destruct (step_transcode_op s s' Hs) as (Hw & _).
  split; [| assumption]. unfold live. rewrite Hops, Hu, Hw.
  assert (Hrd : st_rd s' = PipeReader -> st_rd s = PipeReader).
  { unfold step_transcode in Hs. intros Hr.
    destruct (st_rd s); [| reflexivity].
    destruct (st_t s); break_match Hs; try discriminate; injection Hs as <-;
      cbn in Hr; discriminate. }
  assert (Hrd' : st_rd s = PipeReader -> st_rd s' = PipeReader).
  { unfold step_transcode in Hs. intros Hr. rewrite Hr in Hs.
    destruct (st_t s); break_match Hs; try discriminate; injection Hs as <-;
      cbn; auto. }
  split; [exact Hc' |]. split; [exact Hq' |]. split; [exact Hcl |]. split; [exact Hnw |].
  split; [intros Hr; apply Hop; auto |]. split; [| auto].
  unfold bg in *. rewrite Hcc, Hdn.
  destruct (st_c s); try assumption.
  - destruct Hbg as (? & Hr). split; auto.
  - destruct Hbg as (? & ? & Hr). auto.
  - destruct Hbg as (? & ? & Hr). auto.
Qed.

Lemma main_step_live s s' :
  Inv enc P s -> live enc P s -> step_main enc s = Some s' -> live enc P s'.
Proof.
  intros HI (Hc & Hq & Hcl & Hnw & Hop & Hbg & Hrel) Hs.
  pose proof (Inv_step enc P Main s s' HI Hs) as HI'.
  destruct (running s) eqn:Hrun.
  - destruct (step_main_coh enc s s' Hc Hrun Hs)
      as (Hc' & Hrd & Ht & He & Ho & Hdn & Hops & Hu & Hres & Hnb).
    unfold live, quiet. rewrite Hrd, Ho, Hops, Hu.
    split; [exact Hc' |]. split; [exact Hq |]. split; [exact Hcl |].
    split; [exact Hnw |]. split; [exact Hop |]. split; [| exact Hrel].
    assert (Hd : st_dn s = false).
    { unfold bg, running in *. destruct (st_c s); try discriminate; assumption. }
    unfold bg. rewrite Hdn, Hrd.
    destruct (st_c s') as [| | r | |] eqn:Ec; try assumption; try contradiction.
    split; [assumption |]. intros Hp. destruct (Hrel Hp) as (Hr & HP).
    unfold Inv, running in HI'. rewrite Ec in HI'. destruct HI' as (r' & Hr' & Hfin).
    cbn in Hr'. injection Hr' as <-.
    apply (finished_reliable _ _ _ _ Hr) in Hfin. rewrite Hfin in HP. cbn in HP.
    congruence.
  - destruct s as [rd t e ip c out op dn ops u res].
    unfold running in Hrun; proj. unfold step_main in Hs; proj. unfold bg in Hbg; proj.
    unfold quiet in Hq; proj.
    destruct c as [| | r | r | r]; try discriminate.
    + destruct rd; [discriminate |]. destruct Hbg as (Hd & Hr).
      rewrite (Hr eq_refl) in Hs. injection Hs as <-.
      unfold live, quiet, bg, coh in *; proj. repeat split; try tauto; apply Hop; auto.
    + destruct Hbg as (Hd & -> & ->). injection Hs as <-.
      unfold live, quiet, bg, coh in *; proj. repeat split; try tauto; apply Hop; auto.
Qed.

Lemma step'_live t s :
  Inv enc P s -> live enc P s ->
  Inv enc P (step' enc t s) /\ live enc P (step' enc t s) /\
  cost (step' enc t s) <= cost s /\
  (step enc t s <> None -> cost (step' enc t s) < cost s).
Proof.
  intros HI HL. split; [now apply Inv_step' |].
  unfold step'. destruct (step enc t s) as [s' |] eqn:E.
  2:{ split; [assumption |]. split; [lia | congruence]. }
  destruct t; cbn [step] in E.
  - destruct (caller_step_live s s' HL E). split; [assumption |]. split; [lia | auto].
  - pose proof (main_step_live s s' HI HL E). pose proof (main_step_cost enc s s' E).
    split; [assumption |]. split; [lia | auto].
  - destruct (transcode_step_live s s' HL E). split; [assumption |]. split; [lia | auto].
Qed.

(** Unless nothing is left to do, one of the goroutines can move. *)
Lemma live_progress s :
  live enc P s -> settled s = false ->
  step enc Main s = None -> step enc Transcode s = None -> step enc Caller s <> None.
Proof.
  intros (Hc & Hq & Hcl & Hnw & Hop & Hbg & Hrel) Hset Hm Ht. cbn [step] in *.
  unfold settled in Hset. destruct (st_rd s) eqn:Hrd.
  - apply negb_false_iff in Hset.
    contradiction (transcode_progress enc s Hc Hq Hset Hm). congruence.
  - destruct (st_ops s) as [| o ops] eqn:Hops; [discriminate |].
    cbn [forallb] in Hcl. apply andb_true_iff in Hcl. destruct Hcl as (Ho & _).
    destruct o; [discriminate |].
    unfold step_caller. rewrite Hops.
    destruct (st_u s) eqn:Hu; [discriminate | now contradiction (Hnw total) |].
    assert (Hw : p_werr (st_op s) <> None).
    { unfold coh in Hc. rewrite Hu in Hc. cbn in Hc. tauto. }
    destruct (st_dn s) eqn:Hd; [discriminate |]. exfalso.
    unfold bg in Hbg. unfold step_main in Hm. rewrite Hrd in Hm.
    destruct (st_c s) eqn:Ec; try discriminate; try (destruct Hbg; congruence).
    + apply (transcode_progress enc s Hc Hq); auto.
      * unfold running. now rewrite Ec.
      * unfold step_main. now rewrite Ec.
    + apply (transcode_progress enc s Hc Hq); auto.
      * unfold running. now rewrite Ec.
      * unfold step_main. now rewrite Ec.
Qed.

Lemma round_live s :
  Inv enc P s -> live enc P s -> settled s = false ->
  Inv enc P (round enc s) /\ live enc P (round enc s) /\ cost (round enc s) < cost s.
Proof.
  intros HI HL Hset. unfold round.
  destruct (step'_live Main s HI HL) as (HI1 & HL1 & Hle1 & Hlt1).
  destruct (step'_live Transcode _ HI1 HL1) as (HI2 & HL2 & Hle2 & Hlt2).
  destruct (step'_live Caller _ HI2 HL2) as (HI3 & HL3 & Hle3 & Hlt3).
  split; [assumption |]. split; [assumption |].
  destruct (step enc Main s) eqn:Em; [specialize (Hlt1 ltac:(discriminate)); lia |].
  assert (E1 : step' enc Main s = s) by (unfold step'; now rewrite Em).
  rewrite E1 in *.
  destruct (step enc Transcode s) eqn:Et; [specialize (Hlt2 ltac:(discriminate)); lia |].
  assert (E2 : step' enc Transcode s = s) by (unfold step'; now rewrite Et).
  rewrite E2 in *.
  specialize (Hlt3 (live_progress s HL Hset Em Et)). lia.
Qed.

Lemma settles n : forall s,
  cost s <= n -> Inv enc P s -> live enc P s ->
  exists m, settled (run enc m s) = true /\ Inv enc P (run enc m s)
            /\ live enc P (run enc m s).
Proof.
  induction n as [| n IH]; intros s Hn HI HL.
  - destruct (settled s) eqn:Hset; [exists 0; cbn; auto |].
    destruct (round_live s HI HL Hset) as (_ & _ & Hlt). lia.
  - destruct (settled s) eqn:Hset; [exists 0; cbn; auto |].
    destruct (round_live s HI HL Hset) as (HI' & HL' & Hlt).
    destruct (IH (round enc s) ltac:(lia) HI' HL') as (m & Hm).
    exists (S m). exact Hm.
Qed.

End Liveness.

Lemma live_Encode enc tmux rs :
  live enc (plan (Encode enc tmux rs)) (Encode enc tmux rs).
Proof.
  unfold live, Encode. split; [apply coh_init |]. cbn.
  repeat split; auto; discriminate.
Qed.

Lemma plan_Writer enc tmux ops :
  plan (Writer enc tmux ops) = frame enc tmux (fst (ops_fut ops)) (snd (ops_fut ops)).
Proof.
  unfold plan, Writer, body_fut, src_fut, written, multi; proj. cbn [concat app].
  destruct (ops_fut ops) as [x t] eqn:E.
  cbn [t_fut c_fut mr_fut fst snd e_buf NewEncoder app].
  assert (Ht : t = None \/ t = Some None).
  { revert x t E. induction ops as [| [p |] ops IH]; cbn [ops_fut]; intros x t E.
    - inv E. auto.
    - destruct (ops_fut ops) as [x' t']. inv E. eapply IH; eauto.
    - inv E. auto. }
  destruct Ht as [-> | ->]; cbn; [reflexivity |]. now rewrite app_nil_r.
Qed.

Lemma live_Writer enc tmux ops :
  reliable (enc_out enc) -> forallb is_close ops = true ->
  live enc (plan (Writer enc tmux (UClose :: ops))) (Writer enc tmux (UClose :: ops)).
Proof.
  intros Hrel Hcl. unfold live. split; [apply coh_init |].
  rewrite plan_Writer. cbn. repeat split; auto; discriminate.
Qed.

Section Schedules.

Variable enc : Encoder.
Variable I : state -> Prop.
Hypothesis I_step : forall t s s', I s -> step enc t s = Some s' -> I s'.

Lemma step'_inv t s : I s -> I (step' enc t s).
Proof.
  intros H. unfold step'. destruct (step enc t s) eqn:E; [| assumption].
  eapply I_step; eauto.
Qed.

Lemma exec_inv sched : forall s, I s -> I (exec enc sched s).
Proof.
  induction sched as [| t sched IH]; intros s H; cbn [exec]; [assumption |].
  apply IH. now apply step'_inv.
Qed.

Lemma run_inv n : forall s, I s -> I (run enc n s).
Proof.
  induction n as [| n IH]; intros s H; cbn [run]; [assumption |].
  apply IH. now repeat apply step'_inv.
Qed.

End Schedules.

Section More.

Variable enc : Encoder.

Lemma direct_step t s s' : direct s -> step enc t s = Some s' -> direct s'.
Proof.
  intros (Hsc & Hc) Hs. unfold direct. destruct t; cbn [step] in Hs.
  - destruct (step_caller_frame s s' Hs) as (Hcc & _ & _ & Hrd & _).
    unfold is_script. rewrite Hcc, Hrd. auto.
  - destruct Hsc as (rs & Hrd). unfold step_main in Hs. rewrite Hrd in Hs.
    cbv zeta in Hs.
    destruct (st_c s); try contradiction; break_match Hs; try discriminate;
      injection Hs as <-; unfold is_script; cbn; rewrite ?Hrd; eauto;
      match goal with
      | |- _ /\ match c_after_read ?er _ with _ => _ end =>
          split; [eauto | destruct er as [[] |]; exact I]
      | _ => idtac
      end.
  - destruct (step_transcode_frame s s' Hs) as (Hcc & _).
    rewrite Hcc. split; [eauto using step_transcode_script | assumption].
Qed.

Lemma direct_Encode tmux rs : direct (Encode enc tmux rs).
Proof. split; [now exists rs | exact I]. Qed.

Lemma direct_returned s r : direct s -> result_of (st_c s) = Some r -> returned s = Some r.
Proof.
  intros (_ & Hc). unfold returned. destruct (st_c s); try discriminate; tauto.
Qed.

(** Once [Encode] has returned to its caller nothing more is written. *)
Lemma direct_frozen t s s' r :
  direct s -> returned s = Some r -> step enc t s = Some s' ->
  st_out s' = st_out s /\ returned s' = Some r.
Proof.
  intros (Hsc & _) Hr Hs. unfold returned in *. destruct t; cbn [step] in Hs.
  - destruct (step_caller_frame s s' Hs) as (-> & -> & _). auto.
  - destruct Hsc as (rs & Hrd). unfold step_main in Hs. rewrite Hrd in Hs.
    destruct (st_c s); discriminate.
  - destruct (step_transcode_frame s s' Hs) as (-> & -> & _). auto.
Qed.

Lemma direct_frozen_exec sched : forall s r,
  direct s -> returned s = Some r ->
  st_out (exec enc sched s) = st_out s /\ returned (exec enc sched s) = Some r.
Proof.
  induction sched as [| t sched IH]; intros s r Hd Hr; cbn [exec]; [auto |].
  unfold step'. destruct (step enc t s) as [s' |] eqn:E; [| now apply IH].
  destruct (direct_frozen t s s' r Hd Hr E) as (Ho & Hr').
  destruct (IH s' r (direct_step t s s' Hd E) Hr') as (Ho' & Hr'').
  split; [congruence | assumption].
Qed.

Lemma closes_inv_step n t s s' :
  closes_inv n s -> step enc t s = Some s' -> closes_inv n s'.
Proof.
  intros (Hcl & Hnw & Hle & Hres) Hs. unfold closes_inv. destruct t; cbn [step] in Hs.
  - destruct s as [rd t e ip c out op dn ops u res].
    unfold step_caller, PipeWriter_Close in Hs; proj.
    destruct ops as [| o ops]; [discriminate |].
    cbn [forallb] in Hcl. apply andb_true_iff in Hcl. destruct Hcl as (Ho & Hcl).
    destruct o; [discriminate |]. cbn [length] in *.
    destruct u.
    + injection Hs as <-. proj. cbn [forallb is_close length].
      rewrite Hcl. repeat split; auto. discriminate.
    + now contradiction (Hnw total).
    + destruct dn; [| discriminate]. injection Hs as <-. proj.
      repeat split; auto; try discriminate; try lia.
      rewrite Hres. replace (n - length ops) with (S (n - S (length ops))) by lia.
      cbn [repeat]. symmetry. apply repeat_cons.
  - assert (st_ops s' = st_ops s /\ st_u s' = st_u s /\ st_res s' = st_res s)
      as (-> & -> & ->); [| auto].
    unfold step_main in Hs. cbv zeta in Hs.
    destruct (st_c s); break_match Hs; try discriminate; injection Hs as <-; auto.
  - destruct (step_transcode_frame s s' Hs) as (_ & _ & _ & -> & -> & ->). auto.
Qed.

Lemma closes_inv_Writer tmux ops :
  forallb is_close ops = true -> closes_inv (length ops) (Writer enc tmux ops).
Proof.
  intros H. unfold closes_inv, Writer; cbn. rewrite Nat.sub_diag.
  repeat split; auto. discriminate.
Qed.

(** *** The log of the destination *)

Lemma accepts_app snk l1 l2 : accepts snk (l1 ++ l2) = true -> accepts snk l1 = true.
Proof.
  revert l1. induction l2 as [| d l2 IH] using rev_ind; intros l1 H.
  - now rewrite app_nil_r in H.
  - rewrite app_assoc, accepts_snoc in H. apply andb_true_iff in H. now apply IH.
Qed.

Lemma accepts_mid snk pre d post :
  accepts snk (pre ++ d :: post) = true -> write_ok snk pre d = true.
Proof.
  intros H. change (pre ++ d :: post) with (pre ++ [d] ++ post) in H.
  rewrite app_assoc in H. apply accepts_app in H.
  rewrite accepts_snoc in H. now apply andb_true_iff in H.
Qed.

(** A write that the destination refused is the last of the log, and
    [Encode] has returned its error. *)
Lemma refused_last s P pre d post :
  Inv enc P s -> st_out s = pre ++ d :: post ->
  write_ok (enc_out enc) pre d = false ->
  post = [] /\ result_of (st_c s) = Some (Some (write_err (enc_out enc) pre d)).
Proof.
  intros HI Hout Hno. unfold Inv in HI. destruct (running s).
  - destruct HI as (_ & Hacc & _). rewrite Hout in Hacc.
    apply accepts_mid in Hacc. congruence.
  - destruct HI as (r & Hr & [(Hacc & _) | (pre' & d' & Ho & Hacc & Hno' & -> & _)]).
    + rewrite Hout in Hacc. apply accepts_mid in Hacc. congruence.
    + rewrite Hout in Ho. destruct post as [| x post] using rev_ind.
      * apply app_inj_tail in Ho. destruct Ho as (-> & ->). auto.
      * clear IHpost. change (pre ++ d :: post ++ [x]) with (pre ++ (d :: post) ++ [x]) in Ho.
        rewrite app_assoc in Ho. apply app_inj_tail in Ho. destruct Ho as (<- & _).
        apply accepts_mid in Hacc. congruence.
Qed.

End More.

Lemma reliable_discard : reliable discard.
Proof. intros h d. reflexivity. Qed.

Section Outcome.

Variable enc : Encoder.

(** What a call of [Encode] that has returned has done. *)
Lemma Encode_outcome tmux rs sched r :
  returned (exec enc sched (Encode enc tmux rs)) = Some r ->
  finished (enc_out enc) (frame enc tmux (input rs) (ending rs))
           (st_out (exec enc sched (Encode enc tmux rs))) r.
Proof.
  intros Hr. pose proof (Inv_exec enc _ sched _ (Inv_Encode enc tmux rs)) as HI.
  rewrite plan_Encode in HI. unfold Inv, running, returned in *.
  destruct (st_c (exec enc sched (Encode enc tmux rs))); try discriminate.
  destruct HI as (r' & Hr' & Hfin). cbn in Hr'. injection Hr as <-.
  injection Hr' as <-. exact Hfin.
Qed.

Lemma Encode_success tmux rs sched :
  returned (exec enc sched (Encode enc tmux rs)) = Some None ->
  written (exec enc sched (Encode enc tmux rs))
  = header tmux (enc_options enc) ++ Base64.Encode (input rs) ++ footerEscape tmux
  /\ ending rs = Some None.
Proof.
  intros Hr. destruct (Encode_outcome tmux rs sched None Hr)
    as [(_ & H) | (pre & d & _ & _ & _ & H & _)]; [| discriminate].
  unfold frame in H. unfold written.
  destruct (ending rs) as [[e |] |]; inv H; auto.
Qed.

End Outcome.

(** C2. A successful [Encode] writes the header, then the padded base64
    encoding of the bytes of the source, then the footer, and nothing else;
    decoding what lies between header and footer gives the bytes back. *)
Theorem Encode_roundtrip (enc : Encoder) (tmux : bool) (rs : list read_result)
    (sched : list tid) :
  returned (exec enc sched (Encode enc tmux rs)) = Some None ->
  exists b,
    written (exec enc sched (Encode enc tmux rs))
    = header tmux (enc_options enc) ++ b ++ footerEscape tmux /\
    b = Base64.Encode (input rs) /\
    Base64.Decode b = Some (input rs).
Proof.
  intros Hr. destruct (Encode_success enc tmux rs sched Hr) as (Hw & _).
  exists (Base64.Encode (input rs)). split; [exact Hw |]. split; [reflexivity |].
  apply Decode_Encode.
Qed.

Lemma Encode_roundtrip_witness :
  exists b,
    written (exec (mkEnc discard [Size 5]) (rounds 16)
               (Encode (mkEnc discard [Size 5]) true
                  [(bytes_of "he", None); (bytes_of "llo", Some EOF)]))
    = header true [Size 5] ++ b ++ footerEscape true /\
    b = Base64.Encode (bytes_of "hello") /\
    Base64.Decode b = Some (bytes_of "hello").
Proof.
  apply (Encode_roundtrip (mkEnc discard [Size 5]) true
           [(bytes_of "he", None); (bytes_of "llo", Some EOF)] (rounds 16)).
  vm_compute. reflexivity.
Defined.

Lemma run_rounds enc n : forall s, run enc n s = exec enc (rounds n) s.
Proof.
  induction n as [| n IH]; intros s; [reflexivity |].
  cbn [run]. rewrite IH. reflexivity.
Qed.

(** Under the fair scheduler every call of [Encode] on a caller's reader
    returns. *)
Lemma Encode_returns enc tmux rs :
  exists n r, returned (run enc n (Encode enc tmux rs)) = Some r.
Proof.
  destruct (settles enc _ (cost (Encode enc tmux rs)) (Encode enc tmux rs)
              (le_n _) (Inv_Encode enc tmux rs) (live_Encode enc tmux rs))
    as (m & Hset & HI & _).
  exists m.
  pose proof (run_inv enc direct (direct_step enc) m _ (direct_Encode enc tmux rs)) as Hd.
  unfold settled in Hset. destruct Hd as ((rs' & Hrd) & Hc). rewrite Hrd in Hset.
  apply negb_true_iff in Hset. unfold running in Hset. unfold returned.
  destruct (st_c (run enc m (Encode enc tmux rs))); try discriminate; try contradiction.
  eauto.
Qed.

(** C3. With the options width=80, height=24, inline=1, outside tmux, and a
    source that delivers "AB", a successful [Encode] writes
    ESC ] 1337 ; File = width=80;height=24;inline=1 : then QUI= then
    BEL and a line feed, byte for byte. *)
Theorem Encode_example (snk : sink) (rs : list read_result) (sched : list tid) :
  input rs = bytes_of "AB" ->
  returned (exec (mkEnc snk example_options) sched
              (Encode (mkEnc snk example_options) false rs)) = Some None ->
  header false example_options
    = ESC :: bytes_of "]1337;File=width=80;height=24;inline=1:" /\
  Base64.Encode (input rs) = bytes_of "QUI=" /\
  footerEscape false = [BEL; LF] /\
  written (exec (mkEnc snk example_options) sched
             (Encode (mkEnc snk example_options) false rs))
    = ESC :: bytes_of "]1337;File=width=80;height=24;inline=1:"
      ++ bytes_of "QUI=" ++ [BEL; LF].
Proof.
  intros Hin Hr.
  destruct (Encode_success _ false rs sched Hr) as (Hw & _).
  rewrite Hw, Hin. cbn [enc_options]. repeat split; vm_compute; reflexivity.
Qed.

Lemma Encode_example_witness :
  header false example_options
    = ESC :: bytes_of "]1337;File=width=80;height=24;inline=1:" /\
  Base64.Encode (input [(bytes_of "AB", None)]) = bytes_of "QUI=" /\
  footerEscape false = [BEL; LF] /\
  written (exec (mkEnc discard example_options) (rounds 16)
             (Encode (mkEnc discard example_options) false [(bytes_of "AB", None)]))
    = ESC :: bytes_of "]1337;File=width=80;height=24;inline=1:"
      ++ bytes_of "QUI=" ++ [BEL; LF].
Proof.
  apply (Encode_example discard [(bytes_of "AB", None)] (rounds 16));
    vm_compute; reflexivity.
Defined.

(** C4. The outputs of two successful calls of [Encode] on the same
    options and source, one inside tmux and one outside, are the same
    attribute list and the same base64 body between different introducers
    and terminators. *)
Theorem Encode_tmux_framing (enc : Encoder) (rs : list read_result)
    (sched1 sched2 : list tid) :
  returned (exec enc sched1 (Encode enc true rs)) = Some None ->
  returned (exec enc sched2 (Encode enc false rs)) = Some None ->
  exists attrs b,
    written (exec enc sched1 (Encode enc true rs))
    = (ESC :: bytes_of "Ptmux;" ++ ESC :: ESC :: bytes_of "]1337;File=")
      ++ attrs ++ b ++ [BEL; ESC; "\"%byte; LF] /\
    written (exec enc sched2 (Encode enc false rs))
    = (ESC :: bytes_of "]1337;File=") ++ attrs ++ b ++ [BEL; LF] /\
    attrs = join_options (enc_options enc) ++ bytes_of ":" /\
    b = Base64.Encode (input rs).
Proof.
  intros H1 H2.
  destruct (Encode_success enc true rs sched1 H1) as (Hw1 & _).
  destruct (Encode_success enc false rs sched2 H2) as (Hw2 & _).
  exists (join_options (enc_options enc) ++ bytes_of ":"), (Base64.Encode (input rs)).
  rewrite Hw1, Hw2. unfold header, headerEscape, footerEscape.
  repeat split; now rewrite <- ?app_assoc.
Qed.

Lemma Encode_tmux_framing_witness :
  exists attrs b,
    written (exec (mkEnc discard example_options) (rounds 16)
               (Encode (mkEnc discard example_options) true [(bytes_of "AB", None)]))
    = (ESC :: bytes_of "Ptmux;" ++ ESC :: ESC :: bytes_of "]1337;File=")
      ++ attrs ++ b ++ [BEL; ESC; "\"%byte; LF] /\
    written (exec (mkEnc discard example_options) (rounds 16)
               (Encode (mkEnc discard example_options) false [(bytes_of "AB", None)]))
    = (ESC :: bytes_of "]1337;File=") ++ attrs ++ b ++ [BEL; LF] /\
    attrs = join_options example_options ++ bytes_of ":" /\
    b = Base64.Encode (bytes_of "AB").
Proof.
  apply (Encode_tmux_framing (mkEnc discard example_options) [(bytes_of "AB", None)]
           (rounds 16) (rounds 16));
    vm_compute; reflexivity.
Defined.

Lemma Encode_nil : Base64.Encode [] = [].
Proof. reflexivity. Qed.

Lemma piped_step enc t s s' :
  st_rd s = PipeReader -> step enc t s = Some s' -> st_rd s' = PipeReader.
Proof.
  intros Hrd Hs. destruct t; cbn [step] in Hs.
  - destruct (step_caller_frame s s' Hs) as (_ & _ & _ & -> & _). assumption.
  - unfold step_main in Hs. cbv zeta in Hs.
    destruct (st_c s); break_match Hs; try discriminate; injection Hs as <-; auto.
  - unfold step_transcode in Hs. rewrite Hrd in Hs.
    destruct (st_t s); break_match Hs; try discriminate; injection Hs as <-; auto.
Qed.

(** What a handle whose [Close] has returned has done, when the
    destination is reliable. *)
Lemma Writer_outcome enc tmux ops sched r :
  reliable (enc_out enc) ->
  In (RClose r) (st_res (exec enc sched (Writer enc tmux ops))) ->
  exists e,
    st_c (exec enc sched (Writer enc tmux ops)) = BDone e /\
    frame enc tmux (fst (ops_fut ops)) (snd (ops_fut ops))
    = (written (exec enc sched (Writer enc tmux ops)), Some e).
Proof.
  intros Hrel Hin.
  pose proof (handle_inv_exec enc sched _ (handle_inv_Writer enc tmux ops))
    as (Hres & Hdn & _).
  destruct (Hres r Hin) as (_ & Hd). destruct (Hdn Hd) as (e & Hc).
  pose proof (Inv_exec enc _ sched _ (Inv_Writer enc tmux ops)) as HI.
  rewrite plan_Writer in HI. unfold Inv, running in HI. rewrite Hc in HI.
  destruct HI as (e' & He & Hfin). cbn in He. injection He as <-.
  exists e. split; [exact Hc |]. now apply (finished_reliable _ _ _ _ Hrel).
Qed.

(** C5. A source without bytes: [Encode] on a reader that delivers nothing
    and ends cleanly, or a handle that is closed without a [Write], succeeds
    and writes the header immediately followed by the footer. *)
Theorem empty_source (enc : Encoder) (tmux : bool) (rs : list read_result) :
  reliable (enc_out enc) -> input rs = [] -> ending rs = Some None ->
  (exists n,
     returned (run enc n (Encode enc tmux rs)) = Some None /\
     written (run enc n (Encode enc tmux rs))
     = header tmux (enc_options enc) ++ footerEscape tmux) /\
  (forall sched r,
     returned (exec enc sched (Encode enc tmux rs)) = Some r ->
     r = None /\
     written (exec enc sched (Encode enc tmux rs))
     = header tmux (enc_options enc) ++ footerEscape tmux) /\
  (exists n,
     st_res (run enc n (Writer enc tmux [UClose])) = [RClose None] /\
     st_c (run enc n (Writer enc tmux [UClose])) = BDone None /\
     written (run enc n (Writer enc tmux [UClose]))
     = header tmux (enc_options enc) ++ footerEscape tmux) /\
  (forall sched r,
     In (RClose r) (st_res (exec enc sched (Writer enc tmux [UClose]))) ->
     r = None /\
     st_c (exec enc sched (Writer enc tmux [UClose])) = BDone None /\
     written (exec enc sched (Writer enc tmux [UClose]))
     = header tmux (enc_options enc) ++ footerEscape tmux).
Proof.
  intros Hrel Hin Hend.
  assert (Hdirect : forall sched r,
            returned (exec enc sched (Encode enc tmux rs)) = Some r ->
            r = None /\
            written (exec enc sched (Encode enc tmux rs))
            = header tmux (enc_options enc) ++ footerEscape tmux).
  { intros sched r Hr. pose proof (Encode_outcome enc tmux rs sched r Hr) as Hfin.
    apply (finished_reliable _ _ _ _ Hrel) in Hfin.
    rewrite Hin, Hend in Hfin. cbn [frame] in Hfin. rewrite Encode_nil in Hfin.
    unfold written. inv Hfin. auto. }
  assert (Hhandle : forall sched r,
            In (RClose r) (st_res (exec enc sched (Writer enc tmux [UClose]))) ->
            r = None /\
            st_c (exec enc sched (Writer enc tmux [UClose])) = BDone None /\
            written (exec enc sched (Writer enc tmux [UClose]))
            = header tmux (enc_options enc) ++ footerEscape tmux).
  { intros sched r Hr.
    destruct (Writer_outcome enc tmux [UClose] sched r Hrel Hr) as (e & Hc & Hf).
    pose proof (handle_inv_exec enc sched _ (handle_inv_Writer enc tmux [UClose]))
      as (Hres & _).
    destruct (Hres r Hr) as (-> & _).
    cbn [ops_fut fst snd frame] in Hf. rewrite Encode_nil in Hf.
    inv Hf. auto. }
  split; [| split; [exact Hdirect | split; [| exact Hhandle]]].
  - destruct (Encode_returns enc tmux rs) as (n & r & Hr). exists n.
    rewrite run_rounds in *. destruct (Hdirect _ _ Hr) as (-> & Hw). auto.
  - destruct (settles enc _ (cost (Writer enc tmux [UClose])) (Writer enc tmux [UClose])
                (le_n _) (Inv_Writer enc tmux [UClose])
                (live_Writer enc tmux [] Hrel eq_refl))
      as (m & Hset & _ & _).
    exists m.
    pose proof (run_inv enc _ (piped_step enc) m (Writer enc tmux [UClose]) eq_refl)
      as Hrd.
    pose proof (run_inv enc _ (closes_inv_step enc 1) m _
                  (closes_inv_Writer enc tmux [UClose] eq_refl))
      as (_ & _ & _ & Hres).
    unfold settled in Hset. rewrite Hrd in Hset.
    destruct (st_ops (run enc m (Writer enc tmux [UClose]))); [| discriminate].
    cbn in Hres. split; [exact Hres |].
    rewrite run_rounds in *. apply (Hhandle _ None). rewrite Hres. now left.
Qed.

Lemma empty_source_witness :
  exists n,
    returned (run (mkEnc discard example_options) n
                (Encode (mkEnc discard example_options) true [])) = Some None /\
    written (run (mkEnc discard example_options) n
               (Encode (mkEnc discard example_options) true []))
    = header true example_options ++ footerEscape true.
Proof.
  apply (empty_source (mkEnc discard example_options) true []
           reliable_discard eq_refl eq_refl).
Defined.

Lemma Inv_prefix enc P s : Inv enc P s -> exists rest, written s ++ rest = fst P.
Proof.
  unfold Inv. destruct (running s).
  - intros (_ & _ & <-). unfold plan.
    destruct (c_fut (st_c s) (body_fut s)) as [x t]. now exists x.
  - intros (r & _ & [(_ & ->) | (pre & d & _ & _ & _ & _ & H)]); [| exact H].
    exists []. cbn. apply app_nil_r.
Qed.

Lemma frame_prefix enc tmux data t :
  exists rest,
    fst (frame enc tmux data t) ++ rest
    = header tmux (enc_options enc) ++ enc_fut [] data t ++ footerEscape tmux.
Proof.
  unfold frame, enc_fut. cbn [app].
  destruct t as [[e |] |]; cbn [fst].
  - exists (footerEscape tmux). now rewrite <- app_assoc.
  - exists []. now rewrite app_nil_r.
  - exists (footerEscape tmux). now rewrite <- app_assoc.
Qed.

(** C6. At every moment of every call, what has been handed to the
    destination is a beginning of header, body, footer in this order: no
    byte of the body before the whole header, none of the footer before the
    whole body.  This holds for [Encode] on a reader and for the call made
    by [Writer]. *)
Theorem output_order (enc : Encoder) (tmux : bool) :
  (forall rs sched, exists rest,
     written (exec enc sched (Encode enc tmux rs)) ++ rest
     = header tmux (enc_options enc) ++ body rs ++ footerEscape tmux) /\
  (forall ops sched, exists rest,
     written (exec enc sched (Writer enc tmux ops)) ++ rest
     = header tmux (enc_options enc)
       ++ enc_fut [] (fst (ops_fut ops)) (snd (ops_fut ops)) ++ footerEscape tmux).
Proof.
  split.
  - intros rs sched.
    destruct (Inv_prefix enc _ _ (Inv_exec enc _ sched _ (Inv_Encode enc tmux rs)))
      as (r1 & H1).
    rewrite plan_Encode in H1.
    destruct (frame_prefix enc tmux (fst (script_fut rs)) (snd (script_fut rs)))
      as (r2 & H2).
    exists (r1 ++ r2). rewrite app_assoc, H1. exact H2.
  - intros ops sched.
    destruct (Inv_prefix enc _ _ (Inv_exec enc _ sched _ (Inv_Writer enc tmux ops)))
      as (r1 & H1).
    rewrite plan_Writer in H1.
    destruct (frame_prefix enc tmux (fst (ops_fut ops)) (snd (ops_fut ops)))
      as (r2 & H2).
    exists (r1 ++ r2). rewrite app_assoc, H1. exact H2.
Qed.

(** C7. If the destination answers a write with an error, that write is
    the last one [Encode] makes, now and ever after, and [Encode] returns
    that error. *)
Theorem sink_failure (enc : Encoder) (tmux : bool) (rs : list read_result)
    (sched : list tid) (pre : list bytes) (d : bytes) (post : list bytes)
    (n : nat) (e : error) :
  st_out (exec enc sched (Encode enc tmux rs)) = pre ++ d :: post ->
  enc_out enc pre d = (n, Some e) ->
  post = [] /\
  returned (exec enc sched (Encode enc tmux rs)) = Some (Some e) /\
  forall sched',
    st_out (exec enc sched' (exec enc sched (Encode enc tmux rs))) = pre ++ [d] /\
    returned (exec enc sched' (exec enc sched (Encode enc tmux rs))) = Some (Some e).
Proof.
  intros Hout Hw.
  assert (Hno : write_ok (enc_out enc) pre d = false) by (unfold write_ok; now rewrite Hw).
  assert (He : write_err (enc_out enc) pre d = e) by (unfold write_err; now rewrite Hw).
  destruct (refused_last enc _ _ pre d post
              (Inv_exec enc _ sched _ (Inv_Encode enc tmux rs)) Hout Hno) as (-> & Hr).
  rewrite He in Hr.
  pose proof (exec_inv enc direct (direct_step enc) sched _ (direct_Encode enc tmux rs))
    as Hd.
  pose proof (direct_returned _ _ Hd Hr) as Hret.
  split; [reflexivity |]. split; [exact Hret |].
  intros sched'. destruct (direct_frozen_exec enc sched' _ _ Hd Hret) as (Ho & Hr').
  split; [now rewrite Ho | exact Hr'].
Qed.

Lemma sink_failure_witness :
  @nil bytes = [] /\
  returned (exec (mkEnc (closed_after 1) []) (rounds 8)
              (Encode (mkEnc (closed_after 1) []) false [(bytes_of "ABC", None)]))
  = Some (Some (Err "closed")) /\
  forall sched',
    st_out (exec (mkEnc (closed_after 1) []) sched'
              (exec (mkEnc (closed_after 1) []) (rounds 8)
                 (Encode (mkEnc (closed_after 1) []) false [(bytes_of "ABC", None)])))
    = [header false []] ++ [bytes_of "QUJD"] /\
    returned (exec (mkEnc (closed_after 1) []) sched'
                (exec (mkEnc (closed_after 1) []) (rounds 8)
                   (Encode (mkEnc (closed_after 1) []) false [(bytes_of "ABC", None)])))
    = Some (Some (Err "closed")).
Proof.
  apply (sink_failure (mkEnc (closed_after 1) []) false [(bytes_of "ABC", None)]
           (rounds 8) [header false []] (bytes_of "QUJD") [] 0 (Err "closed"));
    vm_compute; reflexivity.
Defined.

(** How a reader ends: with the error of its first read that returns one. *)
Lemma ending_app pre rest :
  forallb no_err pre = true -> ending (pre ++ rest) = ending rest.
Proof.
  unfold ending. induction pre as [| [d [e |]] pre IH]; cbn [forallb app]; intros H;
    [reflexivity | discriminate |].
  cbn [script_fut]. specialize (IH H). now destruct (script_fut (pre ++ rest)), (script_fut rest).
Qed.

Lemma ending_fail pre d e post :
  forallb no_err pre = true -> e <> EOF ->
  ending (pre ++ (d, Some e) :: post) = Some (Some e).
Proof.
  intros Hpre He. rewrite ending_app by assumption. unfold ending. cbn.
  now destruct e.
Qed.

Lemma ending_clean pre :
  forallb no_err pre = true ->
  ending pre = Some None /\ forall d post, ending (pre ++ (d, Some EOF) :: post) = Some None.
Proof.
  intros Hpre. split.
  - rewrite <- (app_nil_r pre). now rewrite ending_app.
  - intros d post. now rewrite ending_app.
Qed.

Lemma frame_snd enc tmux data t : snd (frame enc tmux data t) = t.
Proof. unfold frame. now destruct t as [[e |] |]. Qed.

(** A state in which no goroutine can move stays as it is. *)
Lemma stuck_exec enc s :
  step enc Main s = None -> step enc Transcode s = None -> step enc Caller s = None ->
  forall sched, exec enc sched s = s.
Proof.
  intros Hm Ht Hc sched. induction sched as [| t sched IH]; [reflexivity |].
  cbn [exec]. unfold step'. now destruct t; rewrite ?Hm, ?Ht, ?Hc.
Qed.

(** When the destination refuses a write, [Encode] returns the error of
    that write, whatever the source does: with a source that has not ended
    the transcode goroutine stays blocked in its write and the pipe is
    never closed; with a source whose read failed the pipe is closed with
    the error of the read, which is not what [Encode] returns. *)
Lemma refused_write_decides :
  returned unread_run = Some (Some (Err "closed")) /\
  (forall sched,
     p_werr (st_ip (exec (mkEnc (closed_after 0) []) sched unread_run)) = None) /\
  returned misread_run = Some (Some (Err "closed")) /\
  p_werr (st_ip misread_run) = Some (Err "reset") /\
  ~ pipe_close_decides_Encode.
Proof.
  split; [vm_compute; reflexivity |]. split.
  { intros sched. transitivity (p_werr (st_ip unread_run)); [| vm_compute; reflexivity].
    f_equal. f_equal. apply stuck_exec; vm_compute; reflexivity. }
  split; [vm_compute; reflexivity |]. split; [vm_compute; reflexivity |].
  intros H.
  destruct (H (mkEnc (closed_after 0) []) false [([], Some (Err "reset"))] (rounds 4)
              (Some (Err "closed"))) as (w & _ & _ & E).
  - vm_compute. reflexivity.
  - vm_compute in E. discriminate E.
Qed.

Lemma accepts_reliable snk l : reliable snk -> accepts snk l = true.
Proof.
  intros Hrel. unfold accepts. generalize (@nil bytes).
  induction l as [| d l IH]; intros h; cbn [accepts_from]; [reflexivity |].
  now rewrite write_ok_reliable, IH.
Qed.

Section Behind.

Variable enc : Encoder.
Variable P : bytes * term.

Lemma closed_behind_step t s s' :
  Inv enc P s -> closed_behind enc s -> step enc t s = Some s' -> closed_behind enc s'.
Proof.
  intros HI HJ Hs. unfold closed_behind in *. destruct t; cbn [step] in Hs.
  - destruct (step_caller_frame s s' Hs) as (E1 & E2 & _ & _ & _ & E3 & _).
    now rewrite E1, E2, E3.
  - unfold Inv in HI. destruct (running s) eqn:Hrun.
    + destruct HI as (Hc & Hacc & _). destruct s as [rd t e ip c out op dn ops u res].
      destruct ip as [iwr iwerr irerr].
      unfold coh in Hc; proj. destruct Hc as (Hir & _). subst irerr.
      unfold running in Hrun; proj. unfold step_main in Hs; proj.
      destruct c as [rs | d er rs | r | r | r]; try discriminate.
      * destruct rs as [| [[| x b] |] rs]; try (injection Hs as <-; cbn in *; exact HJ).
        unfold pipe_read, p_done in Hs; proj.
        destruct iwerr as [w |].
        -- cbn in Hs. destruct w; injection Hs as <-; cbn; discriminate.
        -- destruct iwr as [| b |]; try discriminate.
           destruct (firstn copy_buf b); injection Hs as <-; cbn; discriminate.
      * pose proof (accepts_snoc (enc_out enc) out d) as Hsn.
        unfold write_ok in Hsn.
        destruct (enc_out enc out d) as [nw [e0 |]].
        -- injection Hs as <-. proj. intros _ Ha. rewrite Hsn, andb_false_r in Ha.
           discriminate.
        -- destruct (nw =? length d).
           ++ destruct er as [[] |]; injection Hs as <-; cbn in *; intros H1 _;
                now apply HJ.
           ++ injection Hs as <-. proj. intros _ Ha. rewrite Hsn, andb_false_r in Ha.
              discriminate.
    + unfold step_main in Hs. unfold running in Hrun.
      destruct (st_c s) eqn:Ec; try discriminate.
      * destruct (st_rd s); [discriminate |]. injection Hs as <-. proj.
        intros _ H2. now apply HJ.
      * injection Hs as <-. proj. intros _ H2. now apply HJ.
  - destruct (step_transcode_frame s s' Hs) as (E1 & E2 & _).
    rewrite E1, E2. intros H1 H2. specialize (HJ H1 H2).
    destruct (p_werr (st_ip s)) as [w |] eqn:E; [| congruence].
    rewrite (werr_stable_step enc Transcode s s' w E Hs). discriminate.
Qed.

Lemma closed_behind_exec sched : forall s,
  Inv enc P s -> closed_behind enc s -> closed_behind enc (exec enc sched s).
Proof.
  induction sched as [| t sched IH]; intros s HI HJ; [exact HJ |].
  cbn [exec]. apply IH; [now apply Inv_step' |].
  unfold step'. destruct (step enc t s) eqn:E; [| exact HJ].
  eapply closed_behind_step; eauto.
Qed.

End Behind.

Lemma closed_behind_Encode enc tmux rs : closed_behind enc (Encode enc tmux rs).
Proof. unfold closed_behind, Encode, multi. cbn. discriminate. Qed.

(** C8, as the code has it.  The pipe of [Encode] is closed with one
    terminal state that never changes: [io.EOF] when the source ends
    cleanly, the error of the read that failed otherwise; nothing is offered
    to a closed pipe; no read follows a read that returned an error.  When
    [Encode] returns after the destination has accepted every write, the pipe
    has been closed and [Encode] returns its terminal state; on a
    destination that accepts everything this is what happens. *)
Theorem pipe_terminal (enc : Encoder) (tmux : bool) (rs : list read_result)
    (sched : list tid) :
  (forall w,
     p_werr (st_ip (exec enc sched (Encode enc tmux rs))) = Some w ->
     norm (Some (Some w)) = ending rs /\
     p_wr (st_ip (exec enc sched (Encode enc tmux rs))) = Free /\
     forall sched',
       p_werr (st_ip (exec enc sched' (exec enc sched (Encode enc tmux rs)))) = Some w) /\
  (exists k,
     st_rd (exec enc sched (Encode enc tmux rs)) = ScriptReader (skipn k rs) /\
     forallb no_err (removelast (firstn k rs)) = true) /\
  (forall r,
     returned (exec enc sched (Encode enc tmux rs)) = Some r ->
     accepts (enc_out enc) (st_out (exec enc sched (Encode enc tmux rs))) = true ->
     exists w,
       p_werr (st_ip (exec enc sched (Encode enc tmux rs))) = Some w /\
       norm (Some (Some w)) = ending rs /\
       Some r = ending rs) /\
  (forall pre d e post,
     rs = pre ++ (d, Some e) :: post -> forallb no_err pre = true -> e <> EOF ->
     ending rs = Some (Some e)) /\
  (forallb no_err rs = true -> ending rs = Some None) /\
  (exists n r, returned (run enc n (Encode enc tmux rs)) = Some r) /\
  (reliable (enc_out enc) ->
   exists n r w,
     returned (run enc n (Encode enc tmux rs)) = Some r /\
     p_werr (st_ip (run enc n (Encode enc tmux rs))) = Some w /\
     norm (Some (Some w)) = ending rs /\
     Some r = ending rs).
Proof.
  assert (Hclosed : forall sc w,
             p_werr (st_ip (exec enc sc (Encode enc tmux rs))) = Some w ->
             norm (Some (Some w)) = ending rs).
  { intros sc w Hw.
    pose proof (direct_inv_exec enc _ sc _ (direct_inv_Encode enc tmux rs)) as (_ & _ & Hb).
    unfold body_fut in Hb. rewrite Hw in Hb. exact Hb. }
  assert (Hret : forall sc r,
             returned (exec enc sc (Encode enc tmux rs)) = Some r ->
             accepts (enc_out enc) (st_out (exec enc sc (Encode enc tmux rs))) = true ->
             exists w,
               p_werr (st_ip (exec enc sc (Encode enc tmux rs))) = Some w /\
               norm (Some (Some w)) = ending rs /\
               Some r = ending rs).
  { intros sc r Hr Hacc.
    pose proof (closed_behind_exec enc _ sc _ (Inv_Encode enc tmux rs)
                  (closed_behind_Encode enc tmux rs)) as HJ.
    unfold closed_behind, returned in *.
    destruct (st_c (exec enc sc (Encode enc tmux rs))) eqn:Ec; try discriminate.
    specialize (HJ eq_refl Hacc).
    destruct (p_werr (st_ip (exec enc sc (Encode enc tmux rs)))) as [w |] eqn:Ew;
      [| congruence].
    exists w. split; [reflexivity |]. split; [now apply (Hclosed sc) |].
    assert (Hr' : returned (exec enc sc (Encode enc tmux rs)) = Some r)
      by (unfold returned; now rewrite Ec).
    destruct (Encode_outcome enc tmux rs sc r Hr')
      as [(_ & H) | (pre & d & Ho & _ & Hno & _)].
    - apply (f_equal snd) in H. rewrite frame_snd in H. cbn in H. now symmetry.
    - rewrite Ho, accepts_snoc in Hacc. apply andb_true_iff in Hacc. destruct Hacc.
      congruence. }
  pose proof (direct_inv_exec enc _ sched _ (direct_inv_Encode enc tmux rs))
    as (Hc & _ & _).
  split; [| split; [| split; [| split; [| split; [| split]]]]].
  - intros w Hw. split; [now apply (Hclosed sched) |]. split.
    + unfold coh in Hc. destruct Hc as (_ & _ & _ & _ & _ & Ht & _).
      destruct (st_t (exec enc sched (Encode enc tmux rs))); cbn in Ht;
        try destruct deferred; intuition congruence.
    + intros sched'. now apply werr_stable.
  - destruct (reads_inv_exec enc rs sched _ (reads_inv_Encode enc tmux rs))
      as (k & H1 & H2 & _). eauto.
  - apply (Hret sched).
  - intros pre d e post -> Hpre He. now apply ending_fail.
  - intros Hrs. now apply ending_clean.
  - apply Encode_returns.
  - intros Hrel. destruct (Encode_returns enc tmux rs) as (n & r & Hr).
    rewrite run_rounds in Hr.
    destruct (Hret (rounds n) r Hr (accepts_reliable _ _ Hrel)) as (w & H1 & H2 & H3).
    exists n, r, w. rewrite run_rounds. auto.
Qed.

(** C10. A second [Close] on the handle, after a first one has returned:
    closing the write end again changes nothing, [w.done] is already closed,
    so the call goes through its two steps without waiting for any other
    goroutine and returns nil. *)
Theorem second_Close (enc : Encoder) (tmux : bool) (ops : list uop) (sched : list tid)
    (rest : list uop) (r0 : option error) :
  st_u (exec enc sched (Writer enc tmux ops)) = UIdle ->
  st_ops (exec enc sched (Writer enc tmux ops)) = UClose :: rest ->
  In (RClose r0) (st_res (exec enc sched (Writer enc tmux ops))) ->
  exists s1 s2,
    step enc Caller (exec enc sched (Writer enc tmux ops)) = Some s1 /\
    step enc Caller s1 = Some s2 /\
    st_op s1 = st_op (exec enc sched (Writer enc tmux ops)) /\
    st_ops s2 = rest /\ st_u s2 = UIdle /\
    st_res s2 = st_res (exec enc sched (Writer enc tmux ops)) ++ [RClose None].
Proof.
  intros Hu Hops Hin.
  pose proof (handle_inv_exec enc sched _ (handle_inv_Writer enc tmux ops))
    as (Hres & _ & _ & Hw & _).
  destruct (Hres r0 Hin) as (_ & Hd). specialize (Hw (or_intror (ex_intro _ r0 Hin))).
  destruct (exec enc sched (Writer enc tmux ops)) as [rd t e ip c out op dn ops' u res].
  proj. subst u ops' dn. destruct op as [owr [w |] orerr]; [| cbn in Hw; congruence].
  eexists. eexists. cbn. repeat split.
Qed.

Lemma second_Close_witness :
  exists s1 s2,
    step (mkEnc discard []) Caller
      (exec (mkEnc discard []) (rounds 12) (Writer (mkEnc discard []) false [UClose; UClose]))
    = Some s1 /\
    step (mkEnc discard []) Caller s1 = Some s2 /\
    st_op s1 = st_op (exec (mkEnc discard []) (rounds 12)
                        (Writer (mkEnc discard []) false [UClose; UClose])) /\
    st_ops s2 = [] /\ st_u s2 = UIdle /\
    st_res s2 = st_res (exec (mkEnc discard []) (rounds 12)
                          (Writer (mkEnc discard []) false [UClose; UClose]))
                ++ [RClose None].
Proof.
  apply (second_Close (mkEnc discard []) false [UClose; UClose] (rounds 12) [] None).
  - vm_compute. reflexivity.
  - vm_compute. reflexivity.
  - vm_compute. left. reflexivity.
Defined.

(** [Close] does not return the error of [Encode]: on a destination that
    fails after the header, [Encode] returns the error of the write, both
    calls on the handle return nil, and the transcode goroutine stays blocked
    in its write to the pipe. *)
Lemma Close_hides_error :
  st_c broken_pipe_run = BDone (Some (Err "closed")) /\
  st_res broken_pipe_run = [RWrite 6 None; RWrite 6 None; RClose None] /\
  st_t broken_pipe_run = TWriteWait (bytes_of "QUJDREVG") [] [] None /\
  step (mkEnc (closed_after 1) []) Transcode broken_pipe_run = None /\
  ~ Close_returns_result_of_Encode.
Proof.
  split; [vm_compute; reflexivity |]. split; [vm_compute; reflexivity |].
  split; [vm_compute; reflexivity |]. split; [vm_compute; reflexivity |].
  intros H.
  assert (E : @None error = Some (Err "closed")); [| discriminate E].
  apply (H (mkEnc (closed_after 1) []) false
           [UWrite (bytes_of "ABCDEF"); UWrite (bytes_of "ABCDEF"); UClose]
           (rounds 30)).
  - vm_compute. right; right; left; reflexivity.
  - vm_compute. reflexivity.
Qed.

(** C1, as the code has it.  [Close] first closes the write end of the
    pipe and then waits for [w.done]: it cannot return while the goroutine
    of [Writer] is still running [Encode], it can as soon as that goroutine
    has finished, and it then returns nil whatever [Encode] returned; the
    error of [Encode] is not handed to the caller of [Close] but stored on
    the read end of the pipe. *)
Theorem Close_waits_and_returns_nil (enc : Encoder) (tmux : bool) (ops : list uop)
    (sched : list tid) :
  (forall rest,
     st_u (exec enc sched (Writer enc tmux ops)) = UIdle ->
     st_ops (exec enc sched (Writer enc tmux ops)) = UClose :: rest ->
     exists s',
       step enc Caller (exec enc sched (Writer enc tmux ops)) = Some s' /\
       st_u s' = UCloseWait /\
       p_werr (st_op s') <> None /\
       st_res s' = st_res (exec enc sched (Writer enc tmux ops))) /\
  (st_u (exec enc sched (Writer enc tmux ops)) = UCloseWait ->
   p_werr (st_op (exec enc sched (Writer enc tmux ops))) <> None) /\
  (forall r,
     In (RClose r) (st_res (exec enc sched (Writer enc tmux ops))) ->
     r = None /\
     p_werr (st_op (exec enc sched (Writer enc tmux ops))) <> None /\
     st_dn (exec enc sched (Writer enc tmux ops)) = true /\
     exists e,
       st_c (exec enc sched (Writer enc tmux ops)) = BDone e /\
       p_rerr (st_op (exec enc sched (Writer enc tmux ops))) = e) /\
  (st_u (exec enc sched (Writer enc tmux ops)) = UCloseWait ->
   st_dn (exec enc sched (Writer enc tmux ops)) = false ->
   step enc Caller (exec enc sched (Writer enc tmux ops)) = None) /\
  (st_u (exec enc sched (Writer enc tmux ops)) = UCloseWait ->
   st_dn (exec enc sched (Writer enc tmux ops)) = true ->
   exists s',
     step enc Caller (exec enc sched (Writer enc tmux ops)) = Some s' /\
     st_res s' = st_res (exec enc sched (Writer enc tmux ops)) ++ [RClose None]).
Proof.
  pose proof (handle_inv_exec enc sched _ (handle_inv_Writer enc tmux ops))
    as (Hres & Hdn & Hrerr & Hwe & Hne).
  split; [| split; [| split; [| split]]].
  - intros rest Hu Hops. cbn [step].
    unfold step_caller, PipeWriter_Close, closeWrite. rewrite Hu, Hops.
    eexists. split; [reflexivity |]. cbn. repeat split.
    destruct (p_werr (st_op (exec enc sched (Writer enc tmux ops)))); discriminate.
  - intros Hu. apply Hwe. now left.
  - intros r Hin. destruct (Hres r Hin) as (-> & Hd). destruct (Hdn Hd) as (e & Hc).
    split; [reflexivity |]. split; [apply Hwe; right; now exists None |].
    split; [exact Hd |]. exists e. split; [exact Hc |].
    now rewrite Hc in Hrerr.
  - intros Hu Hd. cbn [step]. unfold step_caller. rewrite Hu, Hd.
    destruct (st_ops (exec enc sched (Writer enc tmux ops))) as [| [] ?]; reflexivity.
  - intros Hu Hd. cbn [step]. unfold step_caller. rewrite Hu, Hd.
    destruct Hne as [Hne | Hne]; [congruence |].
    destruct (st_ops (exec enc sched (Writer enc tmux ops))) as [| [] ?];
      [congruence | |]; eexists; split; reflexivity.
Qed.

(** * Further properties of the code *)

Lemma uint_numeric d : all_numeric (NilEmpty.string_of_uint d) = true.
Proof. induction d; cbn; auto. Qed.

Lemma itoa_numeric x : all_numeric (itoa x) = true.
Proof.
  unfold itoa. destruct (Z.to_int x) as [d | d]; cbn [NilZero.string_of_int].
  - destruct d; try reflexivity; apply uint_numeric.
  - cbn [all_numeric]. destruct d; try reflexivity; apply uint_numeric.
Qed.

Lemma itoa_injective a b : itoa a = itoa b -> a = b.
Proof.
  unfold itoa. intros H.
  assert (Hnn : forall z, Z.to_int z <> Decimal.Pos Decimal.Nil /\ Z.to_int z <> Decimal.Neg Decimal.Nil).
  { intros [| p | p]; cbn; split; try discriminate; intros [= E];
      now apply (DecimalPos.Unsigned.to_uint_nonnil p). }
  apply (f_equal NilZero.int_of_string) in H.
  rewrite !NilZero.isi in H by apply Hnn.
  injection H as H. apply (f_equal Z.of_int) in H. now rewrite !DecimalZ.of_to in H.
Qed.

Lemma itoa_nonempty x : itoa x <> EmptyString.
Proof.
  unfold itoa. destruct (Z.to_int x) as [d | d]; cbn [NilZero.string_of_int];
    [| discriminate].
  destruct d; discriminate.
Qed.

Lemma numeric_no_delim s : all_numeric s = true -> has_delim s = false.
Proof.
  induction s as [| c s IH]; [reflexivity |]. cbn [all_numeric has_delim].
  intros H. apply andb_true_iff in H as (Hc & Hs). rewrite (IH Hs), orb_false_r.
  unfold is_numeric in Hc. unfold is_delim.
  destruct (Ascii.eqb_spec c ";") as [-> | _]; [discriminate Hc |].
  destruct (Ascii.eqb_spec c ":") as [-> | _]; [discriminate Hc |]. reflexivity.
Qed.

Lemma has_delim_app a b : has_delim (a ++ b) = has_delim a || has_delim b.
Proof.
  induction a as [| c a IH]; [reflexivity |]. cbn [String.append has_delim].
  now rewrite IH, orb_assoc.
Qed.

Lemma all_numeric_app a b : all_numeric (a ++ b) = all_numeric a && all_numeric b.
Proof.
  induction a as [| c a IH]; [reflexivity |]. cbn [String.append all_numeric].
  now rewrite IH, andb_assoc.
Qed.

Lemma encode_char_b64 v : (v < 64)%N -> b64_char (Base64.encode_char v) = true.
Proof.
  intros Hv.
  assert (H : forallb (fun x => b64_char (Base64.encode_char x)) sextets = true)
    by (vm_compute; reflexivity).
  rewrite forallb_forall in H. apply H, sextets_complete, Hv.
Qed.

Lemma sextet_b64 val sh : b64_char (Base64.sextet val sh) = true.
Proof. rewrite sextet_six. apply encode_char_b64, six_lt. Qed.

Lemma Encode_b64 l : forallb b64_char (Base64.Encode l) = true.
Proof.
  induction l as [| a | a b | a b c l IH] using list_ind3.
  - reflexivity.
  - change (Base64.Encode [a])
      with [Base64.sextet (Base64.quantum (Byte.to_N a) 0 0) 18;
            Base64.sextet (Base64.quantum (Byte.to_N a) 0 0) 12;
            Base64.StdPadding; Base64.StdPadding].
    cbn [forallb]. now rewrite !sextet_b64.
  - change (Base64.Encode [a; b])
      with [Base64.sextet (Base64.quantum (Byte.to_N a) (Byte.to_N b) 0) 18;
            Base64.sextet (Base64.quantum (Byte.to_N a) (Byte.to_N b) 0) 12;
            Base64.sextet (Base64.quantum (Byte.to_N a) (Byte.to_N b) 0) 6;
            Base64.StdPadding].
    cbn [forallb]. now rewrite !sextet_b64.
  - change (Base64.Encode (a :: b :: c :: l))
      with (Base64.sextet (Base64.quantum (Byte.to_N a) (Byte.to_N b) (Byte.to_N c)) 18
            :: Base64.sextet (Base64.quantum (Byte.to_N a) (Byte.to_N b) (Byte.to_N c)) 12
            :: Base64.sextet (Base64.quantum (Byte.to_N a) (Byte.to_N b) (Byte.to_N c)) 6
            :: Base64.sextet (Base64.quantum (Byte.to_N a) (Byte.to_N b) (Byte.to_N c)) 0
            :: Base64.Encode l).
    cbn [forallb]. now rewrite !sextet_b64, IH.
Qed.

Lemma b64_no_delim c : b64_char c = true -> is_delim (ascii_of_byte c) = false.
Proof. destruct c; intros H; try discriminate H; reflexivity. Qed.

Lemma string_of_no_delim b : forallb b64_char b = true -> has_delim (string_of b) = false.
Proof.
  unfold string_of, string_of_list_byte.
  induction b as [| c b IH]; [reflexivity |]. cbn [forallb map string_of_list_ascii has_delim].
  intros H. apply andb_true_iff in H as (Hc & Hb). now rewrite (b64_no_delim c Hc), IH.
Qed.

(** [Name], written out: the encoder over the buffer has produced the
    one-shot encoding of the name when it is closed. *)
Lemma Name_encodes name :
  Name name = Some ("name=" ++ string_of (Base64.Encode (bytes_of name)))%string.
Proof.
  unfold Name, encoder_Write, encoder_Close, NewEncoder. cbn [e_err e_buf].
  destruct (enc_chunks_spec [] (bytes_of name) [] ltac:(simpl; lia)) as (H & Hf).
  destruct (enc_chunks [] (bytes_of name)) as [cs fr]. cbn [fst snd] in *.
  rewrite !app_nil_r in H. cbn [app] in H.
  rewrite write_all_concat. cbn [app e_err e_buf].
  destruct fr as [| x fr'].
  - cbn [Base64.Encode] in H. rewrite app_nil_r in H. now rewrite H.
  - cbn [close_chunks]. rewrite write_all_concat. cbn [concat]. rewrite app_nil_r.
    now rewrite H.
Qed.

(** X1. The value [Name] puts after "name=" is base64 text: every
    character is one of the alphabet or the padding, so the option holds
    neither of the header's delimiters, and decoding the value gives the
    bytes of the name back. *)
Theorem Name_value (name : string) :
  exists v : bytes,
    Name name = Some ("name=" ++ string_of v)%string /\
    forallb b64_char v = true /\
    has_delim ("name=" ++ string_of v) = false /\
    Base64.Decode v = Some (bytes_of name).
Proof.
  exists (Base64.Encode (bytes_of name)). split; [apply Name_encodes |].
  split; [apply Encode_b64 |]. split; [| apply Decode_Encode].
  rewrite has_delim_app, string_of_no_delim by apply Encode_b64. reflexivity.
Qed.

Lemma Encode_length l :
  length (Base64.Encode l) = 4 * ((length l + 2) / 3).
Proof.
  induction l as [| a | a b | a b c l IH] using list_ind3.
  - reflexivity.
  - reflexivity.
  - reflexivity.
  - change (Base64.Encode (a :: b :: c :: l))
      with (Base64.sextet (Base64.quantum (Byte.to_N a) (Byte.to_N b) (Byte.to_N c)) 18
            :: Base64.sextet (Base64.quantum (Byte.to_N a) (Byte.to_N b) (Byte.to_N c)) 12
            :: Base64.sextet (Base64.quantum (Byte.to_N a) (Byte.to_N b) (Byte.to_N c)) 6
            :: Base64.sextet (Base64.quantum (Byte.to_N a) (Byte.to_N b) (Byte.to_N c)) 0
            :: Base64.Encode l).
    cbn [length]. rewrite IH.
    replace (S (S (S (length l))) + 2) with (length l + 2 + 1 * 3) by lia.
    rewrite Nat.div_add by lia. lia.
Qed.

(** C9. [Name] is total: for every string the failure branch is not taken,
    since a write to a buffer in memory does not fail, and the option is
    "name=" followed by the padded standard base64 encoding of the string:
    four characters of the alphabet or the padding for every three bytes
    begun, which standard decoding turns back into the bytes of the
    string. *)
Theorem Name_total (name : string) :
  exists v : bytes,
    Name name = Some ("name=" ++ string_of v)%string /\
    v = Base64.Encode (bytes_of name) /\
    length v = 4 * ((length (bytes_of name) + 2) / 3) /\
    forallb b64_char v = true /\
    Base64.Decode v = Some (bytes_of name).
Proof.
  exists (Base64.Encode (bytes_of name)).
  split; [apply Name_encodes |]. split; [reflexivity |].
  split; [apply Encode_length |]. split; [apply Encode_b64 | apply Decode_Encode].
Qed.

Lemma append_inv_head (p a b : string) : (p ++ a = p ++ b)%string -> a = b.
Proof. induction p as [| c p IH]; cbn [String.append]; [auto |]. intros [= H]. auto. Qed.

Lemma string_of_injective (a b : bytes) : string_of a = string_of b -> a = b.
Proof.
  intros H. apply (f_equal list_byte_of_string) in H. unfold string_of in H.
  now rewrite !list_byte_of_string_of_list_byte in H.
Qed.

Lemma Encode_injective a b : Base64.Encode a = Base64.Encode b -> a = b.
Proof.
  intros H. apply (f_equal Base64.Decode) in H. rewrite !Decode_Encode in H. congruence.
Qed.

Lemma bytes_of_injective (a b : string) : bytes_of a = bytes_of b -> a = b.
Proof.
  intros H. apply (f_equal string_of_list_byte) in H. unfold bytes_of in H.
  now rewrite !string_of_list_byte_of_string in H.
Qed.

(** X2. Two names with the same [Name] option are the same name. *)
Theorem Name_injective (a b : string) : Name a = Name b -> a = b.
Proof.
  rewrite !Name_encodes. intros [= H].
  apply bytes_of_injective, Encode_injective, string_of_injective. exact H.
Qed.

Lemma Name_injective_witness : "cat.png"%string = "cat.png"%string.
Proof. apply (Name_injective "cat.png" "cat.png"). reflexivity. Defined.

Lemma delim_byte c :
  is_delim c = Byte.eqb (byte_of_ascii c) ";" || Byte.eqb (byte_of_ascii c) ":".
Proof. destruct c as [[] [] [] [] [] [] [] []]; reflexivity. Qed.

Lemma read_options_field : forall (f s g : bytes) (fs : list bytes) (rest : bytes),
  has_delim (string_of f) = false ->
  read_options s = (g :: fs, rest) ->
  read_options (f ++ s) = ((f ++ g) :: fs, rest).
Proof.
  induction f as [| c f IH]; intros s g fs rest Hf Hs; [exact Hs |].
  unfold string_of, string_of_list_byte in Hf. cbn [map string_of_list_ascii has_delim] in Hf.
  apply orb_false_iff in Hf as (Hc & Hf).
  rewrite delim_byte, byte_of_ascii_of_byte in Hc. apply orb_false_iff in Hc as (H1 & H2).
  cbn [app read_options]. rewrite H2, (IH s g fs rest Hf Hs), H1. reflexivity.
Qed.

Lemma read_options_join (options : list Option) (rest : bytes) :
  Forall (fun o => has_delim o = false) options ->
  read_options (join_options options ++ bytes_of ":" ++ rest)
  = (match options with [] => [[]] | _ :: _ => map bytes_of options end, rest).
Proof.
  assert (Hclean : forall o : string, has_delim o = false ->
                                      has_delim (string_of (bytes_of o)) = false).
  { intros o H. unfold string_of, bytes_of. now rewrite string_of_list_byte_of_string. }
  induction options as [| o [| o' r] IH]; intros HF.
  - reflexivity.
  - inversion HF as [| ? ? Ho _]; subst. cbn [join_options map].
    rewrite (read_options_field (bytes_of o) _ [] [] rest (Hclean o Ho)) by reflexivity.
    now rewrite app_nil_r.
  - inversion HF as [| ? ? Ho HF']; subst. specialize (IH HF').
    change (join_options (o :: o' :: r))
      with (bytes_of o ++ bytes_of ";" ++ join_options (o' :: r)).
    rewrite <- !app_assoc.
    rewrite (read_options_field (bytes_of o) _ [] (map bytes_of (o' :: r)) rest (Hclean o Ho)).
    + now rewrite app_nil_r.
    + change (bytes_of ";" ++ join_options (o' :: r) ++ bytes_of ":" ++ rest)
        with (";"%byte :: join_options (o' :: r) ++ bytes_of ":" ++ rest).
      cbn [read_options]. rewrite IH. reflexivity.
Qed.

(** X3. [Width] and [Height] add no delimiter to a length, and no
    length made by [Cells], [Pixels], [Percent] or [Auto], no [Size], no
    [Inline] and no [PreserveAspectRatio] holds one.  So the options of a
    header can be read back: whenever no option holds a [;] or a [:], what
    follows the introducer, cut at every [;] up to the first [:], is the
    list of the options in their order, and after that [:] comes the rest
    of the output. *)
Theorem options_without_delimiters (x : Z) (b : bool) (l : Length) :
  has_delim (Width l) = has_delim l /\
  has_delim (Height l) = has_delim l /\
  has_delim (Cells x) = false /\
  has_delim (Pixels x) = false /\
  has_delim (Percent x) = false /\
  has_delim Auto = false /\
  has_delim (Size x) = false /\
  has_delim (PreserveAspectRatio b) = false /\
  has_delim (Inline b) = false /\
  (forall (tmux : bool) (options : list Option) (rest : bytes),
     Forall (fun o => has_delim o = false) options ->
     read_options (skipn (length (headerEscape tmux)) (header tmux options ++ rest))
     = (match options with [] => [[]] | _ :: _ => map bytes_of options end, rest)).
Proof.
  pose proof (numeric_no_delim _ (itoa_numeric x)) as Hx.
  pose proof (numeric_no_delim _ (itoa_numeric (boolToInt b))) as Hb.
  unfold Width, Height, Cells, Pixels, Percent, Auto, Size, PreserveAspectRatio, Inline.
  rewrite !has_delim_app, Hx, Hb.
  repeat (split; [reflexivity |]).
  intros tmux options rest HF. unfold header. rewrite <- !app_assoc.
  rewrite skipn_app, skipn_all, Nat.sub_diag. cbn [skipn app].
  now apply read_options_join.
Qed.

(** X4. [Size] tells sizes apart, and so do [Cells], [Pixels] and
    [Percent]: equal texts come from equal numbers only. *)
Theorem Size_injective (a b : Z) :
  (Size a = Size b <-> a = b) /\
  (Cells a = Cells b <-> a = b) /\
  (Pixels a = Pixels b <-> a = b) /\
  (Percent a = Percent b <-> a = b).
Proof.
  assert (Htail : forall (s t u : string), (s ++ u = t ++ u)%string -> s = t).
  { intros s t u H. apply (f_equal list_ascii_of_string) in H.
    assert (E : forall p q, list_ascii_of_string (p ++ q)
                            = list_ascii_of_string p ++ list_ascii_of_string q).
    { induction p as [| c p IH]; intros q; cbn; [reflexivity | now rewrite IH]. }
    rewrite !E in H. apply app_inv_tail in H.
    apply (f_equal string_of_list_ascii) in H.
    now rewrite !string_of_list_ascii_of_string in H. }
  unfold Size, Cells, Pixels, Percent.
  repeat split; try (intros ->; reflexivity); intros H.
  - now apply itoa_injective, (append_inv_head "size=").
  - now apply itoa_injective.
  - now apply itoa_injective, (Htail _ _ "px"%string).
  - now apply itoa_injective, (Htail _ _ "%"%string).
Qed.

(** X5. The four kinds of length are told apart by their text: a number
    alone, a number before "px", a number before a percent sign, and
    "auto". *)
Theorem Length_kinds_disjoint (x y : Z) :
  Cells x <> Pixels y /\ Cells x <> Percent y /\ Cells x <> Auto /\
  Pixels x <> Percent y /\ Pixels x <> Auto /\ Percent x <> Auto.
Proof.
  pose proof (itoa_numeric x) as Hx. pose proof (itoa_numeric y) as Hy.
  assert (Hlast : forall (s t : string) (c d : ascii),
             (s ++ String c EmptyString = t ++ String d EmptyString)%string -> c = d).
  { induction s as [| a s IH]; intros [| b t] c d; cbn [String.append].
    - now intros [= ->].
    - intros [= _ H]. now destruct t.
    - intros [= _ H]. now destruct s.
    - intros [= _ H]. eauto. }
  assert (Happ : forall (s : string) (c d : ascii),
             (s ++ String c (String d EmptyString)
              = (s ++ String c EmptyString) ++ String d EmptyString)%string).
  { induction s as [| a s IH]; intros c d; cbn [String.append]; [reflexivity |].
    now rewrite IH. }
  unfold Cells, Pixels, Percent, Auto. repeat split; intros H.
  - apply (f_equal all_numeric) in H. rewrite all_numeric_app, Hx, Hy in H.
    vm_compute in H. discriminate H.
  - apply (f_equal all_numeric) in H. rewrite all_numeric_app, Hx, Hy in H.
    vm_compute in H. discriminate H.
  - apply (f_equal all_numeric) in H. rewrite Hx in H.
    vm_compute in H. discriminate H.
  - rewrite Happ in H. apply Hlast in H. discriminate H.
  - rewrite Happ in H. apply (Hlast _ "aut"%string) in H. discriminate H.
  - apply (Hlast _ "aut"%string) in H. discriminate H.
Qed.

Section Reliable.

Variable enc : Encoder.
Hypothesis Hrel : reliable (enc_out enc).

(** With a destination that accepts everything, a call of [Encode] that
    has returned has written the whole frame its reader leads to, and
    returned how the reader ended. *)
Lemma Encode_reliable tmux rs sched r :
  returned (exec enc sched (Encode enc tmux rs)) = Some r ->
  frame enc tmux (input rs) (ending rs)
  = (written (exec enc sched (Encode enc tmux rs)), Some r).
Proof.
  intros Hr. apply (finished_reliable (enc_out enc)); [exact Hrel |].
  now apply Encode_outcome.
Qed.

End Reliable.

Lemma input_app pre rest :
  forallb no_err pre = true -> input (pre ++ rest) = concat (map fst pre) ++ input rest.
Proof.
  unfold input. induction pre as [| [d [e |]] pre IH]; cbn [forallb app map concat fst];
    intros H; [reflexivity | discriminate |].
  cbn [script_fut]. specialize (IH H).
  destruct (script_fut (pre ++ rest)), (script_fut rest). cbn [fst] in *.
  now rewrite IH, app_assoc.
Qed.

(** X8. An encoder made by [NewEncoder], on a destination that accepts
    everything and a reader that ends with [io.EOF]: [Encode] returns nil,
    and the destination has received the introducer chosen by [IsTmux], the
    options separated by [;], a [:], the encoding of all bytes read, and the
    terminator chosen by [IsTmux]. *)
Theorem NewEncoder_Encode (getenv : environ) (w : sink) (options : list Option)
    (enc : Encoder) (rs : list read_result) :
  imgcat.NewEncoder getenv w options = (Some enc, None) ->
  reliable w ->
  ending rs = Some None ->
  exists n,
    returned (run enc n (Encode enc (IsTmux getenv) rs)) = Some None /\
    written (run enc n (Encode enc (IsTmux getenv) rs))
    = headerEscape (IsTmux getenv) ++ join_options options ++ bytes_of ":"
      ++ Base64.Encode (input rs) ++ footerEscape (IsTmux getenv).
Proof.
  unfold imgcat.NewEncoder. destruct (negb (IsSupported getenv)); [discriminate |].
  intros [= <-] Hrel Hend.
  destruct (Encode_returns (mkEnc w options) (IsTmux getenv) rs) as (n & r & Hr).
  exists n. rewrite run_rounds in *.
  pose proof (Encode_reliable (mkEnc w options) Hrel _ _ _ _ Hr) as H.
  rewrite Hend in H. unfold frame, header in H. cbn [enc_options] in H.
  injection H as Hw Hn. subst r. split; [exact Hr |].
  rewrite <- Hw. now rewrite <- !app_assoc.
Qed.

Lemma NewEncoder_Encode_witness :
  exists n,
    returned (run (mkEnc discard [Inline true]) n
                (Encode (mkEnc discard [Inline true])
                   (IsTmux (env_of [("TERM_PROGRAM", "iTerm.app"); ("TERM", "screen")]%string))
                   [(bytes_of "GIF89a", Some EOF)])) = Some None /\
    written (run (mkEnc discard [Inline true]) n
               (Encode (mkEnc discard [Inline true])
                  (IsTmux (env_of [("TERM_PROGRAM", "iTerm.app"); ("TERM", "screen")]%string))
                  [(bytes_of "GIF89a", Some EOF)]))
    = headerEscape (IsTmux (env_of [("TERM_PROGRAM", "iTerm.app"); ("TERM", "screen")]%string))
      ++ join_options [Inline true] ++ bytes_of ":"
      ++ Base64.Encode (input [(bytes_of "GIF89a", Some EOF)])
      ++ footerEscape (IsTmux (env_of [("TERM_PROGRAM", "iTerm.app"); ("TERM", "screen")]%string)).
Proof.
  apply (NewEncoder_Encode
           (env_of [("TERM_PROGRAM", "iTerm.app"); ("TERM", "screen")]%string)
           discard [Inline true]).
  - reflexivity.
  - intros h d. reflexivity.
  - reflexivity.
Defined.

(** X9. A reader that fails, on a destination that accepts everything:
    [Encode] returns the error of the failing read; the bytes that came
    with that read are still encoded, but only whole groups of three bytes
    reach the destination, without padding, and no terminator follows. *)
Theorem Encode_read_error (enc : Encoder) (tmux : bool)
    (pre : list read_result) (d : bytes) (e : error) (post : list read_result) :
  reliable (enc_out enc) ->
  forallb no_err pre = true ->
  e <> EOF ->
  exists n,
    returned (run enc n (Encode enc tmux (pre ++ (d, Some e) :: post))) = Some (Some e) /\
    written (run enc n (Encode enc tmux (pre ++ (d, Some e) :: post)))
    = header tmux (enc_options enc) ++ groups (concat (map fst pre) ++ d).
Proof.
  intros Hrel Hpre He.
  destruct (Encode_returns enc tmux (pre ++ (d, Some e) :: post)) as (n & r & Hr).
  exists n. rewrite run_rounds in *.
  pose proof (Encode_reliable enc Hrel _ _ _ _ Hr) as H.
  rewrite ending_fail, input_app in H by assumption.
  assert (Hin : input ((d, Some e) :: post) = d).
  { unfold input. cbn [script_fut]. now destruct e. }
  rewrite Hin in H. unfold frame in H. injection H as Hw Hn. subst r.
  split; [exact Hr | now rewrite <- Hw].
Qed.

Lemma Encode_read_error_witness :
  exists n,
    returned (run (mkEnc discard []) n
                (Encode (mkEnc discard []) false
                   ([(bytes_of "ABC", None)] ++ (bytes_of "DE", Some (Err "reset")) :: [])))
    = Some (Some (Err "reset")) /\
    written (run (mkEnc discard []) n
               (Encode (mkEnc discard []) false
                  ([(bytes_of "ABC", None)] ++ (bytes_of "DE", Some (Err "reset")) :: [])))
    = header false (enc_options (mkEnc discard []))
      ++ groups (concat (map fst [(bytes_of "ABC", @None error)]) ++ bytes_of "DE").
Proof.
  apply (Encode_read_error (mkEnc discard []) false [(bytes_of "ABC", None)]
           (bytes_of "DE") (Err "reset") []).
  - intros h d. reflexivity.
  - reflexivity.
  - discriminate.
Defined.

(** X10. On a destination that accepts everything the schedule does not
    matter: two executions of the same call of [Encode] that have both
    returned have written the same bytes and returned the same result. *)
Theorem Encode_schedule_independent (enc : Encoder) (tmux : bool)
    (rs : list read_result) (sched1 sched2 : list tid) (r1 r2 : option error) :
  reliable (enc_out enc) ->
  returned (exec enc sched1 (Encode enc tmux rs)) = Some r1 ->
  returned (exec enc sched2 (Encode enc tmux rs)) = Some r2 ->
  r1 = r2 /\
  written (exec enc sched1 (Encode enc tmux rs))
  = written (exec enc sched2 (Encode enc tmux rs)).
Proof.
  intros Hrel H1 H2.
  pose proof (Encode_reliable enc Hrel _ _ _ _ H1) as E1.
  pose proof (Encode_reliable enc Hrel _ _ _ _ H2) as E2.
  rewrite E1 in E2. injection E2 as Hw Hr. split; [congruence | exact Hw].
Qed.

Lemma Encode_schedule_independent_witness :
  @None error = None /\
  written (exec (mkEnc discard [Size 5]) (rounds 20)
             (Encode (mkEnc discard [Size 5]) true
                [(bytes_of "he", None); (bytes_of "llo", Some EOF)]))
  = written (exec (mkEnc discard [Size 5]) (eager 20)
               (Encode (mkEnc discard [Size 5]) true
                  [(bytes_of "he", None); (bytes_of "llo", Some EOF)])).
Proof.
  apply (Encode_schedule_independent (mkEnc discard [Size 5]) true
           [(bytes_of "he", None); (bytes_of "llo", Some EOF)] (rounds 20) (eager 20)).
  - intros h d. reflexivity.
  - vm_compute. reflexivity.
  - vm_compute. reflexivity.
Defined.

(** X11. After [Encode] has returned to its caller nothing more is
    written to the destination, whatever the goroutine it started still
    does, and the result stays what it was. *)
Theorem Encode_return_final (enc : Encoder) (tmux : bool) (rs : list read_result)
    (sched sched' : list tid) (r : option error) :
  returned (exec enc sched (Encode enc tmux rs)) = Some r ->
  st_out (exec enc sched' (exec enc sched (Encode enc tmux rs)))
  = st_out (exec enc sched (Encode enc tmux rs)) /\
  returned (exec enc sched' (exec enc sched (Encode enc tmux rs))) = Some r.
Proof.
  intros Hr.
  pose proof (exec_inv enc direct (direct_step enc) sched _ (direct_Encode enc tmux rs))
    as Hd.
  exact (direct_frozen_exec enc sched' _ _ Hd Hr).
Qed.

Lemma Encode_return_final_witness :
  st_out (exec (mkEnc (closed_after 1) []) (eager 4)
            (exec (mkEnc (closed_after 1) []) (rounds 8)
               (Encode (mkEnc (closed_after 1) []) false
                  [(bytes_of "ABC", None); (bytes_of "DEF", None)])))
  = st_out (exec (mkEnc (closed_after 1) []) (rounds 8)
              (Encode (mkEnc (closed_after 1) []) false
                 [(bytes_of "ABC", None); (bytes_of "DEF", None)])) /\
  returned (exec (mkEnc (closed_after 1) []) (eager 4)
              (exec (mkEnc (closed_after 1) []) (rounds 8)
                 (Encode (mkEnc (closed_after 1) []) false
                    [(bytes_of "ABC", None); (bytes_of "DEF", None)])))
  = Some (Some (Err "closed")).
Proof.
  apply (Encode_return_final (mkEnc (closed_after 1) []) false
           [(bytes_of "ABC", None); (bytes_of "DEF", None)] (rounds 8) (eager 4)
           (Some (Err "closed"))).
  vm_compute. reflexivity.
Defined.

(** X12. A destination that takes fewer bytes than it was given and
    reports no error: that write is the last one and [Encode] returns
    [io.ErrShortWrite]. *)
Theorem Encode_short_write (enc : Encoder) (tmux : bool) (rs : list read_result)
    (sched : list tid) (pre : list bytes) (d : bytes) (post : list bytes) (n : nat) :
  st_out (exec enc sched (Encode enc tmux rs)) = pre ++ d :: post ->
  enc_out enc pre d = (n, None) ->
  n < length d ->
  post = [] /\
  returned (exec enc sched (Encode enc tmux rs)) = Some (Some ErrShortWrite).
Proof.
  intros Hout Hw Hn.
  assert (Hno : write_ok (enc_out enc) pre d = false).
  { unfold write_ok. rewrite Hw. apply Nat.eqb_neq. lia. }
  assert (He : write_err (enc_out enc) pre d = ErrShortWrite).
  { unfold write_err. now rewrite Hw. }
  destruct (refused_last enc _ _ pre d post
              (Inv_exec enc _ sched _ (Inv_Encode enc tmux rs)) Hout Hno) as (-> & Hr).
  rewrite He in Hr. split; [reflexivity |].
  apply direct_returned; [| exact Hr].
  exact (exec_inv enc direct (direct_step enc) sched _ (direct_Encode enc tmux rs)).
Qed.

Lemma Encode_short_write_witness :
  @nil bytes = [] /\
  returned (exec (mkEnc (truncating 4) []) (rounds 8)
              (Encode (mkEnc (truncating 4) []) false [(bytes_of "ABC", Some EOF)]))
  = Some (Some ErrShortWrite).
Proof.
  apply (Encode_short_write (mkEnc (truncating 4) []) false [(bytes_of "ABC", Some EOF)]
           (rounds 8) [] (header false []) [] 4).
  - vm_compute. reflexivity.
  - vm_compute. reflexivity.
  - vm_compute. lia.
Defined.

(** X13. The loop of [Encode] over the options, as it is written with
    its index test, appends to the header the options joined by [;]: the
    separator comes after every option but the last, and nothing is
    appended for no option. *)
Theorem options_loop_join (options : list Option) (buf : bytes) :
  options_loop (length options) 0 options buf = buf ++ join_options options /\
  join_options options = bytes_of (String.concat ";" options).
Proof.
  split.
  - assert (G : forall rest i b,
               options_loop (i + length rest) i rest b = b ++ join_options rest).
    { induction rest as [| o rest IH]; intros i b; cbn [options_loop].
      - now rewrite app_nil_r.
      - cbn [length]. replace (i + S (length rest)) with (S i + length rest) by lia.
        rewrite IH. destruct rest as [| o' rest].
        + cbn [length join_options]. replace (S i + 0 - 1) with i by lia.
          rewrite Nat.ltb_irrefl. now rewrite app_nil_r.
        + assert (E : (i <? S i + length (o' :: rest) - 1) = true)
            by (apply Nat.ltb_lt; cbn [length]; lia).
          rewrite E.
          change (join_options (o :: o' :: rest))
            with (bytes_of o ++ bytes_of ";" ++ join_options (o' :: rest)).
          now rewrite <- !app_assoc. }
    exact (G options 0 buf).
  - assert (E : forall a b : string, bytes_of (a ++ b) = bytes_of a ++ bytes_of b).
    { unfold bytes_of, list_byte_of_string.
      induction a as [| c a IH]; intros b; cbn; [reflexivity | now rewrite IH]. }
    induction options as [| o [| o' rest] IH]; [reflexivity | reflexivity |].
    change (join_options (o :: o' :: rest))
      with (bytes_of o ++ bytes_of ";" ++ join_options (o' :: rest)).
    change (String.concat ";" (o :: o' :: rest))
      with (o ++ ";" ++ String.concat ";" (o' :: rest))%string.
    now rewrite IH, !E.
Qed.

Lemma ops_fut_writes ws rest :
  ops_fut (map UWrite ws ++ UClose :: rest) = (concat ws, Some None).
Proof.
  induction ws as [| w ws IH]; cbn [map app ops_fut concat]; [reflexivity |].
  now rewrite IH.
Qed.

(** On a destination that accepts everything, a handle whose [Close] has
    returned after the writes [ws]. *)
Lemma Writer_closed (enc : Encoder) (tmux : bool) (ws : list bytes)
    (rest : list uop) (sched : list tid) (r : option error) :
  reliable (enc_out enc) ->
  In (RClose r) (st_res (exec enc sched (Writer enc tmux (map UWrite ws ++ UClose :: rest)))) ->
  r = None /\
  st_c (exec enc sched (Writer enc tmux (map UWrite ws ++ UClose :: rest))) = BDone None /\
  written (exec enc sched (Writer enc tmux (map UWrite ws ++ UClose :: rest)))
  = header tmux (enc_options enc) ++ Base64.Encode (concat ws) ++ footerEscape tmux.
Proof.
  intros Hrel Hin.
  destruct (Writer_outcome enc tmux _ sched r Hrel Hin) as (e & Hc & Hf).
  rewrite ops_fut_writes in Hf. cbn [fst snd frame] in Hf. injection Hf as Hw He. subst e.
  pose proof (handle_inv_exec enc sched _
                (handle_inv_Writer enc tmux (map UWrite ws ++ UClose :: rest)))
    as (Hres & _).
  destruct (Hres r Hin) as (-> & _). auto.
Qed.

(** X14. [Writer] encodes whatever is written to it: on a destination
    that accepts everything, once [Close] has returned after the writes
    [ws], [Encode] has returned nil and the destination holds the header,
    the encoding of the bytes of [ws] in order, and the footer, whatever
    interleaving of the goroutines led there and whatever is called on the
    handle afterwards. *)
Theorem Writer_encodes (enc : Encoder) (tmux : bool) (ws : list bytes)
    (rest : list uop) (sched : list tid) (r : option error) :
  reliable (enc_out enc) ->
  In (RClose r) (st_res (exec enc sched (Writer enc tmux (map UWrite ws ++ UClose :: rest)))) ->
  r = None /\
  st_c (exec enc sched (Writer enc tmux (map UWrite ws ++ UClose :: rest))) = BDone None /\
  written (exec enc sched (Writer enc tmux (map UWrite ws ++ UClose :: rest)))
  = header tmux (enc_options enc) ++ Base64.Encode (concat ws) ++ footerEscape tmux.
Proof. exact (Writer_closed enc tmux ws rest sched r). Qed.

Lemma Writer_encodes_witness :
  @None error = None /\
  st_c (exec (mkEnc discard []) (rounds 18)
          (Writer (mkEnc discard []) false
             (map UWrite [bytes_of "ABCD"; bytes_of "EF"] ++ UClose :: [])))
  = BDone None /\
  written (exec (mkEnc discard []) (rounds 18)
             (Writer (mkEnc discard []) false
                (map UWrite [bytes_of "ABCD"; bytes_of "EF"] ++ UClose :: [])))
  = header false (enc_options (mkEnc discard []))
    ++ Base64.Encode (concat [bytes_of "ABCD"; bytes_of "EF"]) ++ footerEscape false.
Proof.
  apply (Writer_encodes (mkEnc discard []) false [bytes_of "ABCD"; bytes_of "EF"] []
           (rounds 18) None).
  - intros h d. reflexivity.
  - vm_compute. right. right. left. reflexivity.
Defined.

(** X15. A [Write] on the handle that begins after a [Close] has
    returned comes back at once with no byte written and
    [io.ErrClosedPipe], and leaves the pipe as it is. *)
Theorem Write_after_Close (enc : Encoder) (tmux : bool) (ops : list uop)
    (sched : list tid) (r : option error) (p : bytes) (rest : list uop) :
  In (RClose r) (st_res (exec enc sched (Writer enc tmux ops))) ->
  st_u (exec enc sched (Writer enc tmux ops)) = UIdle ->
  st_ops (exec enc sched (Writer enc tmux ops)) = UWrite p :: rest ->
  exists s',
    step enc Caller (exec enc sched (Writer enc tmux ops)) = Some s' /\
    st_res s' = st_res (exec enc sched (Writer enc tmux ops))
                ++ [RWrite 0 (Some ErrClosedPipe)] /\
    st_ops s' = rest /\ st_u s' = UIdle /\
    st_op s' = st_op (exec enc sched (Writer enc tmux ops)).
Proof.
  intros Hin Hu Hops.
  pose proof (handle_inv_exec enc sched _ (handle_inv_Writer enc tmux ops))
    as (_ & _ & _ & Hw & _).
  specialize (Hw (or_intror (ex_intro _ r Hin))).
  cbn [step]. unfold step_caller, pipe_write_begin, p_done, writeCloseError.
  rewrite Hops, Hu.
  destruct (p_werr (st_op (exec enc sched (Writer enc tmux ops)))); [| congruence].
  eexists. split; [reflexivity |]. cbn. auto.
Qed.

Lemma Write_after_Close_witness :
  exists s',
    step (mkEnc discard []) Caller
      (exec (mkEnc discard []) (rounds 12)
         (Writer (mkEnc discard []) false [UClose; UWrite (bytes_of "x")])) = Some s' /\
    st_res s' = st_res (exec (mkEnc discard []) (rounds 12)
                          (Writer (mkEnc discard []) false [UClose; UWrite (bytes_of "x")]))
                ++ [RWrite 0 (Some ErrClosedPipe)] /\
    st_ops s' = [] /\ st_u s' = UIdle /\
    st_op s' = st_op (exec (mkEnc discard []) (rounds 12)
                        (Writer (mkEnc discard []) false [UClose; UWrite (bytes_of "x")])).
Proof.
  apply (Write_after_Close (mkEnc discard []) false [UClose; UWrite (bytes_of "x")]
           (rounds 12) None (bytes_of "x") []).
  - vm_compute. left. reflexivity.
  - vm_compute. reflexivity.
  - vm_compute. reflexivity.
Defined.

Section Handle.

Variable enc : Encoder.

Lemma closed_by_Close_step t s s' :
  closed_by_Close s -> step enc t s = Some s' -> closed_by_Close s'.
Proof.
  unfold closed_by_Close. intros H Hs Hw. destruct t; cbn [step] in Hs.
  - destruct s as [rd t e ip c out [owr owerr orerr] dn ops u res].
    unfold step_caller, pipe_write_begin, pipe_write_wait, PipeWriter_Close, closeWrite,
      p_done in Hs. cbn in H, Hs.
    assert (Hin : forall x, (exists r, In (RClose r) res) ->
                            exists r, In (RClose r) (res ++ [x])).
    { intros x (r & Hr). exists r. apply in_or_app. now left. }
    destruct ops as [| [p |] ops]; [discriminate | |].
    + destruct u.
      * destruct owerr, orerr; injection Hs as <-; cbn in Hw |- *;
          try congruence; destruct H as [H | H]; try discriminate; auto.
      * destruct owr; try discriminate.
        -- destruct owerr, orerr; try discriminate; injection Hs as <-; cbn in Hw |- *;
             try congruence; destruct H as [H | H]; try discriminate; auto.
        -- injection Hs as <-. cbn in Hw |- *.
           destruct H as [H | H]; try discriminate; auto.
      * destruct dn; [| discriminate]. injection Hs as <-. cbn. right.
        exists None. apply in_or_app. right. now left.
    + destruct u.
      * injection Hs as <-. cbn. now left.
      * destruct owr; try discriminate.
        -- destruct owerr, orerr; try discriminate; injection Hs as <-; cbn in Hw |- *;
             try congruence; destruct H as [H | H]; try discriminate; auto.
        -- injection Hs as <-. cbn in Hw |- *.
           destruct H as [H | H]; try discriminate; auto.
      * destruct dn; [| discriminate]. injection Hs as <-. cbn. right.
        exists None. apply in_or_app. right. now left.
  - assert (E : p_werr (st_op s') = p_werr (st_op s) /\ st_u s' = st_u s
                /\ st_res s' = st_res s).
    { unfold step_main in Hs.
      repeat match type of Hs with
             | context [match ?x with _ => _ end] => destruct x eqn:?; try discriminate
             end; injection Hs as <-; cbn; auto. }
    destruct E as (E1 & E2 & E3). rewrite E1 in Hw. rewrite E2, E3. auto.
  - destruct (step_transcode_op s s' Hs) as (E1 & _).
    destruct (step_transcode_frame s s' Hs) as (_ & _ & _ & E3 & _ & E2).
    rewrite E1 in Hw. rewrite E2, E3. auto.
Qed.

Lemma closed_by_Close_Writer tmux ops : closed_by_Close (Writer enc tmux ops).
Proof. unfold closed_by_Close, Writer. cbn. congruence. Qed.

Lemma calls_inv_step ops0 t s s' :
  calls_inv ops0 s -> step enc t s = Some s' -> calls_inv ops0 s'.
Proof.
  intros (Hmade & Hu) Hs. destruct t; cbn [step] in Hs.
  - destruct Hmade as (made & H0 & HF).
    destruct s as [rd t e ip c out [owr owerr orerr] dn ops u res].
    unfold step_caller, pipe_write_begin, pipe_write_wait, PipeWriter_Close, closeWrite,
      p_done in Hs. cbn in H0, HF, Hu, Hs.
    assert (Hnext : forall o ops' r, ops = o :: ops' -> answers o r ->
              exists made', ops0 = made' ++ ops' /\ Forall2 answers made' (res ++ [r])).
    { intros o ops' r -> Ha. exists (made ++ [o]). rewrite <- app_assoc. split; [exact H0 |].
      apply Forall2_app; [exact HF | repeat constructor; exact Ha]. }
    destruct ops as [| o ops]; [discriminate |].
    destruct u.
    + destruct o as [p |].
      * destruct owerr, orerr; injection Hs as <-; unfold calls_inv; cbn;
          try (split; [apply (Hnext (UWrite p)); [reflexivity | cbn; split; [lia | discriminate]]
                      | exact I]);
          split; eauto.
      * injection Hs as <-. unfold calls_inv; cbn. split; eauto.
    + destruct Hu as (p & rest & [= -> ->] & ->).
      destruct owr as [| b |]; try discriminate.
      * destruct owerr, orerr; try discriminate; injection Hs as <-; unfold calls_inv; cbn;
          (split; [apply (Hnext (UWrite p)); [reflexivity | cbn; split; [lia | discriminate]]
                  | exact I]).
      * injection Hs as <-. unfold calls_inv; cbn.
        split; [apply (Hnext (UWrite p)); [reflexivity | cbn; auto] | exact I].
    + destruct Hu as (rest & [= -> ->]).
      destruct dn; [| discriminate]. injection Hs as <-. unfold calls_inv; cbn.
      split; [apply (Hnext UClose); [reflexivity | reflexivity] | exact I].
  - assert (E : st_ops s' = st_ops s /\ st_u s' = st_u s /\ st_res s' = st_res s).
    { unfold step_main in Hs.
      repeat match type of Hs with
             | context [match ?x with _ => _ end] => destruct x eqn:?; try discriminate
             end; injection Hs as <-; cbn; auto. }
    destruct E as (E1 & E2 & E3). unfold calls_inv. now rewrite E1, E2, E3.
  - destruct (step_transcode_frame s s' Hs) as (_ & _ & _ & E3 & E1 & E2).
    unfold calls_inv. now rewrite E1, E2, E3.
Qed.

Lemma calls_inv_Writer tmux ops : calls_inv ops (Writer enc tmux ops).
Proof.
  unfold calls_inv, Writer. cbn. split; [| exact I]. exists []. split; [reflexivity |].
  constructor.
Qed.

End Handle.

(** X16. When [Encode] has failed, the goroutine of [Writer] has closed
    the read end of the pipe with its error: a [Write] that begins after
    that goroutine has finished, on a handle that was not closed, comes
    back at once with no byte written and the error of [Encode]. *)
Theorem Write_after_failure (enc : Encoder) (tmux : bool) (ops : list uop)
    (sched : list tid) (e : error) (p : bytes) (rest : list uop) :
  st_c (exec enc sched (Writer enc tmux ops)) = BDone (Some e) ->
  (forall r, ~ In (RClose r) (st_res (exec enc sched (Writer enc tmux ops)))) ->
  st_u (exec enc sched (Writer enc tmux ops)) = UIdle ->
  st_ops (exec enc sched (Writer enc tmux ops)) = UWrite p :: rest ->
  exists s',
    step enc Caller (exec enc sched (Writer enc tmux ops)) = Some s' /\
    st_res s' = st_res (exec enc sched (Writer enc tmux ops)) ++ [RWrite 0 (Some e)] /\
    st_ops s' = rest /\ st_u s' = UIdle.
Proof.
  intros Hc Hno Hu Hops.
  pose proof (handle_inv_exec enc sched _ (handle_inv_Writer enc tmux ops))
    as (_ & _ & Hr & _).
  rewrite Hc in Hr.
  pose proof (exec_inv enc closed_by_Close (closed_by_Close_step enc) sched _
                (closed_by_Close_Writer enc tmux ops)) as Hw.
  unfold closed_by_Close in Hw. rewrite Hu in Hw.
  assert (Hwe : p_werr (st_op (exec enc sched (Writer enc tmux ops))) = None).
  { destruct (p_werr (st_op (exec enc sched (Writer enc tmux ops)))) eqn:E; [| reflexivity].
    destruct Hw as [Hw | (r & Hw)]; [discriminate | discriminate |]. now elim (Hno r). }
  cbn [step]. unfold step_caller, pipe_write_begin, p_done, writeCloseError.
  rewrite Hops, Hu, Hwe, Hr. eexists. split; [reflexivity |]. cbn. auto.
Qed.

Lemma Write_after_failure_witness :
  exists s',
    step (mkEnc (closed_after 1) []) Caller
      (exec (mkEnc (closed_after 1) []) (rounds 5 ++ repeat Main 6)
         (Writer (mkEnc (closed_after 1) []) false
            [UWrite (bytes_of "ABCDEF"); UWrite (bytes_of "GHI"); UWrite (bytes_of "X")]))
    = Some s' /\
    st_res s'
    = st_res (exec (mkEnc (closed_after 1) []) (rounds 5 ++ repeat Main 6)
                (Writer (mkEnc (closed_after 1) []) false
                   [UWrite (bytes_of "ABCDEF"); UWrite (bytes_of "GHI");
                    UWrite (bytes_of "X")]))
      ++ [RWrite 0 (Some (Err "closed"))] /\
    st_ops s' = [] /\ st_u s' = UIdle.
Proof.
  apply (Write_after_failure (mkEnc (closed_after 1) []) false
           [UWrite (bytes_of "ABCDEF"); UWrite (bytes_of "GHI"); UWrite (bytes_of "X")]
           (rounds 5 ++ repeat Main 6) (Err "closed") (bytes_of "X") []).
  - vm_compute. reflexivity.
  - vm_compute. intros r [H | [H | []]]; discriminate H.
  - vm_compute. reflexivity.
  - vm_compute. reflexivity.
Defined.

(** X17. The calls on the handle return in the order they are made, one
    result for each: a [Write] reports at most the bytes it was given, and
    all of them when it reports no error; a [Close] reports nil.  The calls
    that have not returned are the rest of the list. *)
Theorem calls_answered (enc : Encoder) (tmux : bool) (ops : list uop) (sched : list tid) :
  exists made,
    ops = made ++ st_ops (exec enc sched (Writer enc tmux ops)) /\
    Forall2 answers made (st_res (exec enc sched (Writer enc tmux ops))).
Proof.
  exact (proj1 (exec_inv enc (calls_inv ops) (calls_inv_step enc ops) sched _
                  (calls_inv_Writer enc tmux ops))).
Qed.

Lemma Encode_length_le l : length (Base64.Encode l) <= 4 * length l.
Proof.
  induction l as [| a | a b | a b c l IH] using list_ind3.
  - reflexivity.
  - cbv [Base64.Encode length]. lia.
  - cbv [Base64.Encode length]. lia.
  - change (Base64.Encode (a :: b :: c :: l))
      with (Base64.sextet (Base64.quantum (Byte.to_N a) (Byte.to_N b) (Byte.to_N c)) 18
            :: Base64.sextet (Base64.quantum (Byte.to_N a) (Byte.to_N b) (Byte.to_N c)) 12
            :: Base64.sextet (Base64.quantum (Byte.to_N a) (Byte.to_N b) (Byte.to_N c)) 6
            :: Base64.sextet (Base64.quantum (Byte.to_N a) (Byte.to_N b) (Byte.to_N c)) 0
            :: Base64.Encode l).
    cbn [length]. lia.
Qed.

Lemma flush_cost_le buf : length buf < 3 -> flush_cost buf <= 24.
Proof. intros H. unfold flush_cost. pose proof (Encode_length_le buf). lia. Qed.

Lemma chunk_cost_cons c cs : chunk_cost (c :: cs) = 2 * length c + 4 + chunk_cost cs.
Proof. reflexivity. Qed.

Lemma interior_cost fuel : forall p, chunk_cost (fst (interior fuel p)) <= 12 * length p.
Proof.
  induction fuel as [| fuel IH]; intros p; cbn [interior]; [cbn; lia |].
  destruct (3 <=? length p) eqn:E; [| cbn; lia].
  apply Nat.leb_le in E. destruct (nn_facts (length p) E) as (_ & Hlo & Hhi).
  set (nn := if length p <? 768 then length p - length p mod 3 else 768) in *.
  specialize (IH (skipn nn p)). destruct (interior fuel (skipn nn p)) as [cs fr].
  cbn [fst] in *. rewrite chunk_cost_cons.
  pose proof (Encode_length_le (firstn nn p)) as Hc.
  rewrite length_firstn in Hc. rewrite length_skipn in IH. lia.
Qed.

Lemma enc_chunks_cost buf d :
  length buf < 3 -> chunk_cost (fst (enc_chunks buf d)) <= 12 * length d + 28.
Proof.
  intros Hbuf. unfold enc_chunks. destruct buf as [| x buf'].
  - pose proof (interior_cost (length d) d). lia.
  - set (buf := x :: buf') in *. set (i := Nat.min (3 - length buf) (length d)).
    destruct (length (buf ++ firstn i d) <? 3); [cbn; lia |].
    pose proof (interior_cost (length d) (skipn i d)) as H.
    destruct (interior (length d) (skipn i d)) as [cs fr]. cbn [fst] in *.
    rewrite chunk_cost_cons.
    pose proof (Encode_length_le (buf ++ firstn i d)) as Hc.
    rewrite length_app, length_firstn in Hc. rewrite length_skipn in H.
    fold i in Hc. lia.
Qed.

Lemma can_read_t_write e cs fringe :
  can_read (fst (t_write e cs fringe None)) = true.
Proof. destruct cs; reflexivity. Qed.

Lemma wcost_eq s :
  st_rd s = PipeReader ->
  wcost s = cost s + if can_read (st_t s) then src_cost s else 0.
Proof. intros H. unfold wcost, cost, wt_cost. rewrite H. lia. Qed.

Section Writes.

Variable enc : Encoder.

Lemma step_main_frame s s' :
  step_main enc s = Some s' ->
  st_rd s' = st_rd s /\ st_t s' = st_t s /\ st_e s' = st_e s /\ st_ops s' = st_ops s /\
  st_u s' = st_u s /\ st_res s' = st_res s /\
  p_wr (st_op s') = p_wr (st_op s) /\ p_werr (st_op s') = p_werr (st_op s).
Proof.
  unfold step_main. intros Hs.
  repeat match type of Hs with
         | context [match ?x with _ => _ end] => destruct x eqn:?; try discriminate
         end; injection Hs as <-; cbn; repeat split; congruence.
Qed.

(** A step of the goroutine of [Writer] brings the end nearer. *)
Lemma main_step_wcost s s' :
  st_rd s = PipeReader -> step_main enc s = Some s' -> wcost s' < wcost s.
Proof.
  intros Hrd Hs. pose proof (main_step_cost enc s s' Hs) as Hlt.
  destruct (step_main_frame s s' Hs) as (E1 & E2 & _ & E4 & E5 & _ & E7 & _).
  rewrite !wcost_eq by congruence. unfold src_cost, pend. rewrite E2, E4, E5, E7.
  destruct (can_read (st_t s)); lia.
Qed.

(** So does a step of the holder of the handle. *)
Lemma caller_step_wcost s s' :
  coh s -> step_caller s = Some s' -> wcost s' < wcost s.
Proof.
  intros Hc Hs. destruct s as [rd t e ip c out [owr owerr orerr] dn ops u res].
  unfold coh in Hc; proj. destruct Hc as (_ & _ & _ & _ & _ & _ & Hu).
  assert (Hfin : forall op' ops' u' res',
            u_cost ops' u' < u_cost ops u ->
            match p_wr op' with Offered b => 64 * length b + 1 | _ => 0 end
            + ops_cost (match u' with UIdle => ops' | _ => tl ops' end)
            <= match owr with Offered b => 64 * length b + 1 | _ => 0 end
               + ops_cost (match u with UIdle => ops | _ => tl ops end) ->
            wcost (set_u (mkState rd t e ip c out (mkPipe owr owerr orerr) dn ops u res)
                         op' ops' u' res')
            < wcost (mkState rd t e ip c out (mkPipe owr owerr orerr) dn ops u res)).
  { intros op' ops' u' res' H1 H2. unfold wcost, wt_cost, src_cost, pend; proj.
    destruct (can_read t); lia. }
  unfold step_caller, pipe_write_begin, pipe_write_wait, PipeWriter_Close, closeWrite,
    p_done in Hs; proj.
  destruct ops as [| o ops]; [discriminate |].
  destruct u; cbn in Hu.
  - subst owr. destruct o as [p |].
    + destruct owerr, orerr; injection Hs as <-; apply Hfin; unfold u_cost; cbn [length p_wr tl ops_cost];
        lia.
    + injection Hs as <-. apply Hfin; unfold u_cost; cbn [length p_wr tl ops_cost]; lia.
  - destruct owr as [| b |]; destruct o; try discriminate;
      try (destruct owerr, orerr; cbn in Hs; try discriminate);
      injection Hs as <-; apply Hfin; unfold u_cost; cbn [length p_wr tl ops_cost]; lia.
  - destruct Hu as (-> & _). destruct dn; destruct o; try discriminate; injection Hs as <-;
      apply Hfin; unfold u_cost; cbn [length p_wr tl ops_cost]; lia.
Qed.

Lemma can_read_enc_write_ok e d :
  e_err e = None -> can_read (fst (t_enc_write e d None)) = true.
Proof.
  intros He. unfold t_enc_write. destruct d; [reflexivity |]. rewrite He.
  destruct (enc_chunks (e_buf e) (b :: d)). apply can_read_t_write.
Qed.

(** And so does a step of the transcode goroutine, which reads what is
    written on the handle. *)
Lemma transcode_step_wcost s s' :
  coh s -> st_rd s = PipeReader -> step_transcode s = Some s' -> wcost s' < wcost s.
Proof.
  intros Hc Hrd Hs. destruct s as [rd t e ip c out op dn ops u res].
  destruct ip as [iwr iwerr irerr]; destruct op as [owr owerr orerr].
  unfold coh in Hc; proj. destruct Hc as (Hir & Hor & How & Hbuf & He & Ht & Hu).
  subst irerr orerr rd.
  assert (Hfin : forall pc e' ip',
            pipe_cost ip' + t_cost pc e' [] < pipe_cost (mkPipe iwr iwerr None) + t_cost t e [] ->
            (can_read pc = true -> can_read t = true) ->
            wcost (set_t (mkState PipeReader t e (mkPipe iwr iwerr None) c out
                                  (mkPipe owr owerr None) dn ops u res)
                         PipeReader pc e' ip' (mkPipe owr owerr None))
            < wcost (mkState PipeReader t e (mkPipe iwr iwerr None) c out
                             (mkPipe owr owerr None) dn ops u res)).
  { intros pc e' ip' H1 H2. unfold wcost, wt_cost, src_cost, pend; proj.
    destruct (can_read pc), (can_read t); try lia; specialize (H2 eq_refl); discriminate. }
  unfold step_transcode in Hs; proj.
  destruct t; cbn in Ht.
  - (* TRead *)
    destruct Ht as (-> & ->). specialize (He eq_refl).
    unfold pipe_read, p_done in Hs; proj.
    destruct How as [-> | ->].
    + destruct owr as [| b |]; try discriminate.
      pose proof (can_read_enc_write_ok e (firstn copy_buf b) He) as Hcr.
      destruct (firstn copy_buf b) as [| x d] eqn:Ed.
      * apply firstn_nil_inv in Ed. subst b. rewrite skipn_nil in Hs.
        cbn in Hs. injection Hs as <-.
        unfold wcost, wt_cost, src_cost, pend; proj. cbn [can_read length]. lia.
      * assert (Hlen : length b = length (x :: d) + length (skipn copy_buf b)).
        { rewrite <- Ed, <- length_app, firstn_skipn. reflexivity. }
        unfold t_enc_write in Hs, Hcr. rewrite He in Hs, Hcr.
        pose proof (enc_chunks_cost (e_buf e) (x :: d) Hbuf) as Hcc.
        destruct (enc_chunks_split (e_buf e) (x :: d) Hbuf) as (_ & _ & _ & _ & Hfr).
        destruct (enc_chunks (e_buf e) (x :: d)) as [cs fr]. cbn [fst snd] in *.
        pose proof (t_write_cost e cs fr None []) as Hcost.
        destruct (t_write e cs fr None) as [pc e']. cbn [fst snd] in *.
        injection Hs as <-.
        unfold wcost, wt_cost, src_cost, pend; proj. rewrite Hcr, Hcost.
        cbn [can_read t_cost after_cost script_cost].
        pose proof (flush_cost_le fr Hfr). pose proof (flush_cost_ge (e_buf e)).
        cbn [length] in *.
        destruct (skipn copy_buf b); cbn [p_wr length] in *; lia.
    + cbn in Hs. injection Hs as <-.
      unfold wcost, wt_cost, src_cost, pend; proj. cbn [can_read t_cost script_cost]. lia.
  - (* TWrite *)
    destruct Ht as (-> & -> & Hfr).
    unfold pipe_write_begin, p_done in Hs; proj. injection Hs as <-.
    apply Hfin; [cbn; lia | cbn; auto].
  - (* TWriteWait *)
    destruct Ht as (Hwr & -> & Hfr).
    unfold pipe_write_wait, p_done in Hs; proj.
    destruct iwr as [| rest |]; try discriminate.
    pose proof (t_write_cost e cs fringe er []) as Hcost.
    pose proof (can_read_write e cs fringe er) as Hcr.
    destruct (t_write e cs fringe er) as [pc e']. injection Hs as <-.
    apply Hfin; [cbn [fst snd t_cost pipe_cost p_wr] in *; lia |].
    cbn [fst] in Hcr. intros H. rewrite (Hcr H). reflexivity.
  - (* TCopyRet *)
    destruct Ht as (-> & ->). pose proof (flush_cost_ge (e_buf e)).
    destruct err; injection Hs as <-; (apply Hfin; [cbn; lia | cbn; auto]).
  - (* TEncClose *)
    destruct deferred.
    + destruct Ht as (-> & Ht). destruct iwerr as [w |]; [| congruence].
      unfold pipe_write_begin, p_done in Hs; proj.
      destruct (e_err e); [| destruct (close_chunks (e_buf e))]; injection Hs as <-;
        (apply Hfin; [cbn; lia | cbn; auto]).
    + destruct Ht as (-> & ->). specialize (He eq_refl). rewrite He in Hs.
      unfold pipe_write_begin, p_done in Hs; proj.
      destruct (e_buf e) as [| b l] eqn:Eb; cbn [close_chunks] in Hs; injection Hs as <-;
        (apply Hfin; [cbn [t_cost pipe_cost p_wr]; unfold flush_cost; rewrite Eb; lia
                     | cbn; auto]).
  - (* TEncCloseWait *)
    unfold pipe_write_wait, p_done in Hs; proj. destruct deferred.
    + destruct Ht as (-> & Ht). discriminate.
    + destruct Ht as (Hwr & ->). destruct iwr; try discriminate. injection Hs as <-.
      apply Hfin; [cbn; lia | cbn; auto].
  - (* TEncClosed *)
    destruct deferred.
    + destruct Ht as (-> & Ht).
      destruct err; injection Hs as <-; (apply Hfin; [cbn; lia | cbn; auto]).
    + destruct Ht as (-> & ->).
      destruct err; injection Hs as <-; (apply Hfin; [cbn; lia | cbn; auto]).
  - discriminate.
Qed.

End Writes.

Lemma closes_follow_tl o ops : closes_follow (o :: ops) -> closes_follow ops.
Proof.
  destruct o; cbn [closes_follow]; [auto |].
  induction ops as [| [p |] ops IH]; cbn [forallb is_close closes_follow]; auto.
  discriminate.
Qed.

Section WritesInv.

Variable enc : Encoder.
Variable P : bytes * term.

(** What a step of the holder of the handle keeps. *)
Lemma caller_step_handle s s' :
  coh s -> closes_follow (st_ops s) ->
  (p_werr (st_op s) <> None -> forallb is_close (st_ops s) = true) ->
  Forall res_ok (st_res s) ->
  step_caller s = Some s' ->
  (p_werr (st_op s) <> None -> p_werr (st_op s') <> None) /\
  (forall n, st_u s' = UWriteWait n -> p_wr (st_op s') <> Free) /\
  closes_follow (st_ops s') /\
  (p_werr (st_op s') <> None -> forallb is_close (st_ops s') = true) /\
  Forall res_ok (st_res s').
Proof.
  intros Hc Hcf Hcl Hres Hs. destruct s as [rd t e ip c out [owr owerr orerr] dn ops u res].
  unfold coh in Hc; proj. destruct Hc as (_ & Hor & _ & _ & _ & _ & Hu). subst orerr.
  unfold step_caller, pipe_write_begin, pipe_write_wait, PipeWriter_Close, closeWrite,
    p_done in Hs; proj.
  destruct ops as [| o ops]; [discriminate |].
  pose proof (closes_follow_tl o ops Hcf) as Hcf'.
  assert (Hsnoc : forall r, res_ok r -> Forall res_ok (res ++ [r])).
  { intros r Hr. apply Forall_app. split; [assumption | now constructor]. }
  assert (Htl : owerr <> None -> forallb is_close ops = true).
  { intros H. specialize (Hcl H). cbn [forallb] in Hcl. now apply andb_true_iff in Hcl. }
  destruct u; cbn in Hu.
  - subst owr. destruct o as [p |].
    + destruct owerr as [w |].
      * specialize (Hcl ltac:(discriminate)). discriminate Hcl.
      * cbn in Hs. injection Hs as <-. cbn. repeat split; auto; try discriminate.
    + injection Hs as <-. cbn. repeat split; auto; try discriminate;
        try (destruct owerr; discriminate).
  - subst owerr. destruct owr as [| b |]; destruct o; try discriminate; cbn in Hs;
      try discriminate; injection Hs as <-; cbn; repeat split; auto; try discriminate;
      apply Hsnoc; reflexivity.
  - destruct Hu as (-> & Hw). destruct dn; destruct o; try discriminate;
      injection Hs as <-; cbn; repeat split; auto; try discriminate;
      apply Hsnoc; reflexivity.
Qed.

Lemma caller_step_wlive s s' :
  wlive enc P s -> step_caller s = Some s' -> wlive enc P s'.
Proof.
  intros (Hc & Hrd & Hbg & Hrel & HP & Ha1 & Ha2 & Hw & Hcf & Hcl & Hres) Hs.
  destruct (step_caller_keeps s s' Hc Hs) as (Hc' & _).
  destruct (step_caller_frame s s' Hs) as (Hcc & Hout & Hdn & Hrd' & Ht & Hip & He).
  destruct (caller_step_handle s s' Hc Hcf Hcl Hres Hs) as (H1 & H2 & H3 & H4 & H5).
  unfold wlive. rewrite Hrd', Ht, Hcc, Hip.
  split; [exact Hc' |]. split; [exact Hrd |].
  split; [unfold bg in *; now rewrite Hcc, Hdn, Hrd' |].
  repeat split; auto.
Qed.

(** The transcode goroutine stops reading only when its reader has come to
    an end. *)
Lemma transcode_can_read s s' :
  coh s -> st_rd s = PipeReader -> step_transcode s = Some s' ->
  can_read (st_t s') = false ->
  can_read (st_t s) = false \/ p_werr (st_op s) <> None.
Proof.
  intros Hc Hrd Hs Hcr. destruct (can_read (st_t s)) eqn:E; [| now left]. right.
  destruct s as [rd t e ip c out op dn ops u res].
  destruct ip as [iwr iwerr irerr]; destruct op as [owr owerr orerr].
  unfold coh in Hc; proj. destruct Hc as (Hir & Hor & How & Hbuf & He & Ht & Hu).
  subst irerr orerr rd. unfold step_transcode in Hs; proj.
  destruct t; try discriminate E; cbn in Ht.
  - destruct Ht as (-> & ->). specialize (He eq_refl).
    unfold pipe_read, p_done in Hs; proj.
    destruct owerr; [discriminate |]. exfalso.
    destruct owr as [| b |]; try discriminate.
    pose proof (can_read_enc_write_ok e (firstn copy_buf b) He) as Hok.
    destruct (t_enc_write e (firstn copy_buf b) None) as [pc e']. injection Hs as <-.
    cbn in Hcr, Hok. congruence.
  - destruct er; [discriminate E |]. destruct Ht as (-> & -> & Hfr). exfalso.
    unfold pipe_write_begin, p_done in Hs; proj. injection Hs as <-. discriminate Hcr.
  - destruct er; [discriminate E |]. destruct Ht as (Hwr & -> & Hfr). exfalso.
    unfold pipe_write_wait, p_done in Hs; proj.
    destruct iwr as [| rest |]; try discriminate.
    pose proof (can_read_t_write e cs fringe) as Hok.
    destruct (t_write e cs fringe None) as [pc e']. injection Hs as <-.
    cbn in Hcr, Hok. congruence.
Qed.

Lemma transcode_keeps_offer s s' :
  step_transcode s = Some s' -> p_wr (st_op s) <> Free -> p_wr (st_op s') <> Free.
Proof.
  unfold step_transcode. intros Hs Hw.
  destruct (st_t s); try discriminate.
  - destruct (st_rd s) as [[| [d er] rs] |].
    + destruct (t_enc_write _ _ _); injection Hs as <-; exact Hw.
    + destruct (t_enc_write _ _ _); injection Hs as <-; exact Hw.
    + unfold pipe_read in Hs. destruct (p_done (st_op s)).
      * destruct (t_enc_write _ _ _); injection Hs as <-; exact Hw.
      * destruct (p_wr (st_op s)) as [| b |]; try discriminate.
        destruct (t_enc_write _ _ _); injection Hs as <-; cbn.
        destruct (skipn copy_buf b); discriminate.
  - break_match Hs; injection Hs as <-; exact Hw.
  - break_match Hs; injection Hs as <-; exact Hw.
  - destruct err; injection Hs as <-; exact Hw.
  - break_match Hs; injection Hs as <-; exact Hw.
  - break_match Hs; injection Hs as <-; exact Hw.
  - destruct deferred, err; injection Hs as <-; exact Hw.
Qed.

Lemma transcode_step_wlive s s' :
  wlive enc P s -> step_transcode s = Some s' -> wlive enc P s'.
Proof.
  intros (Hc & Hrd & Hbg & Hrel & HP & Ha1 & Ha2 & Hw & Hcf & Hcl & Hres) Hs.
  destruct (step_transcode_keeps s s' Hc Hs) as (Hc' & _).
  destruct (step_transcode_frame s s' Hs) as (Hcc & _ & Hdn & Hr & Hops & Hu).
  destruct (step_transcode_op s s' Hs) as (Hwe & _).
  pose proof (piped_step enc Transcode s s' Hrd Hs) as Hrd'.
  unfold wlive. rewrite Hcc, Hops, Hu, Hr, Hwe.
  split; [exact Hc' |]. split; [exact Hrd' |].
  split; [unfold bg in *; rewrite Hcc, Hdn, Hrd'; rewrite Hrd in Hbg; exact Hbg |].
  split; [exact Hrel |]. split; [exact HP |].
  split; [| split; [| split; [| auto]]].
  - intros Hcr. destruct (transcode_can_read s s' Hc Hrd Hs Hcr); auto.
  - intros Hcp. specialize (Ha2 Hcp).
    destruct (p_werr (st_ip s)) as [w |] eqn:E; [| congruence].
    rewrite (werr_stable_step enc Transcode s s' w E Hs). discriminate.
  - intros n Hn. apply (transcode_keeps_offer s s' Hs). eauto.
Qed.

(** [Encode] comes to the end of its readers only after the end of its
    pipe. *)
Lemma main_reads_pipe s s' :
  coh s -> reliable (enc_out enc) -> step_main enc s = Some s' ->
  (c_reads_pipe (st_c s) = false -> p_werr (st_ip s) <> None) ->
  c_reads_pipe (st_c s') = false -> p_werr (st_ip s') <> None.
Proof.
  intros Hc Hrel Hs Ha. destruct s as [rd t e ip c out op dn ops u res].
  destruct ip as [iwr iwerr irerr].
  unfold coh in Hc; proj. destruct Hc as (Hir & _). subst irerr.
  unfold step_main in Hs; proj.
  destruct c as [rs | d er rs | r | r | r]; try discriminate.
  - destruct rs as [| [[| x b] |] rs]; try (injection Hs as <-; cbn in *; exact Ha).
    unfold pipe_read, p_done in Hs; proj.
    destruct iwerr as [w |].
    + cbn in Hs. destruct w; injection Hs as <-; cbn; discriminate.
    + destruct iwr as [| b |]; try discriminate.
      destruct (firstn copy_buf b); injection Hs as <-; cbn; discriminate.
  - rewrite Hrel in Hs. rewrite Nat.eqb_refl in Hs.
    destruct er as [[] |]; injection Hs as <-; cbn in *; exact Ha.
  - destruct rd; [discriminate |]. injection Hs as <-. cbn in *. exact Ha.
  - injection Hs as <-. cbn in *. exact Ha.
Qed.

Lemma main_step_wlive s s' :
  Inv enc P s -> wlive enc P s -> step_main enc s = Some s' -> wlive enc P s'.
Proof.
  intros HI (Hc & Hrd & Hbg & Hrel & HP & Ha1 & Ha2 & Hw & Hcf & Hcl & Hres) Hs.
  pose proof (Inv_step enc P Main s s' HI Hs) as HI'.
  pose proof (main_reads_pipe s s' Hc Hrel Hs Ha2) as Ha2'.
  destruct (step_main_frame enc s s' Hs) as (E1 & E2 & E3 & E4 & E5 & E6 & E7 & E8).
  assert (Hrest : coh s' -> bg s' -> wlive enc P s').
  { intros Hc' Hbg'. unfold wlive. rewrite E1, E2, E4, E5, E6, E7, E8.
    split; [exact Hc' |]. split; [exact Hrd |]. split; [exact Hbg' |]. repeat split; auto. }
  destruct (running s) eqn:Hrun.
  - destruct (step_main_coh enc s s' Hc Hrun Hs)
      as (Hc' & _ & _ & _ & _ & Hdn & _ & _ & _ & Hnb).
    apply Hrest; [exact Hc' |].
    assert (Hd : st_dn s = false).
    { unfold bg, running in *. destruct (st_c s); try discriminate; assumption. }
    unfold bg. rewrite Hdn, E1.
    destruct (st_c s') as [| | r | |] eqn:Ec; try assumption; try contradiction.
    split; [assumption |]. intros _.
    unfold Inv, running in HI'. rewrite Ec in HI'. destruct HI' as (r' & Hr' & Hfin).
    cbn in Hr'. injection Hr' as <-.
    apply (finished_reliable _ _ _ _ Hrel) in Hfin. rewrite Hfin in HP. cbn in HP.
    congruence.
  - destruct s as [rd t e ip c out op dn ops u res].
    unfold running in Hrun; proj. unfold step_main in Hs; proj. unfold bg in Hbg; proj.
    subst rd.
    destruct c as [| | r | r | r]; try discriminate.
    + destruct Hbg as (Hd & Hr). rewrite (Hr eq_refl) in Hs. injection Hs as <-.
      apply Hrest; [exact Hc | unfold bg; cbn; auto].
    + destruct Hbg as (Hd & -> & _). injection Hs as <-.
      apply Hrest; [exact Hc | unfold bg; cbn; auto].
Qed.

End WritesInv.

Section WritesLive.

Variable enc : Encoder.
Variable P : bytes * term.

Lemma step'_wlive t s :
  Inv enc P s -> wlive enc P s ->
  Inv enc P (step' enc t s) /\ wlive enc P (step' enc t s) /\
  wcost (step' enc t s) <= wcost s /\
  (step enc t s <> None -> wcost (step' enc t s) < wcost s).
Proof.
  intros HI HL. split; [now apply Inv_step' |].
  unfold step'. destruct (step enc t s) as [s' |] eqn:E.
  2:{ split; [assumption |]. split; [lia | congruence]. }
  pose proof HL as (Hc & Hrd & _).
  destruct t; cbn [step] in E.
  - pose proof (caller_step_wlive enc P s s' HL E).
    pose proof (caller_step_wcost s s' Hc E). split; [assumption |]. split; [lia | auto].
  - pose proof (main_step_wlive enc P s s' HI HL E).
    pose proof (main_step_wcost enc s s' Hrd E). split; [assumption |]. split; [lia | auto].
  - pose proof (transcode_step_wlive enc P s s' HL E).
    pose proof (transcode_step_wcost s s' Hc Hrd E). split; [assumption |]. split; [lia | auto].
Qed.

(** While a call on the handle is outstanding, one of the goroutines can
    move. *)
Lemma wlive_progress s :
  wlive enc P s -> st_ops s <> [] ->
  step enc Main s = None -> step enc Transcode s = None -> step enc Caller s <> None.
Proof.
  intros HL Hops Hm Ht. pose proof HL as (Hc & Hrd & Hbg & Hrel & HP & Ha1 & Ha2 & Hw & _).
  cbn [step] in *.
  destruct (st_u s) eqn:Hu.
  - (* between calls *)
    unfold step_caller, pipe_write_begin, PipeWriter_Close. rewrite Hu.
    destruct (st_ops s) as [| [p |] ops]; [congruence | |]; [| discriminate].
    destruct (p_done (st_op s)); discriminate.
  - (* blocked in Write *)
    specialize (Hw total eq_refl).
    destruct s as [rd t e ip c out op dn ops u res].
    destruct ip as [iwr iwerr irerr]; destruct op as [owr owerr orerr].
    unfold coh in Hc; proj. destruct Hc as (Hir & Hor & How & Hbuf & He & Hct & Hcu).
    subst irerr orerr rd u. cbn in Hcu. subst owerr.
    destruct ops as [| o ops]; [congruence |].
    unfold step_caller, pipe_write_wait, p_done; proj.
    destruct owr as [| b |]; [congruence | | destruct o; discriminate].
    exfalso.
    destruct (can_read t) eqn:Ecr; [| now apply (Ha1 eq_refl)].
    unfold step_transcode, pipe_read, pipe_write_begin, pipe_write_wait, p_done in Ht; proj.
    destruct t; try discriminate Ecr; cbn in Hct.
    + destruct (t_enc_write e (firstn copy_buf b) None); discriminate.
    + destruct Hct as (-> & -> & _). discriminate.
    + destruct er; [discriminate Ecr |]. destruct Hct as (Hwr & -> & _).
      destruct iwr as [| b' |]; [congruence | | destruct (t_write e cs fringe None); discriminate].
      destruct (c_reads_pipe c) eqn:Ecp; [| now apply (Ha2 eq_refl)].
      unfold step_main, pipe_read, p_done in Hm; proj.
      destruct c as [rs | d [er |] rs | r | r | r]; try discriminate Ecp.
      * destruct rs as [| [[| x b0] |] rs]; try discriminate;
          destruct (firstn copy_buf b'); discriminate.
      * destruct (enc_out enc out d); discriminate.
  - (* blocked in Close *)
    assert (Hcu : p_wr (st_op s) = Free /\ p_werr (st_op s) <> None).
    { unfold coh in Hc. rewrite Hu in Hc. cbn in Hc. tauto. }
    destruct Hcu as (Hfree & Hwe).
    assert (Hq : quiet s) by (unfold quiet; now rewrite Hrd).
    unfold step_caller. rewrite Hu.
    destruct (st_ops s) as [| o ops]; [congruence |].
    destruct (st_dn s) eqn:Hd; [destruct o; discriminate |]. exfalso.
    unfold bg in Hbg. unfold step_main in Hm. rewrite Hrd in Hm.
    destruct (st_c s) eqn:Ec; try discriminate; try (destruct Hbg; congruence).
    + apply (transcode_progress enc s Hc Hq); auto.
      * unfold running. now rewrite Ec.
      * unfold step_main. now rewrite Ec.
    + apply (transcode_progress enc s Hc Hq); auto.
      * unfold running. now rewrite Ec.
      * unfold step_main. now rewrite Ec.
Qed.

Lemma round_wlive s :
  Inv enc P s -> wlive enc P s -> st_ops s <> [] ->
  Inv enc P (round enc s) /\ wlive enc P (round enc s) /\ wcost (round enc s) < wcost s.
Proof.
  intros HI HL Hops. unfold round.
  destruct (step'_wlive Main s HI HL) as (HI1 & HL1 & Hle1 & Hlt1).
  destruct (step'_wlive Transcode _ HI1 HL1) as (HI2 & HL2 & Hle2 & Hlt2).
  destruct (step'_wlive Caller _ HI2 HL2) as (HI3 & HL3 & Hle3 & Hlt3).
  split; [assumption |]. split; [assumption |].
  destruct (step enc Main s) eqn:Em; [specialize (Hlt1 ltac:(discriminate)); lia |].
  assert (E1 : step' enc Main s = s) by (unfold step'; now rewrite Em).
  rewrite E1 in *.
  destruct (step enc Transcode s) eqn:Et; [specialize (Hlt2 ltac:(discriminate)); lia |].
  assert (E2 : step' enc Transcode s = s) by (unfold step'; now rewrite Et).
  rewrite E2 in *.
  specialize (Hlt3 (wlive_progress s HL Hops Em Et)). lia.
Qed.

(** Under the round-robin scheduler every call on the handle returns. *)
Lemma wsettles n : forall s,
  wcost s <= n -> Inv enc P s -> wlive enc P s ->
  exists m, st_ops (run enc m s) = [] /\ Inv enc P (run enc m s)
            /\ wlive enc P (run enc m s).
Proof.
  induction n as [| n IH]; intros s Hn HI HL.
  - destruct (st_ops s) eqn:Hops; [exists 0; cbn; auto |].
    destruct (round_wlive s HI HL ltac:(congruence)) as (_ & _ & Hlt). lia.
  - destruct (st_ops s) eqn:Hops; [exists 0; cbn; auto |].
    destruct (round_wlive s HI HL ltac:(congruence)) as (HI' & HL' & Hlt).
    destruct (IH (round enc s) ltac:(lia) HI' HL') as (m & Hm).
    exists (S m). exact Hm.
Qed.

End WritesLive.

Lemma wlive_Writer enc tmux ops :
  reliable (enc_out enc) -> closes_follow ops -> snd (ops_fut ops) = Some None ->
  wlive enc (plan (Writer enc tmux ops)) (Writer enc tmux ops).
Proof.
  intros Hrel Hcf Hend. unfold wlive. split; [apply coh_init |].
  rewrite plan_Writer, frame_snd. cbn.
  repeat split; auto; try discriminate; congruence.
Qed.

Lemma closes_follow_writes ws : closes_follow (map UWrite ws ++ [UClose]).
Proof. induction ws as [| w ws IH]; cbn; auto. Qed.

Lemma answers_expected ops : forall res,
  Forall2 answers ops res -> Forall res_ok res -> res = map expected ops.
Proof.
  induction ops as [| o ops IH]; intros res HF Hok; inversion HF; subst; [reflexivity |].
  inversion Hok; subst. cbn [map]. f_equal; [| now apply IH].
  destruct o, y; cbn in *; try contradiction; subst.
  - destruct H1 as (_ & H1). now rewrite (H1 eq_refl).
  - reflexivity.
Qed.

(** X18. A handle on which slices are written and which is then closed,
    on a destination that accepts everything, runs to its end under the
    round-robin scheduler: every [Write] returns the length of its slice and
    nil, [Close] returns nil, [Encode] has returned nil, and the destination
    holds the header, the encoding of the slices in order, and the
    footer. *)
Theorem Writer_completes (enc : Encoder) (tmux : bool) (ws : list bytes) :
  reliable (enc_out enc) ->
  exists n,
    st_ops (run enc n (Writer enc tmux (map UWrite ws ++ [UClose]))) = [] /\
    st_res (run enc n (Writer enc tmux (map UWrite ws ++ [UClose])))
    = map (fun w => RWrite (length w) None) ws ++ [RClose None] /\
    st_c (run enc n (Writer enc tmux (map UWrite ws ++ [UClose]))) = BDone None /\
    written (run enc n (Writer enc tmux (map UWrite ws ++ [UClose])))
    = header tmux (enc_options enc) ++ Base64.Encode (concat ws) ++ footerEscape tmux.
Proof.
  intros Hrel. set (ops := map UWrite ws ++ [UClose]).
  assert (Hend : snd (ops_fut ops) = Some None) by (unfold ops; now rewrite ops_fut_writes).
  destruct (wsettles enc _ _ (Writer enc tmux ops) (le_n _) (Inv_Writer enc tmux ops)
              (wlive_Writer enc tmux ops Hrel (closes_follow_writes ws) Hend))
    as (m & Hops & _ & HL).
  exists m. rewrite run_rounds in *.
  destruct HL as (_ & _ & _ & _ & _ & _ & _ & _ & _ & _ & Hok).
  destruct (exec_inv enc (calls_inv ops) (calls_inv_step enc ops) (rounds m) _
              (calls_inv_Writer enc tmux ops)) as ((made & Hmade & HF) & _).
  rewrite Hops, app_nil_r in Hmade. subst made.
  pose proof (answers_expected ops _ HF Hok) as Hres.
  assert (Hexp : map expected ops = map (fun w => RWrite (length w) None) ws ++ [RClose None]).
  { unfold ops. rewrite map_app, map_map. reflexivity. }
  rewrite Hexp in Hres.
  split; [exact Hops |]. split; [exact Hres |].
  assert (Hin : In (RClose None) (st_res (exec enc (rounds m) (Writer enc tmux ops)))).
  { rewrite Hres. apply in_or_app. right. now left. }
  destruct (Writer_closed enc tmux ws [] (rounds m) None Hrel Hin) as (_ & H1 & H2).
  auto.
Qed.

Lemma Writer_completes_witness :
  exists n,
    st_ops (run (mkEnc discard [Inline true]) n
              (Writer (mkEnc discard [Inline true]) true
                 (map UWrite [bytes_of "GIF8"; bytes_of "9a"] ++ [UClose]))) = [] /\
    st_res (run (mkEnc discard [Inline true]) n
              (Writer (mkEnc discard [Inline true]) true
                 (map UWrite [bytes_of "GIF8"; bytes_of "9a"] ++ [UClose])))
    = map (fun w => RWrite (length w) None) [bytes_of "GIF8"; bytes_of "9a"]
      ++ [RClose None] /\
    st_c (run (mkEnc discard [Inline true]) n
            (Writer (mkEnc discard [Inline true]) true
               (map UWrite [bytes_of "GIF8"; bytes_of "9a"] ++ [UClose]))) = BDone None /\
    written (run (mkEnc discard [Inline true]) n
               (Writer (mkEnc discard [Inline true]) true
                  (map UWrite [bytes_of "GIF8"; bytes_of "9a"] ++ [UClose])))
    = header true (enc_options (mkEnc discard [Inline true]))
      ++ Base64.Encode (concat [bytes_of "GIF8"; bytes_of "9a"]) ++ footerEscape true.
Proof.
  apply (Writer_completes (mkEnc discard [Inline true]) true [bytes_of "GIF8"; bytes_of "9a"]).
  intros h d. reflexivity.
Defined.

Section Barrier.

Variable enc : Encoder.

(** Once the goroutine of [Writer] has finished it stays finished, and the
    destination is left alone. *)
Lemma finished_step t s s' e :
  st_c s = BDone e -> step enc t s = Some s' ->
  st_c s' = BDone e /\ st_out s' = st_out s.
Proof.
  intros Hc Hs. destruct t; cbn [step] in Hs.
  - destruct (step_caller_frame s s' Hs) as (E1 & E2 & _). now rewrite E1, E2.
  - unfold step_main in Hs. rewrite Hc in Hs. discriminate.
  - destruct (step_transcode_frame s s' Hs) as (E1 & E2 & _). now rewrite E1, E2.
Qed.

Lemma finished_exec sched : forall s e,
  st_c s = BDone e ->
  st_c (exec enc sched s) = BDone e /\ st_out (exec enc sched s) = st_out s.
Proof.
  induction sched as [| t sched IH]; intros s e Hc; cbn [exec]; [auto |].
  unfold step'. destruct (step enc t s) as [s' |] eqn:E; [| now apply IH].
  destruct (finished_step t s s' e Hc E) as (Hc' & Ho).
  destruct (IH s' e Hc') as (H1 & H2). rewrite H1, H2. auto.
Qed.

End Barrier.

(** X19. [Close] is a barrier: once a [Close] on the handle has
    returned, whatever the destination does and whatever is called or
    scheduled afterwards, [Encode] makes no further write to the
    destination. *)
Theorem Close_is_barrier (enc : Encoder) (tmux : bool) (ops : list uop)
    (sched sched' : list tid) (r : option error) :
  In (RClose r) (st_res (exec enc sched (Writer enc tmux ops))) ->
  st_out (exec enc sched' (exec enc sched (Writer enc tmux ops)))
  = st_out (exec enc sched (Writer enc tmux ops)).
Proof.
  intros Hin.
  pose proof (handle_inv_exec enc sched _ (handle_inv_Writer enc tmux ops))
    as (Hres & Hdn & _).
  destruct (Hres r Hin) as (_ & Hd). destruct (Hdn Hd) as (e & Hc).
  exact (proj2 (finished_exec enc sched' _ e Hc)).
Qed.

Lemma Close_is_barrier_witness :
  st_out (exec (mkEnc (closed_after 1) []) (eager 6)
            (exec (mkEnc (closed_after 1) []) (rounds 12)
               (Writer (mkEnc (closed_after 1) []) false
                  [UWrite (bytes_of "ABCDEF"); UClose; UWrite (bytes_of "G")])))
  = st_out (exec (mkEnc (closed_after 1) []) (rounds 12)
              (Writer (mkEnc (closed_after 1) []) false
                 [UWrite (bytes_of "ABCDEF"); UClose; UWrite (bytes_of "G")])).
Proof.
  apply (Close_is_barrier (mkEnc (closed_after 1) []) false
           [UWrite (bytes_of "ABCDEF"); UClose; UWrite (bytes_of "G")]
           (rounds 12) (eager 6) None).
  vm_compute. right. left. reflexivity.
Defined.
